(** * The signal and news publishing consumer

    A shallow embedding of the consumer loop of the Telegram signal bot:
    [src/signalConsumer.js] (the long-lived [tick]), [api/run-consumer.js]
    (the single-tick [handler]) and the helpers they call.

    MongoDB collections are finite maps keyed by [_id]; every store call is
    one atomic step on such a map (MongoDB applies a single-document
    [findOneAndUpdate] / [updateOne] atomically).  Time, the Telegram
    transport and store faults are supplied by an environment record, so
    that every theorem quantifies over all clocks, all transport outcomes
    and all fault patterns. *)

From Stdlib Require Import ZArith Lia List String Ascii Bool DecimalString.
From Stdlib Require Import DecimalPos.
From stdpp Require Import gmap strings list fin_maps sorting.

Local Open Scope string_scope.
Local Open Scope list_scope.
Local Open Scope Z_scope.

(** ** JavaScript values

    Payload fields arrive as loosely typed JSON: prices are numbers in the
    integration contract and strings in the test script, flags may be
    missing.  Numbers are integers here; fractional numbers and their
    rendering are floating point and stay outside the embedding. *)

Module Js.

Inductive value : Type :=
| Undefined
| Null
| Bool (b : bool)
| Num (n : Z)
| Str (s : string).

#[global] Instance value_eq_dec : EqDecision value.
Proof. solve_decision. Defined.

(** [if (v)], [!v], [a || b], [c ? x : y] *)
Definition truthy (v : value) : bool :=
  match v with
  | Undefined | Null => false
  | Bool b => b
  | Num n => negb (n =? 0)
  | Str s => negb (String.eqb s EmptyString)
  end.

Definition or (a b : value) : value := if truthy a then a else b.

(** [String(v)] *)
Definition toString (v : value) : string :=
  match v with
  | Undefined => "undefined"
  | Null => "null"
  | Bool true => "true"
  | Bool false => "false"
  | Num n => NilZero.string_of_int (Z.to_int n)
  | Str s => s
  end.

End Js.

(** A value of [process.env]: unset, or a string (the empty string is falsy). *)
Definition env_or (a b : option string) : option string :=
  match a with
  | Some s => if String.eqb s EmptyString then b else a
  | None => b
  end.

Definition env_truthy (a : option string) : bool :=
  match a with
  | Some s => negb (String.eqb s EmptyString)
  | None => false
  end.

(** ** Documents *)

(** A document of the signals collection ([ai_signals]).  The [_id] is the
    key of the collection map, the record holds the other fields. *)
Record SignalDoc : Type := mkSignal {
  id : Js.value;
  status : Js.value;
  is_premium : Js.value;
  expires_at : option Z;
  generated_at : option Z;
  market_type : Js.value;
  signal_type : Js.value;
  pair : Js.value;
  entry_price : Js.value;
  entry : Js.value;
  stop_loss : Js.value;
  stop : Js.value;
  take_profit : Js.value;
  take : Js.value;
  confidence_level : Js.value;
  risk_reward_ratio : Js.value;
  reasoning : Js.value;
  validation_warnings : option (list Js.value);
  claimed_at : option Z;
  deferred_at : option Z;
  sent_at : option Z;
  last_telegram_message_id : option Z;
  sent_channels : list string
}.

(** A document of [news_updates]. *)
Record NewsDoc : Type := mkNews {
  news_status : Js.value;
  news_expires_at : option Z;
  created_at : option Z;
  title : Js.value;
  summary : Js.value;
  source : Js.value;
  provider : Js.value;
  url : Js.value;
  news_claimed_at : option Z;
  published_at : option Z;
  failed_at : option Z
}.

Definition pending : Js.value := Js.Str "pending".
Definition sending : Js.value := Js.Str "sending".
Definition active : Js.value := Js.Str "active".
Definition deferred : Js.value := Js.Str "deferred".
Definition published : Js.value := Js.Str "published".

(** *** The three updates the consumer applies to a signal *)

(** [{ $set: { status: 'sending', claimed_at: now } }] *)
Definition set_claimed (now : Z) (d : SignalDoc) : SignalDoc :=
  mkSignal (id d) sending (is_premium d) (expires_at d) (generated_at d)
    (market_type d) (signal_type d) (pair d) (entry_price d) (entry d)
    (stop_loss d) (stop d) (take_profit d) (take d) (confidence_level d)
    (risk_reward_ratio d) (reasoning d) (validation_warnings d)
    (Some now) (deferred_at d) (sent_at d) (last_telegram_message_id d)
    (sent_channels d).

(** [{ $set: { status: 'deferred', deferred_at: now } }] *)
Definition set_deferred (now : Z) (d : SignalDoc) : SignalDoc :=
  mkSignal (id d) deferred (is_premium d) (expires_at d) (generated_at d)
    (market_type d) (signal_type d) (pair d) (entry_price d) (entry d)
    (stop_loss d) (stop d) (take_profit d) (take d) (confidence_level d)
    (risk_reward_ratio d) (reasoning d) (validation_warnings d)
    (claimed_at d) (Some now) (sent_at d) (last_telegram_message_id d)
    (sent_channels d).

(** [$addToSet]: append unless already present. *)
Definition addToSet (x : string) (l : list string) : list string :=
  if bool_decide (x ∈ l) then l else l ++ [x].

(** [{ $set: { status: 'active', sent_at: now, last_telegram_message_id },
       $addToSet: { sent_channels: String(chatId) } }] *)
Definition set_active (now mid : Z) (chat : string) (d : SignalDoc) : SignalDoc :=
  mkSignal (id d) active (is_premium d) (expires_at d) (generated_at d)
    (market_type d) (signal_type d) (pair d) (entry_price d) (entry d)
    (stop_loss d) (stop d) (take_profit d) (take d) (confidence_level d)
    (risk_reward_ratio d) (reasoning d) (validation_warnings d)
    (claimed_at d) (deferred_at d) (Some now) (Some mid)
    (addToSet chat (sent_channels d)).

(** *** The three updates applied to a news item *)

Definition news_set_claimed (now : Z) (n : NewsDoc) : NewsDoc :=
  mkNews sending (news_expires_at n) (created_at n) (title n) (summary n)
    (source n) (provider n) (url n) (Some now) (published_at n) (failed_at n).

Definition news_set_published (now : Z) (n : NewsDoc) : NewsDoc :=
  mkNews published (news_expires_at n) (created_at n) (title n) (summary n)
    (source n) (provider n) (url n) (news_claimed_at n) (Some now) (failed_at n).

Definition news_set_failed (now : Z) (n : NewsDoc) : NewsDoc :=
  mkNews pending (news_expires_at n) (created_at n) (title n) (summary n)
    (source n) (provider n) (url n) (news_claimed_at n) (published_at n) (Some now).

(** ** Collections: the store calls the consumer uses

    Every filter the consumer passes to a write names one [_id], so a write
    addresses the document under that key and applies its update when the
    rest of the filter holds. *)

Section Collection.

Context {D : Type}.

(** [col.findOneAndUpdate({ _id: k, ...cond }, upd, { returnDocument: 'after' })]:
    the [value] of the result and the collection afterwards. *)
Definition findOneAndUpdate (k : Z) (cond : D → bool) (upd : D → D)
    (c : gmap Z D) : option D * gmap Z D :=
  match c !! k with
  | Some d => if cond d then (Some (upd d), <[k := upd d]> c) else (None, c)
  | None => (None, c)
  end.

(** [col.find(cond)] before sorting: the matching documents. *)
Definition find (cond : D → bool) (c : gmap Z D) : list (Z * D) :=
  filter (λ kd, cond kd.2 = true) (map_to_list c).

End Collection.

(** ** Claim protocol (signalConsumer.js 812-821, run-consumer.js 41-46) *)

Definition is_pending (d : SignalDoc) : bool :=
  bool_decide (status d = pending).

(** [signalsCol.findOneAndUpdate({ _id, status: 'pending' },
      { $set: { status: 'sending', claimed_at: now } }, { returnDocument: 'after' })] *)
Definition claim (k now : Z) (c : gmap Z SignalDoc)
    : option SignalDoc * gmap Z SignalDoc :=
  findOneAndUpdate k is_pending (set_claimed now) c.

(** [n] callers race for item [k]; the store serialises their claims in some
    order, the i-th one carrying its own clock reading.  The result lists
    what each caller got back, in that order, and the final collection. *)
Fixpoint claim_attempts (k : Z) (nows : list Z) (c : gmap Z SignalDoc)
    : list (option SignalDoc) * gmap Z SignalDoc :=
  match nows with
  | [] => ([], c)
  | now :: rest =>
      let '(r, c1) := claim k now c in
      let '(rs, c2) := claim_attempts k rest c1 in
      (r :: rs, c2)
  end.

Definition successes (rs : list (option SignalDoc)) : nat :=
  length (filter (λ r, is_Some r) rs).

(** ** Results and exceptions *)

(** A JavaScript call either returns or throws; the exception is carried by
    its [message]. *)
Inductive Res (A : Type) : Type :=
| Ok (a : A)
| Throw (e : string).

Arguments Ok {A} a.
Arguments Throw {A} e.

(** [err && err.message ? err.message : String(err)] for an [Error] whose
    message is [e]: an empty message is falsy and [String(err)] is the
    error's name. *)
Definition err_text (e : string) : string :=
  if String.eqb e EmptyString then "Error" else e.

(** ** Message formatter (signalConsumer.js 554-621) *)

Definition nl : string := String (ascii_of_nat 10) EmptyString.

(** The character class of the regular expression in [escapeMarkdown]. *)
Definition special_chars : list ascii :=
  list_ascii_of_string "_*[]()~`>#+-=|{}.!".

Definition special (c : ascii) : bool :=
  existsb (Ascii.eqb c) special_chars.

Definition backslash : ascii := ascii_of_nat 92.

(** [s.replace(/([_\*\[\]\(\)~`>#+\-=|{}.!])/g, '\\$1')] *)
Fixpoint escape (s : string) : string :=
  match s with
  | EmptyString => EmptyString
  | String c r =>
      if special c then String backslash (String c (escape r))
      else String c (escape r)
  end.

(** [escapeMarkdown(text = '')]: the default applies to [undefined]. *)
Definition escapeMarkdown (text : Js.value) : string :=
  escape (match text with
          | Js.Undefined => EmptyString
          | v => Js.toString v
          end).

(** [toUpperCase] on ASCII letters. *)
Definition upper_ascii (c : ascii) : ascii :=
  let n := nat_of_ascii c in
  if ((97 <=? n) && (n <=? 122))%nat then ascii_of_nat (n - 32) else c.

Fixpoint upper (s : string) : string :=
  match s with
  | EmptyString => EmptyString
  | String c r => String (upper_ascii c) (upper r)
  end.

(** [v.toUpperCase()]: only strings have the method. *)
Definition toUpperCase (v : Js.value) : Res string :=
  match v with
  | Js.Str s => Ok (upper s)
  | _ => Throw "toUpperCase is not a function"
  end.

(** [lines.join('\n')] *)
Definition join_lines (lines : list string) : string := String.concat nl lines.

Section Formatter.

(** Locale-dependent date rendering and fixed-point number rendering are
    taken as given functions. *)
Variable toLocaleString : Z → string.
Variable toFixed2 : Js.value → string.

(** The [direction] of [formatSignalMessage]. *)
Definition direction_of (sig : SignalDoc) : Js.value :=
  if bool_decide (signal_type sig = Js.Str "LONG") then Js.Str "BUY (LONG)"
  else if bool_decide (signal_type sig = Js.Str "SHORT") then Js.Str "SELL (SHORT)"
  else Js.or (signal_type sig) (Js.Str "HOLD").

Definition optional_line {A} (o : option A) (f : A → list string) : list string :=
  match o with
  | Some a => f a
  | None => []
  end.

Definition defined (v : Js.value) : option Js.value :=
  match v with
  | Js.Undefined => None
  | _ => Some v
  end.

Definition when_truthy (v : Js.value) : option Js.value :=
  if Js.truthy v then Some v else None.

Definition warnings_of (sig : SignalDoc) : option (list Js.value) :=
  match validation_warnings sig with
  | Some (w :: ws) => Some (w :: ws)
  | _ => None
  end.

Definition formatSignalMessage (sig : SignalDoc) : Res string :=
  match toUpperCase (Js.or (market_type sig) (Js.Str EmptyString)) with
  | Throw e => Throw e
  | Ok market =>
      Ok (join_lines (
        [ "🔔 *NEW " +:+ escapeMarkdown (Js.Str market) +:+ " SIGNAL*";
          "*Pair:* " +:+ escapeMarkdown (Js.or (pair sig) (Js.Str "N/A"));
          "*Direction:* " +:+ escapeMarkdown (direction_of sig);
          "*Entry:* " +:+ escapeMarkdown
             (Js.Str (Js.toString (Js.or (entry_price sig) (Js.or (entry sig) (Js.Str "N/A")))));
          "*Stop Loss:* " +:+ escapeMarkdown
             (Js.Str (Js.toString (Js.or (stop_loss sig) (Js.or (stop sig) (Js.Str "N/A")))));
          "*Take Profit:* " +:+ escapeMarkdown
             (Js.Str (Js.toString (Js.or (take_profit sig) (Js.or (take sig) (Js.Str "N/A"))))) ]
        ++ optional_line (defined (confidence_level sig)) (λ v,
             [ "*Confidence:* " +:+ escapeMarkdown (Js.Str (Js.toString v)) +:+ "%" ])
        ++ optional_line (defined (risk_reward_ratio sig)) (λ v,
             [ "*Risk–Reward:* " +:+ escapeMarkdown (Js.Str (toFixed2 v)) +:+ " : 1" ])
        ++ optional_line (when_truthy (reasoning sig)) (λ v,
             [ EmptyString; "*Reasoning:* " +:+ escapeMarkdown v ])
        ++ optional_line (generated_at sig) (λ g,
             [ EmptyString; "*Generated:* " +:+ escapeMarkdown (Js.Str (toLocaleString g)) ])
        ++ optional_line (expires_at sig) (λ x,
             [ "*Expires:* " +:+ escapeMarkdown (Js.Str (toLocaleString x)) ])
        ++ optional_line (warnings_of sig) (λ ws,
             [ EmptyString; "*Warnings:*" ] ++ map (λ w, "• " +:+ escapeMarkdown w) ws)
        ++ [ EmptyString; "_Not financial advice. Trade at your own risk._" ]))
  end.

Definition formatNewsMessage (item : NewsDoc) : string :=
  join_lines (
    [ "📰 *" +:+ escapeMarkdown (Js.or (title item) (Js.Str "News Update")) ]
    ++ optional_line (when_truthy (summary item)) (λ v, [ escapeMarkdown v ])
    ++ optional_line (when_truthy (Js.or (source item) (provider item))) (λ v,
         [ EmptyString; "*Source:* " +:+ escapeMarkdown v ])
    ++ optional_line (when_truthy (url item)) (λ v,
         [ "[Read more](" +:+ escapeMarkdown v +:+ ")" ])
    ++ optional_line (created_at item) (λ c,
         [ EmptyString; "_" +:+ escapeMarkdown (Js.Str (toLocaleString c)) +:+ "_" ])).

(** The text built inline by [api/run-consumer.js] (lines 78-91): template
    literals interpolate [String(v)] directly. *)
Definition handler_text (sig : SignalDoc) : Res string :=
  match toUpperCase (Js.or (market_type sig) (Js.Str EmptyString)) with
  | Throw e => Throw e
  | Ok up =>
      let market := Js.toString (Js.or (Js.Str up) (Js.Str "MARKET")) in
      Ok (join_lines (
        [ "🔔 *NEW " +:+ market +:+ " SIGNAL*";
          "*Pair:* " +:+ Js.toString (Js.or (pair sig) (Js.Str "N/A"));
          "*Direction:* " +:+ Js.toString (Js.or (signal_type sig) (Js.Str "N/A"));
          "*Entry:* " +:+
             Js.toString (Js.or (entry_price sig) (Js.or (entry sig) (Js.Str "N/A")));
          "*Stop Loss:* " +:+
             Js.toString (Js.or (stop_loss sig) (Js.or (stop sig) (Js.Str "N/A")));
          "*Take Profit:* " +:+
             Js.toString (Js.or (take_profit sig) (Js.or (take sig) (Js.Str "N/A"))) ]
        ++ optional_line (defined (confidence_level sig)) (λ v,
             [ "*Confidence:* " +:+ Js.toString v +:+ "%" ])
        ++ optional_line (defined (risk_reward_ratio sig)) (λ v,
             [ "*Risk–Reward:* " +:+ toFixed2 v +:+ " : 1" ])
        ++ optional_line (when_truthy (reasoning sig)) (λ v,
             [ EmptyString; "*Reasoning:* " +:+ Js.toString v ])
        ++ [ EmptyString; "_Not financial advice. Trade at your own risk._" ]))
  end.

End Formatter.

(** ** The world the consumer acts on *)

(** A message delivered by [bot.telegram.sendMessage]. *)
Record Sent : Type := mkSent {
  chat_id : string;
  text : string;
  message_id : Z
}.

(** A row of [telegram_signal_logs] as [db-mongo.js] builds it. *)
Record FailureRecord : Type := mkFailure {
  signal_id : option string;
  telegram_message_id : option Z;
  channel_id : option string;
  error_message : option string;
  metadata : Z * SignalDoc;
  failure_created_at : Z
}.

(** [sig.id || sig._id] as printed in log lines. *)
Inductive Ref : Type :=
| ById (v : Js.value)
| ByOid (k : Z).

(** One constructor per [console.*] statement of the consumer. *)
Inductive LogLine : Type :=
| WarnSkippingNoEntry (who : Ref)
| LogDeferring (type : string) (who : Ref)
| ErrMarkDeferred (e : string)
| LogSentSignal (who : Ref)
| ErrSendingSignal (who : Ref) (e : string)
| ErrUpdateAttempt (attempt : nat) (e : string)
| ErrPublishLog (e : string)
| ErrUpdateAfterRetries (sigId : Js.value) (e : string)
| ErrLogDeliveryFailure (e : string)
| WarnNoPremiumChannelForNews
| LogNewsPosted (k : Z)
| ErrSendNews (e : string)
| LogNewsPublished (k : Z)
| ErrPublishNewsIfReady (e : string)
| ErrTick (e : string)
| ErrRunConsumerSignal (k : Z) (e : string).

(** [setTimeout] calls: the back-off sleeps of the retry loop and the
    rescheduling of the next tick. *)
Inductive Timer : Type :=
| Sleep (ms : Z)
| NextTick (ms : Z).

(** The shared store and the delivered messages at one instant. *)
Record Snap : Type := mkSnap {
  snap_signals : gmap Z SignalDoc;
  snap_news : gmap Z NewsDoc;
  snap_ledger : gmap string (option Z);
  snap_outbox : list Sent
}.

Record World : Type := mkWorld {
  signals : gmap Z SignalDoc;                 (* ai_signals *)
  news_updates : gmap Z NewsDoc;              (* news_updates *)
  signal_publish_log : gmap string (option Z); (* _id ↦ last_published *)
  telegram_signal_logs : list FailureRecord;
  outbox : list Sent;                         (* delivered messages, oldest first *)
  console : list LogLine;
  timers : list Timer;
  failedUpdateCache : list Js.value;
  (* Ghost: the store right after each write to a work-item collection
     that matched a document, oldest first.  No code reads it. *)
  journal : list Snap
}.

Definition snap_of (w : World) : Snap :=
  mkSnap (signals w) (news_updates w) (signal_publish_log w) (outbox w).

Definition put_signals (c : gmap Z SignalDoc) (w : World) : World :=
  mkWorld c (news_updates w) (signal_publish_log w) (telegram_signal_logs w)
    (outbox w) (console w) (timers w) (failedUpdateCache w)
    (journal w ++ [mkSnap c (news_updates w) (signal_publish_log w) (outbox w)]).

Definition put_news (c : gmap Z NewsDoc) (w : World) : World :=
  mkWorld (signals w) c (signal_publish_log w) (telegram_signal_logs w)
    (outbox w) (console w) (timers w) (failedUpdateCache w)
    (journal w ++ [mkSnap (signals w) c (signal_publish_log w) (outbox w)]).

Definition put_publish_log (l : gmap string (option Z)) (w : World) : World :=
  mkWorld (signals w) (news_updates w) l (telegram_signal_logs w)
    (outbox w) (console w) (timers w) (failedUpdateCache w) (journal w).

Definition add_failure (r : FailureRecord) (w : World) : World :=
  mkWorld (signals w) (news_updates w) (signal_publish_log w)
    (telegram_signal_logs w ++ [r])
    (outbox w) (console w) (timers w) (failedUpdateCache w) (journal w).

Definition add_sent (m : Sent) (w : World) : World :=
  mkWorld (signals w) (news_updates w) (signal_publish_log w) (telegram_signal_logs w)
    (outbox w ++ [m]) (console w) (timers w) (failedUpdateCache w) (journal w).

Definition add_log (l : LogLine) (w : World) : World :=
  mkWorld (signals w) (news_updates w) (signal_publish_log w) (telegram_signal_logs w)
    (outbox w) (console w ++ [l]) (timers w) (failedUpdateCache w) (journal w).

Definition add_timer (t : Timer) (w : World) : World :=
  mkWorld (signals w) (news_updates w) (signal_publish_log w) (telegram_signal_logs w)
    (outbox w) (console w) (timers w ++ [t]) (failedUpdateCache w) (journal w).

Definition add_cache (v : Js.value) (w : World) : World :=
  mkWorld (signals w) (news_updates w) (signal_publish_log w) (telegram_signal_logs w)
    (outbox w) (console w) (timers w)
    (if bool_decide (v ∈ failedUpdateCache w) then failedUpdateCache w
     else failedUpdateCache w ++ [v])
    (journal w).

(** ** What the environment decides during one tick

    Configuration comes from [process.env]; every [new Date()] of the source
    is a clock reading.  The calls that may throw are the transport send,
    every write that follows a successful send (the status commit attempts,
    the ledger update, the failure-log insert, the news updates) and the
    deferral update, which has a [catch] of its own; reads, the claim and
    the revert of a news item are taken to succeed.  Readings and outcomes
    that belong to the processing of one item are indexed by its [_id]. *)
Record Env : Type := mkEnv {
  PREMIUM_CHANNEL_ID : option string;
  FREE_CHANNEL_ID : option string;
  NEWS_PUBLISH_INTERVAL_MINUTES : option Z;   (* as parsed by parseInt *)
  SIGNAL_POLL_INTERVAL_MS : option Z;
  USE_MONGO_DB : bool;                        (* the test at the top of src/db.js *)
  running : bool;
  now_fetch : Z;              (* fetchPendingSignals; line 33 of run-consumer.js *)
  now_claim : Z → Z;          (* tick line 813; claimedAt in run-consumer.js *)
  now_sent : Z → Z;           (* sendSignalToPremium line 677; run-consumer.js line 95 *)
  now_ledger : Z → Z;         (* run-consumer.js line 96 *)
  now_log : Z → Z;            (* nowISO() in db-mongo.js *)
  now_news : Z;               (* publishNewsIfReady line 761 *)
  telegram_signal : Z → Res Z;   (* sendMessage for a signal: message_id or throws *)
  telegram_news : Z → Res Z;
  updateOne_fault : Z → nat → option string;  (* the n-th status commit throws *)
  defer_fault : Z → option string;
  publish_log_fault : Z → option string;
  insert_log_fault : Z → option string;
  news_published_fault : Z → option string;   (* publishNewsIfReady line 790 *)
  news_log_fault : Z → option string          (* publishNewsIfReady line 792 *)
}.

Definition newsIntervalMin (env : Env) : Z :=
  default 60 (NEWS_PUBLISH_INTERVAL_MINUTES env).

Definition intervalMs (env : Env) : Z :=
  default 60000 (SIGNAL_POLL_INTERVAL_MS env).

(** ** A state-and-exception monad for [async] code *)

Definition M (A : Type) : Type := World → Res A * World.

Definition ret {A} (a : A) : M A := λ w, (Ok a, w).

Definition throw {A} (e : string) : M A := λ w, (Throw e, w).

Definition bind {A B} (m : M A) (k : A → M B) : M B :=
  λ w, match m w with
       | (Ok a, w1) => k a w1
       | (Throw e, w1) => (Throw e, w1)
       end.

(** [try { m } catch (e) { h e }] *)
Definition try_catch {A} (m : M A) (h : string → M A) : M A :=
  λ w, match m w with
       | (Ok a, w1) => (Ok a, w1)
       | (Throw e, w1) => h e w1
       end.

Notation "'let!' x ':=' m 'in' k" := (bind m (λ x, k))
  (at level 10, x name, m at level 100, k at level 200).
Notation "m ';;' k" := (bind m (λ _, k))
  (at level 100, k at level 200, right associativity).

(** [for (const x of l) body] *)
Fixpoint for_each {A} (l : list A) (body : A → M unit) : M unit :=
  match l with
  | [] => ret tt
  | x :: rest => body x ;; for_each rest body
  end.

(** *** Primitive effects *)

Definition log (l : LogLine) : M unit := λ w, (Ok tt, add_log l w).

Definition setTimeout (t : Timer) : M unit := λ w, (Ok tt, add_timer t w).

(** [await bot.telegram.sendMessage(chat, text, ...)] with the outcome the
    transport gives; a successful call delivers the message. *)
Definition sendMessage (outcome : Res Z) (chat text : string) : M Z :=
  λ w, match outcome with
       | Ok mid => (Ok mid, add_sent (mkSent chat text mid) w)
       | Throw e => (Throw e, w)
       end.

Definition signals_findOneAndUpdate (k : Z) (cond : SignalDoc → bool)
    (upd : SignalDoc → SignalDoc) : M (option SignalDoc) :=
  λ w, match findOneAndUpdate k cond upd (signals w) with
       | (Some d, c) => (Ok (Some d), put_signals c w)
       | (None, _) => (Ok None, w)
       end.

(** [await signalsCol.updateOne(...)]: when the call throws nothing is
    written. *)
Definition signals_updateOne (fault : option string) (k : Z)
    (cond : SignalDoc → bool) (upd : SignalDoc → SignalDoc) : M unit :=
  match fault with
  | Some e => throw e
  | None => signals_findOneAndUpdate k cond upd ;; ret tt
  end.

Definition news_findOneAndUpdate (k : Z) (cond : NewsDoc → bool)
    (upd : NewsDoc → NewsDoc) : M (option NewsDoc) :=
  λ w, match findOneAndUpdate k cond upd (news_updates w) with
       | (Some d, c) => (Ok (Some d), put_news c w)
       | (None, _) => (Ok None, w)
       end.

Definition news_updateOne (fault : option string) (k : Z)
    (cond : NewsDoc → bool) (upd : NewsDoc → NewsDoc) : M unit :=
  match fault with
  | Some e => throw e
  | None => news_findOneAndUpdate k cond upd ;; ret tt
  end.

(** ** Cadence ledger (signalConsumer.js 634-641, 830-842, 760-767) *)

(** [getPublishLog]: [doc ? doc.last_published : null].  The init script
    seeds entries whose [last_published] is [null]; they read like a missing
    entry. *)
Definition last_published (ledger : gmap string (option Z)) (type : string)
    : option Z :=
  match ledger !! type with
  | Some lp => lp
  | None => None
  end.

Definition getPublishLog (type : string) : M (option Z) :=
  λ w, (Ok (last_published (signal_publish_log w) type), w).

(** [setPublishLog]: [updateOne({ _id: type }, { $set: { last_published: when } },
    { upsert: true })]. *)
Definition setPublishLog (fault : option string) (type : string) (when : Z)
    : M unit :=
  λ w, match fault with
       | Some e => (Throw e, w)
       | None => (Ok tt, put_publish_log (<[type := Some when]> (signal_publish_log w)) w)
       end.

(** [sig.is_premium ? 'premium' : 'free'] *)
Definition publish_type (sig : SignalDoc) : string :=
  if Js.truthy (is_premium sig) then "premium" else "free".

(** The [allowed] flag of [tick] (lines 832-842) and of the handler
    (run-consumer.js 59-63). *)
Definition allowed (type : string) (last : option Z) (now : Z) : bool :=
  match last with
  | Some lastDate =>
      if String.eqb type "premium" then 24 * 3600 * 1000 <=? now - lastDate
      else 7 * 24 * 3600 * 1000 <=? now - lastDate
  | None => true
  end.

(** The [allowed] flag of [publishNewsIfReady] (lines 763-767). *)
Definition news_allowed (env : Env) (last : option Z) (now : Z) : bool :=
  match last with
  | Some lastDate => newsIntervalMin env * 60 * 1000 <=? now - lastDate
  | None => true
  end.

(** ** Candidate fetch (signalConsumer.js 623-632, run-consumer.js 36) *)

(** Ascending order on an optional date, a missing field first. *)
Definition date_le (a b : option Z) : bool :=
  match a, b with
  | None, _ => true
  | Some _, None => false
  | Some x, Some y => x <=? y
  end.

Definition generated_le (a b : Z * SignalDoc) : Prop :=
  date_le (generated_at a.2) (generated_at b.2) = true.

#[global] Instance generated_le_dec : RelDecision generated_le.
Proof. intros a b. unfold generated_le. apply _. Defined.

(** [{ status: 'pending', is_premium: { $ne: false }, expires_at: { $gt: now } }] *)
Definition fetch_filter (now : Z) (d : SignalDoc) : bool :=
  is_pending d
  && bool_decide (is_premium d ≠ Js.Bool false)
  && match expires_at d with
     | Some x => now <? x
     | None => false
     end.

(** [find(filter).sort({ generated_at: 1 }).limit(limit).toArray()] *)
Definition fetch_candidates (now : Z) (limit : nat) (c : gmap Z SignalDoc)
    : list (Z * SignalDoc) :=
  firstn limit (merge_sort generated_le (find (fetch_filter now) c)).

Definition fetchPendingSignals (env : Env) (limit : nat)
    : M (list (Z * SignalDoc)) :=
  λ w, (Ok (fetch_candidates (now_fetch env) limit (signals w)), w).

(** ** Status commit with bounded retry (signalConsumer.js 643-658) *)

(** The [while (attempt < maxRetries)] loop; [fuel] bounds the iterations
    and is started at [maxRetries], which the loop never exceeds.  Falling
    out of the loop returns [undefined] ([None]). *)
Fixpoint retry_loop (fuel : nat) (fault : nat → option string) (k : Z)
    (upd : SignalDoc → SignalDoc) (maxRetries attempt : nat) (backoff : Z)
    : M (option bool) :=
  match fuel with
  | O => ret None
  | S fuel' =>
      if (attempt <? maxRetries)%nat then
        try_catch
          (signals_updateOne (fault attempt) k (λ _, true) upd ;;
           ret (Some true))
          (λ err,
             let attempt' := S attempt in
             log (ErrUpdateAttempt attempt' err) ;;
             if (maxRetries <=? attempt')%nat then throw err
             else
               setTimeout (Sleep backoff) ;;
               retry_loop fuel' fault k upd maxRetries attempt' (backoff * 2))
      else ret None
  end.

Definition updateSignalDocumentWithRetry (fault : nat → option string) (k : Z)
    (upd : SignalDoc → SignalDoc) (maxRetries : nat) : M (option bool) :=
  retry_loop maxRetries fault k upd maxRetries 0 1000.

(** ** Delivery reconciler: [db.logSignalDeliveryFailure]

    [signalConsumer.js] calls the function on the module [require('./db')].
    [src/db.js] re-exports [db-mongo.js] when [USE_MONGO_DB] is set and
    otherwise exports the SQL pool's functions, among which there is no
    [logSignalDeliveryFailure]: calling the missing property throws a
    [TypeError]. *)

Definition String_of_oid (k : Z) : string := Js.toString (Js.Num k).

(** [sig.id !== undefined ? sig.id : (sig._id ? String(sig._id) : null)] *)
Definition sigId_of (k : Z) (sig : SignalDoc) : Js.value :=
  match id sig with
  | Js.Undefined => Js.Str (String_of_oid k)
  | v => v
  end.

(** The document [db-mongo.js] inserts. *)
Definition failure_doc (signalId : Js.value) (telegramMessageId : Z)
    (channelId errorMessage : string) (k : Z) (sig : SignalDoc) (created : Z)
    : FailureRecord :=
  mkFailure
    (if Js.truthy signalId then Some (Js.toString signalId) else None)
    (if telegramMessageId =? 0 then None else Some telegramMessageId)
    (if String.eqb channelId EmptyString then None else Some channelId)
    (if String.eqb errorMessage EmptyString then None else Some errorMessage)
    (k, sig) created.

Definition logSignalDeliveryFailure (env : Env) (k : Z) (sig : SignalDoc)
    (signalId : Js.value) (telegramMessageId : Z) (channelId errorMessage : string)
    : M unit :=
  if USE_MONGO_DB env then
    λ w, match insert_log_fault env k with
         | Some e => (Throw e, w)
         | None =>
             (Ok tt, add_failure
                       (failure_doc signalId telegramMessageId channelId
                          errorMessage k sig (now_log env k)) w)
         end
  else throw "db.logSignalDeliveryFailure is not a function".

Section Consumer.

Variable toLocaleString : Z → string.
Variable toFixed2 : Js.value → string.

Definition ref_of (k : Z) (sig : SignalDoc) : Ref :=
  if Js.truthy (id sig) then ById (id sig) else ByOid k.

Definition is_sending (d : SignalDoc) : bool :=
  bool_decide (status d = sending).

(** The destination of a signal: [sig.is_premium ? premiumChatId : freeChatId]. *)
Definition chatId_of (env : Env) (sig : SignalDoc) : option string :=
  if Js.truthy (is_premium sig) then PREMIUM_CHANNEL_ID env
  else env_or (FREE_CHANNEL_ID env) (PREMIUM_CHANNEL_ID env).

(** ** [sendSignalToPremium] (signalConsumer.js 663-718) *)
Definition sendSignalToPremium (env : Env) (k : Z) (sig : SignalDoc) : M unit :=
  let chatId := chatId_of env sig in
  if negb (env_truthy chatId) then throw "PREMIUM_CHANNEL_ID not set"
  else
    let chat := default EmptyString chatId in
    match formatSignalMessage toLocaleString toFixed2 sig with
    | Throw e => throw e
    | Ok text =>
        let! message_id := sendMessage (telegram_signal env k) chat text in
        let now := now_sent env k in
        try_catch
          (updateSignalDocumentWithRetry (updateOne_fault env k) k
             (set_active now message_id chat) 3 ;;
           try_catch
             (setPublishLog (publish_log_fault env k) (publish_type sig) now)
             (λ e, log (ErrPublishLog (err_text e))))
          (λ err,
             let sigId := sigId_of k sig in
             (λ w, (Ok tt, add_cache sigId w)) ;;
             log (ErrUpdateAfterRetries sigId err) ;;
             try_catch
               (logSignalDeliveryFailure env k sig sigId message_id chat (err_text err))
               (λ logErr, log (ErrLogDeliveryFailure logErr)))
    end.

(** ** One iteration of the loop of [tick] (signalConsumer.js 811-860) *)
Definition tick_item (env : Env) (cand : Z * SignalDoc) : M unit :=
  let k := cand.1 in
  let now := now_claim env k in
  let! claimRes := signals_findOneAndUpdate k is_pending (set_claimed now) in
  match claimRes with
  | None => ret tt                      (* someone else claimed: continue *)
  | Some sig =>
      try_catch
        (if negb (Js.truthy (entry_price sig)) && negb (Js.truthy (entry sig)) then
           log (WarnSkippingNoEntry (ref_of k sig))
         else
           let type := publish_type sig in
           let! last := getPublishLog type in
           if negb (allowed type last now) then
             log (LogDeferring type (ref_of k sig)) ;;
             try_catch
               (signals_updateOne (defer_fault env k) k is_sending (set_deferred now))
               (λ e, log (ErrMarkDeferred (err_text e)))
           else
             sendSignalToPremium env k sig ;;
             log (LogSentSignal (ref_of k sig)))
        (λ err, log (ErrSendingSignal (ref_of k sig) err))
  end.

(** ** News (signalConsumer.js 740-802) *)

(** [status: { $in: ['pending', null] }] matches a missing field too. *)
Definition news_claimable (n : NewsDoc) : bool :=
  bool_decide (news_status n = pending)
  || bool_decide (news_status n = Js.Null)
  || bool_decide (news_status n = Js.Undefined).

Definition news_filter (now : Z) (n : NewsDoc) : bool :=
  news_claimable n
  && match news_expires_at n with
     | Some x => now <? x
     | None => false
     end.

(** [sort: { created_at: -1 }] *)
Definition created_ge (a b : Z * NewsDoc) : Prop :=
  date_le (created_at b.2) (created_at a.2) = true.

#[global] Instance created_ge_dec : RelDecision created_ge.
Proof. intros a b. unfold created_ge. apply _. Defined.

(** [newsCol.findOne(filter, { sort: { created_at: -1 } })] *)
Definition find_news (now : Z) (c : gmap Z NewsDoc) : option (Z * NewsDoc) :=
  head (merge_sort created_ge (find (news_filter now) c)).

Definition news_is_sending (n : NewsDoc) : bool :=
  bool_decide (news_status n = sending).

Definition sendNewsToPremium (env : Env) (k : Z) (newsItem : NewsDoc) : M unit :=
  try_catch
    (if negb (env_truthy (PREMIUM_CHANNEL_ID env)) then
       log WarnNoPremiumChannelForNews
     else
       sendMessage (telegram_news env k)
         (default EmptyString (PREMIUM_CHANNEL_ID env))
         (formatNewsMessage toLocaleString newsItem) ;;
       log (LogNewsPosted k))
    (λ err, log (ErrSendNews err) ;; throw err).

Definition publishNewsIfReady (env : Env) : M unit :=
  try_catch
    (let now := now_news env in
     let! last := getPublishLog "news" in
     if negb (news_allowed env last now) then ret tt      (* too soon *)
     else
       let! newsItem := (λ w, (Ok (find_news now (news_updates w)), w)) in
       match newsItem with
       | None => ret tt                                   (* no news available *)
       | Some (k, _) =>
           let! claimRes :=
             news_findOneAndUpdate k news_claimable (news_set_claimed now) in
           match claimRes with
           | None => ret tt                               (* someone else claimed it *)
           | Some claimed =>
               try_catch
                 (sendNewsToPremium env k claimed ;;
                  news_updateOne (news_published_fault env k) k (λ _, true)
                    (news_set_published now) ;;
                  setPublishLog (news_log_fault env k) "news" now ;;
                  log (LogNewsPublished k))
                 (λ err,
                    news_updateOne None k news_is_sending (news_set_failed now) ;;
                    throw err)
           end
       end)
    (λ err, log (ErrPublishNewsIfReady err)).

(** ** [tick] (signalConsumer.js 804-869) *)
Definition tick (env : Env) : M unit :=
  if negb (running env) then ret tt
  else
    try_catch
      (let! sigs := fetchPendingSignals env 10 in
       for_each sigs (tick_item env) ;;
       publishNewsIfReady env)
      (λ err, log (ErrTick err)) ;;
    setTimeout (NextTick (Z.max 10000 (intervalMs env))).

(** ** The single-tick handler (api/run-consumer.js 33-107)

    The per-item outcome list the handler returns. *)
Inductive Outcome : Type :=
| Skipped (k : Z) (reason : string)
| Deferred (k : Z) (reason : string)
| SentTo (k : Z) (channel : string) (mid : Z)
| Failed (k : Z) (error : string).

(** One iteration of the handler's loop; [results.push] extends the list.
    The source opens the per-item [try] twice (lines 48-49); the single
    [catch] of line 99 closes the block modelled here. *)
Definition handler_item (env : Env) (results : list Outcome) (cand : Z * SignalDoc)
    : M (list Outcome) :=
  let k := cand.1 in
  let now := now_fetch env in
  let! claimRes :=
    signals_findOneAndUpdate k is_pending (set_claimed (now_claim env k)) in
  match claimRes with
  | None => ret results
  | Some sig =>
      try_catch
        (if negb (Js.truthy (entry_price sig)) && negb (Js.truthy (entry sig)) then
           ret (results ++ [Skipped k "no entry"])
         else
           let type := publish_type sig in
           let! last := getPublishLog type in
           if negb (allowed type last now) then
             signals_updateOne (defer_fault env k) k is_sending (set_deferred now) ;;
             ret (results ++ [Deferred k "publish window not elapsed"])
           else
             let chatId := chatId_of env sig in
             if negb (env_truthy chatId) then
               ret (results ++ [Skipped k "no channel configured"])
             else
               let chat := default EmptyString chatId in
               match handler_text toFixed2 sig with
               | Throw e => throw e
               | Ok text =>
                   let! mid := sendMessage (telegram_signal env k) chat text in
                   signals_updateOne (updateOne_fault env k 0) k (λ _, true)
                     (set_active (now_sent env k) mid chat) ;;
                   setPublishLog (publish_log_fault env k) type (now_ledger env k) ;;
                   ret (results ++ [SentTo k chat mid])
               end)
        (λ err,
           log (ErrRunConsumerSignal k (err_text err)) ;;
           ret (results ++ [Failed k (err_text err)]))
  end.

Fixpoint handler_loop (env : Env) (results : list Outcome)
    (cands : list (Z * SignalDoc)) : M (list Outcome) :=
  match cands with
  | [] => ret results
  | cand :: rest =>
      let! results' := handler_item env results cand in
      handler_loop env results' rest
  end.

Definition handler (env : Env) : M (list Outcome) :=
  let! pending_batch := fetchPendingSignals env 20 in
  handler_loop env [] pending_batch.

End Consumer.

(** * Specification vocabulary *)

(** ** Lifecycle moves

    How one document may differ between two consecutive states of the
    store.  [s'] is the later state: a commit to [active] needs the
    delivered message in its outbox, a deferral needs its ledger to refuse
    the publish. *)
Inductive signal_move (s' : Snap) : option SignalDoc → option SignalDoc → Prop :=
| sm_same a : signal_move s' a a
| sm_claim d now :
    status d = pending →
    signal_move s' (Some d) (Some (set_claimed now d))
| sm_active d now mid chat body :
    status d = sending →
    mkSent chat body mid ∈ snap_outbox s' →
    signal_move s' (Some d) (Some (set_active now mid chat d))
| sm_deferred d now :
    status d = sending →
    allowed (publish_type d)
      (last_published (snap_ledger s') (publish_type d)) now = false →
    signal_move s' (Some d) (Some (set_deferred now d)).

Inductive news_move : option NewsDoc → option NewsDoc → Prop :=
| nm_same a : news_move a a
| nm_claim n now :
    news_claimable n = true →
    news_move (Some n) (Some (news_set_claimed now n))
| nm_published n now :
    news_status n = sending →
    news_move (Some n) (Some (news_set_published now n))
| nm_failed n now :
    news_status n = sending →
    news_move (Some n) (Some (news_set_failed now n)).

Definition snap_step (sg : gmap Z SignalDoc) (nw : gmap Z NewsDoc) (s' : Snap)
    : Prop :=
  (∀ k, signal_move s' (sg !! k) (snap_signals s' !! k))
  ∧ (∀ k, news_move (nw !! k) (snap_news s' !! k)).

(** Every state of the list follows from its predecessor by legal moves. *)
Fixpoint chain (sg : gmap Z SignalDoc) (nw : gmap Z NewsDoc) (l : list Snap)
    : Prop :=
  match l with
  | [] => True
  | s :: rest => snap_step sg nw s ∧ chain (snap_signals s) (snap_news s) rest
  end.

(** The collections at the end of a list of states that starts from [sg], [nw]. *)
Fixpoint chain_end (sg : gmap Z SignalDoc) (nw : gmap Z NewsDoc) (l : list Snap)
    : gmap Z SignalDoc * gmap Z NewsDoc :=
  match l with
  | [] => (sg, nw)
  | s :: rest => chain_end (snap_signals s) (snap_news s) rest
  end.

(** The states a computation adds to the journal. *)
Definition writes {A} (m : M A) (w : World) : list Snap :=
  drop (length (journal w)) (journal (m w).2).

(** A computation is lawful from [w] when the journal only grows, the
    states it adds form a chain of legal moves from the store of [w], and
    the chain ends in the store the computation leaves. *)
Definition lawful {A} (m : M A) (w : World) : Prop :=
  journal (m w).2 = journal w ++ writes m w
  ∧ chain (signals w) (news_updates w) (writes m w)
  ∧ chain_end (signals w) (news_updates w) (writes m w)
    = (signals (m w).2, news_updates (m w).2).

(** The moves of a status as the specification lists them. *)
Definition stated_move (a b : Js.value) : Prop :=
  a = b
  ∨ (a = pending ∧ b = sending)
  ∨ (a = sending ∧ b = active)
  ∨ (a = sending ∧ b = deferred).

(** The messages a computation delivers. *)
Definition sent_by {A} (m : M A) (w : World) : list Sent :=
  drop (length (outbox w)) (outbox (m w).2).

(** The cadence windows, in milliseconds. *)
Definition window (env : Env) (type : string) : Z :=
  if String.eqb type "premium" then 24 * 3600 * 1000
  else if String.eqb type "news" then newsIntervalMin env * 60 * 1000
  else 7 * 24 * 3600 * 1000.

(** ** Escaping

    Every character of the escape class stands right after a backslash. *)
Fixpoint guarded_from (prev_backslash : bool) (s : string) : bool :=
  match s with
  | EmptyString => true
  | String c r =>
      (negb (special c) || prev_backslash)
      && guarded_from (Ascii.eqb c backslash) r
  end.

Definition guarded (s : string) : Prop := guarded_from false s = true.

(** [needle] occurs in [s]. *)
Fixpoint occurs (needle s : string) : bool :=
  String.prefix needle s
  || match s with
     | EmptyString => false
     | String _ r => occurs needle r
     end.

(** ** Any sequence of consumer-loop operations

    Ticks of the long-lived consumer and runs of the single-tick handler,
    by any number of processes, each with its own environment. *)
Inductive Op : Type :=
| Tick (env : Env)
| Handle (env : Env).

Definition run_op (toLocaleString : Z → string) (toFixed2 : Js.value → string)
    (o : Op) : M unit :=
  match o with
  | Tick env => tick toLocaleString toFixed2 env
  | Handle env => handler toFixed2 env ;; ret tt
  end.

Definition run_ops (toLocaleString : Z → string) (toFixed2 : Js.value → string)
    (ops : list Op) : M unit :=
  for_each ops (run_op toLocaleString toFixed2).

(** ** Sample data

    Concrete documents, environments and worlds on which the theorems are
    instantiated. *)

Definition ex_toLocaleString (t : Z) : string := Js.toString (Js.Num t).

Definition ex_toFixed2 (v : Js.value) : string := Js.toString v +:+ ".00".

(** A premium signal as the test script inserts it, waiting to be sent. *)
Definition ex_signal : SignalDoc :=
  mkSignal Js.Undefined pending (Js.Bool true) (Some 900000000) (Some 10)
    (Js.Str "crypto") (Js.Str "LONG") (Js.Str "BTC_USDT")
    (Js.Num 73500) Js.Undefined (Js.Num 71200) Js.Undefined
    (Js.Num 76800) Js.Undefined (Js.Num 85) Js.Undefined
    (Js.Str "Momentum breakout") None None None None None [].

(** The same signal generated at [g]. *)
Definition ex_signal_at (g : Z) : SignalDoc :=
  mkSignal Js.Undefined pending (Js.Bool true) (Some 900000000) (Some g)
    (Js.Str "crypto") (Js.Str "LONG") (Js.Str "BTC_USDT")
    (Js.Num 73500) Js.Undefined (Js.Num 71200) Js.Undefined
    (Js.Num 76800) Js.Undefined (Js.Num 85) Js.Undefined
    (Js.Str "Momentum breakout") None None None None None [].

(** A signal whose payload has neither [entry_price] nor [entry]. *)
Definition ex_signal_no_entry : SignalDoc :=
  mkSignal Js.Undefined pending (Js.Bool true) (Some 900000000) (Some 10)
    (Js.Str "crypto") (Js.Str "LONG") (Js.Str "BTC_USDT")
    Js.Undefined Js.Undefined (Js.Num 71200) Js.Undefined
    (Js.Num 76800) Js.Undefined (Js.Num 85) Js.Undefined
    (Js.Str "Momentum breakout") None None None None None [].

(** A signal written without the [is_premium] field. *)
Definition ex_signal_no_tier : SignalDoc :=
  mkSignal Js.Undefined pending Js.Undefined (Some 900000000) (Some 10)
    (Js.Str "crypto") (Js.Str "LONG") (Js.Str "BTC_USDT")
    (Js.Num 73500) Js.Undefined (Js.Num 71200) Js.Undefined
    (Js.Num 76800) Js.Undefined (Js.Num 85) Js.Undefined
    (Js.Str "Momentum breakout") None None None None None [].

Definition ex_news (created : Z) : NewsDoc :=
  mkNews pending (Some 900000000) (Some created) (Js.Str "Fed holds rates")
    (Js.Str "No change this month.") (Js.Str "Newswire") Js.Undefined
    Js.Undefined None None None.

(** Nothing fails: both channels configured, the Mongo-backed [db] module,
    a clock that advances, a transport that delivers. *)
Definition ex_env : Env :=
  mkEnv (Some "-1001") (Some "-2002") None None true true
    1000 (λ k, 1000 + k) (λ k, 1100 + k) (λ k, 1200 + k) (λ k, 1300 + k) 2000
    (λ k, Ok (500 + k)) (λ k, Ok (900 + k))
    (λ _ _, None) (λ _, None) (λ _, None) (λ _, None) (λ _, None) (λ _, None).

(** [ex_env] read [dt] milliseconds later. *)
Definition ex_env_later (dt : Z) : Env :=
  mkEnv (Some "-1001") (Some "-2002") None None true true
    (1000 + dt) (λ k, 1000 + dt + k) (λ k, 1100 + dt + k) (λ k, 1200 + dt + k)
    (λ k, 1300 + dt + k) (2000 + dt)
    (λ k, Ok (500 + k)) (λ k, Ok (900 + k))
    (λ _ _, None) (λ _, None) (λ _, None) (λ _, None) (λ _, None) (λ _, None).

(** The ledger update throws. *)
Definition ex_env_ledger_down : Env :=
  mkEnv (Some "-1001") (Some "-2002") None None true true
    1000 (λ k, 1000 + k) (λ k, 1100 + k) (λ k, 1200 + k) (λ k, 1300 + k) 2000
    (λ k, Ok (500 + k)) (λ k, Ok (900 + k))
    (λ _ _, None) (λ _, None) (λ _, Some "ledger unreachable") (λ _, None)
    (λ _, None) (λ _, None).

(** Every status commit throws; [mongo] selects the [db] module and
    [insert_fault] is what its insert does. *)
Definition ex_env_commit_down (mongo : bool) (insert_fault : option string) : Env :=
  mkEnv (Some "-1001") (Some "-2002") None None mongo true
    1000 (λ k, 1000 + k) (λ k, 1100 + k) (λ k, 1200 + k) (λ k, 1300 + k) 2000
    (λ k, Ok (500 + k)) (λ k, Ok (900 + k))
    (λ _ _, Some "mongo unreachable") (λ _, None) (λ _, None) (λ _, insert_fault)
    (λ _, None) (λ _, None).

(** The transport rejects every news message. *)
Definition ex_env_news_rejected : Env :=
  mkEnv (Some "-1001") (Some "-2002") None None true true
    1000 (λ k, 1000 + k) (λ k, 1100 + k) (λ k, 1200 + k) (λ k, 1300 + k) 2000
    (λ k, Ok (500 + k)) (λ _, Throw "429 Too Many Requests")
    (λ _ _, None) (λ _, None) (λ _, None) (λ _, None) (λ _, None) (λ _, None).

Definition ex_world_of (sigs : gmap Z SignalDoc) (nws : gmap Z NewsDoc) : World :=
  mkWorld sigs nws ∅ [] [] [] [] [] [].

(** Eleven eligible signals, generated at 1, 2, ..., 11. *)
Definition ex_eleven : gmap Z SignalDoc :=
  list_to_map (map (λ i, (i, ex_signal_at i)) [1; 2; 3; 4; 5; 6; 7; 8; 9; 10; 11]).

(** ** Frames

    A computation keeps a relation between worlds when the world it leaves
    is related to the one it started from. *)
Definition keeps (R : World → World → Prop) {A} (m : M A) : Prop :=
  ∀ w, R w (m w).2.

Definition same_signal (k : Z) (w w' : World) : Prop :=
  signals w' !! k = signals w !! k.

Definition same_news (k : Z) (w w' : World) : Prop :=
  news_updates w' !! k = news_updates w !! k.

(** ** Interleaved writes

    The three writes the consumer applies to the signals collection, as
    any number of processes may issue them, one atomic store call each, in
    whatever order the store serves them. *)
Inductive Write : Type :=
| WClaim (k now : Z)
| WDefer (k now : Z)
| WCommit (k now mid : Z) (chat : string).

Definition apply_write (wr : Write) (c : gmap Z SignalDoc)
    : option SignalDoc * gmap Z SignalDoc :=
  match wr with
  | WClaim k now => claim k now c
  | WDefer k now => findOneAndUpdate k is_sending (set_deferred now) c
  | WCommit k now mid chat =>
      findOneAndUpdate k (λ _, true) (set_active now mid chat) c
  end.

(** The number of claims on [k] that return a document while [ws] is
    applied to [c]. *)
Fixpoint claims_won (k : Z) (ws : list Write) (c : gmap Z SignalDoc) : nat :=
  match ws with
  | [] => 0
  | wr :: rest =>
      let '(r, c1) := apply_write wr c in
      ((match wr, r with
        | WClaim k' _, Some _ => if bool_decide (k' = k) then 1 else 0
        | _, _ => 0
        end) + claims_won k rest c1)%nat
  end.

(** * Further parts of the program *)

(** ** The process-local cache of failed commits

    [failedUpdateCache] (signalConsumer.js 661) is a module-level [Set];
    [with_cache] is the same world holding another cache. *)
Definition with_cache (c : list Js.value) (w : World) : World :=
  mkWorld (signals w) (news_updates w) (signal_publish_log w)
    (telegram_signal_logs w) (outbox w) (console w) (timers w) c (journal w).

(** A computation is blind to the cache when running it with another
    cache gives the same result and the same world up to the cache. *)
Definition cache_blind {A} (m : M A) : Prop :=
  ∀ w c, ∃ c', m (with_cache c w) = ((m w).1, with_cache c' (m w).2).

(** A claimed signal has left ['pending']. *)
Definition settled (d : SignalDoc) : Prop :=
  status d = sending ∨ status d = deferred ∨ status d = active.

(** The [id] of an entry of the handler's result list. *)
Definition outcome_id (o : Outcome) : Z :=
  match o with
  | Skipped k _ | Deferred k _ | SentTo k _ _ | Failed k _ => k
  end.

(** ** The HTTP entry of the single-tick handler (api/run-consumer.js 7-18, 107)

    The checks that precede the tick, and the response.  Connecting, the
    candidate query and the claims are taken to succeed, as everywhere in
    [Env], so the [internal_error] response of the outer [catch] does not
    arise here. *)
Record Request : Type := mkRequest {
  req_method : string;
  header_x_admin_token : option string;   (* req.headers['x-admin-token'] *)
  query_token : option string             (* req.query.token *)
}.

Record Deployment : Type := mkDeployment {
  ADMIN_TOKEN : option string;
  MONGODB_URI : option string
}.

Inductive Response : Type :=
| Unauthorized                                   (* 401 { error: 'unauthorized' } *)
| MethodNotAllowed                               (* 405 { error: 'method not allowed' } *)
| NotConfigured                                  (* 500 { error: 'MONGODB_URI not configured' } *)
| Processed (processed : nat) (results : list Outcome).   (* 200 { ok: true, ... } *)

(** [req.headers['x-admin-token'] || req.query.token || ''] *)
Definition request_token (req : Request) : string :=
  default EmptyString
    (env_or (header_x_admin_token req) (env_or (query_token req) (Some EmptyString))).

(** Lines 11-18: the response of a request that is turned away. *)
Definition turned_away (cfg : Deployment) (req : Request) : option Response :=
  if negb (env_truthy (ADMIN_TOKEN cfg))
     || negb (bool_decide (Some (request_token req) = ADMIN_TOKEN cfg))
  then Some Unauthorized
  else if negb (String.eqb (req_method req) "POST") then Some MethodNotAllowed
  else if negb (env_truthy (MONGODB_URI cfg)) then Some NotConfigured
  else None.

Definition run_consumer (toFixed2 : Js.value → string) (cfg : Deployment)
    (env : Env) (req : Request) : M Response :=
  match turned_away cfg req with
  | Some r => ret r
  | None =>
      let! results := handler toFixed2 env in
      ret (Processed (length results) results)
  end.

(** The timers set while an item is processed are the back-off sleeps. *)
Definition is_sleep (t : Timer) : bool :=
  match t with
  | Sleep _ => true
  | NextTick _ => false
  end.

Definition only_sleeps (w w' : World) : Prop :=
  ∃ sleeps, timers w' = timers w ++ sleeps ∧ forallb is_sleep sleeps = true.

(** What keeps [sendSignalToPremium] from delivering: no channel for the
    tier, a formatter that throws, a transport that throws. *)
Definition delivery_error (toLocaleString : Z → string) (toFixed2 : Js.value → string)
    (env : Env) (k : Z) (sig : SignalDoc) : option string :=
  if negb (env_truthy (chatId_of env sig)) then Some "PREMIUM_CHANNEL_ID not set"
  else
    match formatSignalMessage toLocaleString toFixed2 sig with
    | Throw e => Some e
    | Ok _ =>
        match telegram_signal env k with
        | Throw e => Some e
        | Ok _ => None
        end
    end.

(** One store holding a single premium signal, and two of them. *)
Definition ex_one : gmap Z SignalDoc := {[ 1 := ex_signal ]}.

Definition ex_two : gmap Z SignalDoc :=
  {[ 1 := ex_signal_at 10; 2 := ex_signal_at 20 ]}.

(** The transport rejects every signal message. *)
Definition ex_env_signal_rejected : Env :=
  mkEnv (Some "-1001") (Some "-2002") None None true true
    1000 (λ k, 1000 + k) (λ k, 1100 + k) (λ k, 1200 + k) (λ k, 1300 + k) 2000
    (λ _, Throw "403 Forbidden") (λ k, Ok (900 + k))
    (λ _ _, None) (λ _, None) (λ _, None) (λ _, None) (λ _, None) (λ _, None).

(** The first two status commits throw, the third goes through. *)
Definition ex_fault_twice (attempt : nat) : option string :=
  match attempt with
  | 0%nat => Some "timeout"
  | 1%nat => Some "not primary"
  | _ => None
  end.

(** ** Markup characters left bare

    The number of occurrences of [c] in [s] that do not stand right after
    a backslash; [prev_backslash] tells whether the character before [s]
    is one. *)
Fixpoint bare (c : ascii) (prev_backslash : bool) (s : string) : nat :=
  match s with
  | EmptyString => 0
  | String x r =>
      ((if Ascii.eqb x c && negb prev_backslash then 1 else 0)
       + bare c (Ascii.eqb x backslash) r)%nat
  end.

(** Whether the text read so far ends in a backslash. *)
Fixpoint ends_backslash (prev_backslash : bool) (s : string) : bool :=
  match s with
  | EmptyString => prev_backslash
  | String x r => ends_backslash (Ascii.eqb x backslash) r
  end.

Definition star : ascii := ascii_of_nat 42.

(** The number of characters of the escape class in a text. *)
Fixpoint specials (s : string) : nat :=
  match s with
  | EmptyString => 0
  | String c r => ((if special c then 1 else 0) + specials r)%nat
  end.

(** ** [parseInt(s, 10)]

    Leading white space is skipped, then an optional sign, then the longest
    run of decimal digits is read; without a digit the result is [NaN]
    ([None]).  The value is exact here; JavaScript rounds integers beyond
    2^53 to the nearest double. *)
Definition is_digit (c : ascii) : bool :=
  ((48 <=? nat_of_ascii c) && (nat_of_ascii c <=? 57))%nat.

Definition digit_value (c : ascii) : Z := Z.of_nat (nat_of_ascii c) - 48.

(** Tab, line feed, vertical tab, form feed, carriage return, space. *)
Definition is_space (c : ascii) : bool :=
  ((9 <=? nat_of_ascii c) && (nat_of_ascii c <=? 13) || (nat_of_ascii c =? 32))%nat.

Fixpoint trim_start (s : string) : string :=
  match s with
  | String c r => if is_space c then trim_start r else s
  | EmptyString => EmptyString
  end.

(** The longest prefix of digits, and the rest. *)
Fixpoint digits (s : string) : string :=
  match s with
  | String c r => if is_digit c then String c (digits r) else EmptyString
  | EmptyString => EmptyString
  end.

Fixpoint digits_value (acc : Z) (s : string) : Z :=
  match s with
  | String c r => digits_value (acc * 10 + digit_value c) r
  | EmptyString => acc
  end.

Definition minus_sign : ascii := ascii_of_nat 45.
Definition plus_sign : ascii := ascii_of_nat 43.

Definition parseInt (s : string) : option Z :=
  let s := trim_start s in
  let '(negative, s) :=
    match s with
    | String c r =>
        if Ascii.eqb c minus_sign then (true, r)
        else if Ascii.eqb c plus_sign then (false, r)
        else (false, s)
    | EmptyString => (false, s)
    end in
  let d := digits s in
  if String.eqb d EmptyString then None
  else Some (if negative then - digits_value 0 d else digits_value 0 d).

(** *** Intervals read from the environment *)

(** [process.env.X || fallback] *)
Definition env_default (raw : option string) (fallback : string) : string :=
  default fallback (env_or raw (Some fallback)).

(** [parseInt(process.env.SIGNAL_POLL_INTERVAL_MS || '60000', 10)]
    (signalConsumer.js 729) *)
Definition poll_interval (raw : option string) : option Z :=
  parseInt (env_default raw "60000").

(** [Math.max(10000, intervalMs)] (line 867); [NaN] when [intervalMs] is. *)
Definition next_tick_delay (raw : option string) : option Z :=
  Z.max 10000 <$> poll_interval raw.

(** [parseInt(process.env.NEWS_PUBLISH_INTERVAL_MINUTES || '60', 10)]
    (line 760) *)
Definition news_interval (raw : option string) : option Z :=
  parseInt (env_default raw "60").

(** Lines 763-767 with the interval as configured: a comparison with [NaN]
    is false. *)
Definition news_allowed_raw (raw : option string) (last : option Z) (now : Z)
    : bool :=
  match last with
  | Some lastDate =>
      match news_interval raw with
      | Some m => m * 60 * 1000 <=? now - lastDate
      | None => false
      end
  | None => true
  end.

(** ** Referral codes (src/referrals.js) *)

(** One hexadecimal digit in lower case, as [buf.toString('hex')] prints it. *)
Definition hex_char (n : nat) : ascii :=
  ascii_of_nat (if (n <? 10)%nat then 48 + n else 87 + n).

Definition hex_of_byte (b : Byte.byte) : string :=
  let n := Byte.to_nat b in
  String (hex_char (n / 16)) (String (hex_char (n mod 16)) EmptyString).

(** [crypto.randomBytes(3).toString('hex').toUpperCase()] for the three
    bytes drawn. *)
Definition randomSuffix (b1 b2 b3 : Byte.byte) : string :=
  upper (hex_of_byte b1 +:+ hex_of_byte b2 +:+ hex_of_byte b3).

(** [generateReferralCode(userId)]: [`REF${userId}${randomSuffix}`] *)
Definition generateReferralCode (userId : Z) (b1 b2 b3 : Byte.byte) : string :=
  "REF" +:+ Js.toString (Js.Num userId) +:+ randomSuffix b1 b2 b3.

(** The character class [[A-F0-9]]. *)
Definition is_hex_upper (c : ascii) : bool :=
  is_digit c || ((65 <=? nat_of_ascii c) && (nat_of_ascii c <=? 70))%nat.

Fixpoint all_chars (p : ascii → bool) (s : string) : bool :=
  match s with
  | String c r => p c && all_chars p r
  | EmptyString => true
  end.

(** The text after a leading [REF]. *)
Definition after_REF (s : string) : option string :=
  match s with
  | String c1 (String c2 (String c3 rest)) =>
      if Ascii.eqb c1 "R" && Ascii.eqb c2 "E" && Ascii.eqb c3 "F"
      then Some rest else None
  | _ => None
  end.

(** [code.match(/^REF(\d+)[A-F0-9]{6}$/)]: the capture group of a match.
    The last six characters are the suffix, so the group is everything
    between [REF] and them. *)
Definition match_full_code (code : string) : option string :=
  match after_REF code with
  | Some rest =>
      let n := String.length rest in
      let d := substring 0 (n - 6) rest in
      let h := substring (n - 6) 6 rest in
      if (6 <? n)%nat && all_chars is_digit d && all_chars is_hex_upper h
      then Some d else None
  | None => None
  end.

(** [parseReferralCode(referralCode)] for a string. *)
Definition parseReferralCode (referralCode : string) : option Z :=
  match match_full_code referralCode with
  | Some d => parseInt d
  | None => None
  end.

(** [isValidReferralCode(referralCode)] *)
Definition isValidReferralCode (referralCode : string) : bool :=
  bool_decide (is_Some (match_full_code referralCode)).

(** [code.match(/^REF(\d+)/)]: the capture group is the longest run of
    digits after [REF] (db-mongo.js 102, src/db.js 237). *)
Definition match_code_prefix (code : string) : option string :=
  match after_REF code with
  | Some rest =>
      let d := digits rest in
      if String.eqb d EmptyString then None else Some d
  | None => None
  end.

(** [parseInt(match[1])] in [recordReferral]: the referrer the code is
    attributed to. *)
Definition referrer_of_code (code : string) : option Z :=
  match match_code_prefix code with
  | Some d => parseInt d
  | None => None
  end.

Definition ex_byte_1A : Byte.byte := Byte.x1a.
Definition ex_byte_A1 : Byte.byte := Byte.xa1.

(** ** The application database (db-mongo.js)

    [app_users] has a unique index on [telegram_id] and is a map keyed by
    it; [app_subscriptions] and [app_referrals] are lists in insertion
    order, every document carrying the [_id] that [insertOne] gave it. *)

(** The Telegram user object ([ctx.from]). *)
Record TelegramUser : Type := mkTelegramUser {
  tg_id : Z;
  tg_username : Js.value;
  first_name : Js.value;
  last_name : Js.value
}.

Record UserDoc : Type := mkUser {
  username : Js.value;
  display_name : Js.value;
  updated_at : Z;
  user_created_at : Z
}.

(** [message.successful_payment] *)
Record Payment : Type := mkPayment {
  invoice_payload : option string;
  telegram_payment_charge_id : Js.value
}.

Record SubscriptionDoc : Type := mkSubscription {
  subscription_id : Z;
  user_telegram_id : Z;
  plan : string;
  provider_payment_id : Js.value;
  started_at : Z;
  subscription_expires_at : Z;
  subscription_status : string;
  subscription_created_at : Z;
  subscription_updated_at : Z
}.

Record ReferralDoc : Type := mkReferral {
  referral_id : Z;
  referrer_telegram_id : Z;
  referred_telegram_id : Z;
  referral_code : string;
  rewarded : bool;
  rewarded_at : option Z;
  referral_created_at : Z
}.

Record AppDb : Type := mkAppDb {
  app_users : gmap Z UserDoc;
  app_subscriptions : list SubscriptionDoc;
  app_referrals : list ReferralDoc;
  app_console : list string      (* the errors [recordReferral] logs *)
}.

(** [findOneAndUpdate(filter, update)] on a list collection: the first
    document that matches is updated and returned. *)
Fixpoint update_first {A} (p : A → bool) (f : A → A) (l : list A)
    : option A * list A :=
  match l with
  | [] => (None, [])
  | x :: rest =>
      if p x then (Some (f x), f x :: rest)
      else let '(r, rest') := update_first p f rest in (r, x :: rest')
  end.

(** *** Users (db-mongo.js 29-45) *)

(** [[first_name, last_name].filter(Boolean).join(' ')] *)
Definition display_name_of (u : TelegramUser) : string :=
  String.concat " "
    (map Js.toString (List.filter Js.truthy [first_name u; last_name u])).

(** A string, or [null] when it is empty: [display_name || null]. *)
Definition or_null (s : string) : Js.value :=
  if String.eqb s EmptyString then Js.Null else Js.Str s.

(** [upsertUser]: [$set] on every call, [$setOnInsert] only when the
    document is created.  [now_set] and [now_insert] are the two readings
    of the clock. *)
Definition upsertUser (now_set now_insert : Z) (u : TelegramUser) (db : AppDb)
    : UserDoc * AppDb :=
  let doc :=
    mkUser (Js.or (tg_username u) Js.Null) (or_null (display_name_of u)) now_set
      (match app_users db !! tg_id u with
       | Some old => user_created_at old
       | None => now_insert
       end) in
  (doc, mkAppDb (<[tg_id u := doc]> (app_users db)) (app_subscriptions db)
          (app_referrals db) (app_console db)).

Definition getUserByTelegramId (telegramId : Z) (db : AppDb) : option UserDoc :=
  app_users db !! telegramId.

(** *** Referrals (db-mongo.js 99-146) *)

(** [recordReferral]: the store calls are [connect], the lookup of the
    referrer, the lookup of an existing referral and the insert, numbered
    0 to 3; [fault i] is the error the i-th one throws.  Whatever is
    thrown is caught, logged, and answered with [null]. *)
Definition recordReferral (fault : nat → option string) (now insertedId : Z)
    (referredTelegramId : Z) (referralCode : string) (db : AppDb)
    : option ReferralDoc * AppDb :=
  let failed e :=
    (None, mkAppDb (app_users db) (app_subscriptions db) (app_referrals db)
             (app_console db ++ [e])) in
  match fault 0%nat with
  | Some e => failed e
  | None =>
      match referrer_of_code referralCode with
      | None => (None, db)
      | Some referrerTelegramId =>
          match fault 1%nat with
          | Some e => failed e
          | None =>
              match getUserByTelegramId referrerTelegramId db with
              | None => (None, db)
              | Some _ =>
                  match fault 2%nat with
                  | Some e => failed e
                  | None =>
                      if existsb (λ r, referred_telegram_id r =? referredTelegramId)
                           (app_referrals db)
                      then (None, db)
                      else
                        match fault 3%nat with
                        | Some e => failed e
                        | None =>
                            let doc :=
                              mkReferral insertedId referrerTelegramId
                                referredTelegramId referralCode false None now in
                            (Some doc,
                             mkAppDb (app_users db) (app_subscriptions db)
                               (app_referrals db ++ [doc]) (app_console db))
                        end
                  end
              end
          end
      end
  end.

Definition getReferralByUser (referredTelegramId : Z) (db : AppDb)
    : option ReferralDoc :=
  List.find (λ r, referred_telegram_id r =? referredTelegramId) (app_referrals db).

Record ReferralStats : Type := mkReferralStats {
  total_referrals : nat;
  total_rewards : nat;
  pending_rewards : nat
}.

Definition count {A} (p : A → bool) (l : list A) : nat := length (List.filter p l).

Definition getReferralStats (telegramId : Z) (db : AppDb) : ReferralStats :=
  mkReferralStats
    (count (λ r, referrer_telegram_id r =? telegramId) (app_referrals db))
    (count (λ r, (referrer_telegram_id r =? telegramId) && rewarded r)
       (app_referrals db))
    (count (λ r, (referrer_telegram_id r =? telegramId) && negb (rewarded r))
       (app_referrals db)).

Definition set_rewarded (now : Z) (r : ReferralDoc) : ReferralDoc :=
  mkReferral (referral_id r) (referrer_telegram_id r) (referred_telegram_id r)
    (referral_code r) true (Some now) (referral_created_at r).

(** [rewardReferral]; the store call is taken to succeed. *)
Definition rewardReferral (now : Z) (referralId : Z) (db : AppDb)
    : option ReferralDoc * AppDb :=
  let '(r, refs) :=
    update_first (λ r, referral_id r =? referralId) (set_rewarded now)
      (app_referrals db) in
  (r, mkAppDb (app_users db) (app_subscriptions db) refs (app_console db)).

(** Any sequence of calls on the referral collection. *)
Inductive ReferralCall : Type :=
| CallRecord (fault : nat → option string) (now insertedId referred : Z)
    (code : string)
| CallReward (now referralId : Z).

Definition run_referral_call (c : ReferralCall) (db : AppDb) : AppDb :=
  match c with
  | CallRecord fault now insertedId referred code =>
      (recordReferral fault now insertedId referred code db).2
  | CallReward now referralId => (rewardReferral now referralId db).2
  end.

Definition run_referral_calls (cs : list ReferralCall) (db : AppDb) : AppDb :=
  foldl (λ db c, run_referral_call c db) db cs.

(** *** Subscriptions (db-mongo.js 47-97) *)

Section Subscriptions.

(** [d.setMonth(d.getMonth() + 1)] and [d.setFullYear(d.getFullYear() + 1)]
    on a copy of the date: calendar arithmetic, taken as given. *)
Variable addMonth : Z → Z.
Variable addYear : Z → Z.

(** [createSubscriptionFromPayment]; [clock i] is the i-th reading of the
    clock during the call, the store calls are taken to succeed. *)
Definition createSubscriptionFromPayment (clock : nat → Z) (insertedId : Z)
    (userInfo : TelegramUser) (payment : Payment) (db : AppDb)
    : SubscriptionDoc * AppDb :=
  let '(_, db1) := upsertUser (clock 0%nat) (clock 1%nat) userInfo db in
  let payload := env_default (invoice_payload payment) EmptyString in
  let isMonthly := occurs "monthly" payload in
  let isYearly := occurs "yearly" payload in
  let startedAt := clock 2%nat in
  let expiresAt :=
    if isMonthly then addMonth startedAt
    else if isYearly then addYear startedAt
    else addMonth startedAt in
  let doc :=
    mkSubscription insertedId (tg_id userInfo)
      (if isMonthly then "monthly" else "yearly") (* plan *)
      (Js.or (telegram_payment_charge_id payment) Js.Null)
      startedAt expiresAt "active" (clock 3%nat) (clock 4%nat) in
  (doc, mkAppDb (app_users db1) (app_subscriptions db1 ++ [doc])
          (app_referrals db1) (app_console db1)).

End Subscriptions.

(** [{ user_telegram_id, status: 'active', expires_at: { $gt: now } }] *)
Definition active_for (telegramId now : Z) (s : SubscriptionDoc) : bool :=
  (user_telegram_id s =? telegramId)
  && String.eqb (subscription_status s) "active"
  && (now <? subscription_expires_at s).

(** [sort: { expires_at: -1 }] *)
Definition expires_ge (a b : SubscriptionDoc) : Prop :=
  subscription_expires_at b ≤ subscription_expires_at a.

#[global] Instance expires_ge_dec : RelDecision expires_ge.
Proof. intros a b. unfold expires_ge. apply _. Defined.

Definition getActiveSubscription (now : Z) (telegramId : Z) (db : AppDb)
    : option SubscriptionDoc :=
  head (merge_sort expires_ge
          (List.filter (active_for telegramId now) (app_subscriptions db))).

Definition set_cancelled (now : Z) (s : SubscriptionDoc) : SubscriptionDoc :=
  mkSubscription (subscription_id s) (user_telegram_id s) (plan s)
    (provider_payment_id s) (started_at s) (subscription_expires_at s)
    "cancelled" (subscription_created_at s) now.

Definition cancelSubscription (now : Z) (subscriptionId : Z) (db : AppDb)
    : option SubscriptionDoc * AppDb :=
  let '(r, subs) :=
    update_first (λ s, subscription_id s =? subscriptionId) (set_cancelled now)
      (app_subscriptions db) in
  (r, mkAppDb (app_users db) subs (app_referrals db) (app_console db)).

(** The payloads of the three invoices the bot sends (src/bot.js,
    [sendInvoice]). *)
Inductive Invoice : Type :=
| InvoiceMonthly
| InvoiceYearly
| InvoiceEbook.

Definition invoice_payload_of (what : Invoice) (userId : Z) : string :=
  match what with
  | InvoiceMonthly => "premium_monthly_" +:+ Js.toString (Js.Num userId)
  | InvoiceYearly => "premium_yearly_" +:+ Js.toString (Js.Num userId)
  | InvoiceEbook => "ebook_" +:+ Js.toString (Js.Num userId)
  end.

(** The characters of a number's decimal form. *)
Definition is_decimal_char (c : ascii) : bool := is_digit c || Ascii.eqb c minus_sign.

Definition ex_app_db : AppDb :=
  mkAppDb {[ 123456789 := mkUser (Js.Str "alice") (Js.Str "Alice A") 5 5 ]} [] [] [].

Definition ex_subscription (id : Z) (user : Z) (expires : Z) : SubscriptionDoc :=
  mkSubscription id user "monthly" Js.Null 0 expires "active" 0 0.

Definition ex_user_bob : TelegramUser :=
  mkTelegramUser 42 (Js.Str "bob") (Js.Str "Bob") Js.Undefined.

(** Thirty days and 365 days in milliseconds, for the calendar steps. *)
Definition ex_addMonth (t : Z) : Z := t + 2592000000.

Definition ex_addYear (t : Z) : Z := t + 31536000000.

(** ** Invoices and payment payloads (payments.js)

    Arguments have the types the source documents: titles, payloads and
    user ids are strings (of ASCII characters, so that [length] counts
    them), amounts are integers; a field that may be left out is an
    [option]. *)

Record LabeledPrice : Type := mkPrice {
  price_label : string;
  price_amount : Z
}.

Record Photo : Type := mkPhoto {
  photo_url_of : option string;
  photo_size_of : option Z;
  photo_width_of : option Z;
  photo_height_of : option Z
}.

(** The argument of [createInvoicePayload], with the defaults of the
    flags already filled in. *)
Record InvoiceOptions : Type := mkInvoiceOptions {
  opt_title : option string;
  opt_description : option string;
  opt_payload : option string;
  opt_provider_token : option string;
  opt_prices : option (list LabeledPrice);
  opt_currency : option string;
  opt_photo : option Photo;
  opt_need_name : bool;
  opt_need_phone_number : bool;
  opt_need_email : bool;
  opt_need_shipping_address : bool;
  opt_send_phone_number_to_provider : bool;
  opt_send_email_to_provider : bool;
  opt_is_flexible : bool
}.

Record InvoicePayload : Type := mkInvoicePayload {
  invoice_title : string;
  invoice_description : string;
  invoice_payload_field : string;
  invoice_provider_token : string;
  invoice_currency : string;
  invoice_prices : list LabeledPrice;
  invoice_need_name : bool;
  invoice_need_phone_number : bool;
  invoice_need_email : bool;
  invoice_need_shipping_address : bool;
  invoice_send_phone_number_to_provider : bool;
  invoice_send_email_to_provider : bool;
  invoice_is_flexible : bool;
  invoice_photo_url : option string;
  invoice_photo_size : option Z;
  invoice_photo_width : option Z;
  invoice_photo_height : option Z
}.

(** [!s || s.length > n] *)
Definition missing_or_longer (s : option string) (n : nat) : bool :=
  negb (env_truthy s) || (n <? String.length (default EmptyString s))%nat.

(** The [prices.forEach] of [createInvoicePayload]: the first price that
    is refused, with its message. *)
Fixpoint check_prices (index : nat) (prices : list LabeledPrice) : option string :=
  match prices with
  | [] => None
  | p :: rest =>
      if String.eqb (price_label p) EmptyString || (price_amount p =? 0) then
        Some ("Price at index " +:+ Js.toString (Js.Num (Z.of_nat index))
              +:+ " must have label and numeric amount")
      else if price_amount p <=? 0 then
        Some ("Price amount at index " +:+ Js.toString (Js.Num (Z.of_nat index))
              +:+ " must be positive")
      else check_prices (S index) rest
  end.

(** A photo field is copied when it is truthy. *)
Definition truthy_string (s : option string) : option string :=
  if env_truthy s then s else None.

Definition truthy_number (n : option Z) : option Z :=
  match n with
  | Some k => if k =? 0 then None else Some k
  | None => None
  end.

(** [createInvoicePayload] (payments.js 24-104): the error thrown, or the
    invoice. *)
Definition createInvoicePayload (o : InvoiceOptions) : string + InvoicePayload :=
  if missing_or_longer (opt_title o) 32 then
    inl "Title is required and must be 1-32 characters"
  else if missing_or_longer (opt_description o) 255 then
    inl "Description is required and must be 1-255 characters"
  else if missing_or_longer (opt_payload o) 128 then
    inl "Payload is required and must be 1-128 bytes"
  else if negb (env_truthy (opt_provider_token o)) then
    inl "Provider token is required"
  else
    match opt_prices o with
    | None | Some [] => inl "Prices array is required and must not be empty"
    | Some prices =>
        match check_prices 0 prices with
        | Some e => inl e
        | None =>
            inr (mkInvoicePayload
                   (default EmptyString (opt_title o))
                   (default EmptyString (opt_description o))
                   (default EmptyString (opt_payload o))
                   (default EmptyString (opt_provider_token o))
                   (default "USD" (opt_currency o))
                   prices
                   (opt_need_name o) (opt_need_phone_number o) (opt_need_email o)
                   (opt_need_shipping_address o)
                   (opt_send_phone_number_to_provider o)
                   (opt_send_email_to_provider o) (opt_is_flexible o)
                   (opt_photo o ≫= λ p, truthy_string (photo_url_of p))
                   (opt_photo o ≫= λ p, truthy_number (photo_size_of p))
                   (opt_photo o ≫= λ p, truthy_number (photo_width_of p))
                   (opt_photo o ≫= λ p, truthy_number (photo_height_of p)))
        end
    end.

(** The options the two invoice builders pass: everything else is left
    to its default. *)
Definition invoice_options (title description payload : string)
    (provider_token : option string) (prices : list LabeledPrice) : InvoiceOptions :=
  mkInvoiceOptions (Some title) (Some description) (Some payload) provider_token
    (Some prices) None None false false false false false false false.

(** The names every object literal inherits: looked up in a table, they
    give a truthy value that has none of the table's fields. *)
Definition object_prototype_keys : list string :=
  [ "constructor"; "hasOwnProperty"; "isPrototypeOf"; "propertyIsEnumerable";
    "toLocaleString"; "toString"; "valueOf"; "__proto__";
    "__defineGetter__"; "__defineSetter__"; "__lookupGetter__"; "__lookupSetter__" ].

Definition inherited_key (k : string) : bool :=
  existsb (String.eqb k) object_prototype_keys.

Record Offer : Type := mkOffer {
  offer_title : string;
  offer_description : string;
  offer_price : Z
}.

(** The [plans] table of [createSubscriptionInvoice]. *)
Definition plans (plan : string) : option Offer :=
  if String.eqb plan "monthly" then
    Some (mkOffer "Premium Signals - Monthly"
            "Access to private channel with 3-5 premium crypto signals per week"
            2500)
  else if String.eqb plan "yearly" then
    Some (mkOffer "Premium Signals - Yearly"
            "Annual access with 2 months free! Private channel + premium signals"
            25000)
  else None.

(** The [products] table of [createProductInvoice]. *)
Definition products (productSku : string) : option Offer :=
  if String.eqb productSku "crypto-ebook" then
    Some (mkOffer "Crypto Trading Masterclass eBook"
            "Complete guide to crypto trading strategies and risk management"
            1900)
  else if String.eqb productSku "advanced-course" then
    Some (mkOffer "Advanced Trading Course"
            "8-week comprehensive crypto trading course with live sessions"
            9900)
  else if String.eqb productSku "one-on-one" then
    Some (mkOffer "1-on-1 Trading Consultation"
            "60-minute personal consultation with expert trader"
            19900)
  else None.

(** [plan.charAt(0).toUpperCase() + plan.slice(1)] *)
Definition capitalize (s : string) : string :=
  match s with
  | EmptyString => EmptyString
  | String c r => String (upper_ascii c) r
  end.

(** [createSubscriptionInvoice] (payments.js 112-139); [provider_token]
    is [process.env.TELEGRAM_PROVIDER_TOKEN].  An inherited name passes
    the test of the table and fails on the title it does not have. *)
Definition createSubscriptionInvoice (provider_token : option string)
    (userId plan : string) : string + InvoicePayload :=
  match plans plan with
  | Some planData =>
      createInvoicePayload
        (invoice_options (offer_title planData) (offer_description planData)
           ("premium_" +:+ plan +:+ "_" +:+ userId) provider_token
           [ mkPrice (capitalize plan +:+ " Subscription") (offer_price planData) ])
  | None =>
      if inherited_key plan then inl "Title is required and must be 1-32 characters"
      else inl ("Invalid subscription plan: " +:+ plan)
  end.

(** [createProductInvoice] (payments.js 147-179) *)
Definition createProductInvoice (provider_token : option string)
    (userId productSku : string) : string + InvoicePayload :=
  match products productSku with
  | Some product =>
      createInvoicePayload
        (invoice_options (offer_title product) (offer_description product)
           (productSku +:+ "_" +:+ userId) provider_token
           [ mkPrice (offer_title product) (offer_price product) ])
  | None =>
      if inherited_key productSku then
        inl "Title is required and must be 1-32 characters"
      else inl ("Invalid product SKU: " +:+ productSku)
  end.

(** [s.split(sep)] for a separator of one character: never empty. *)
Fixpoint split (sep : ascii) (s : string) : list string :=
  match s with
  | EmptyString => [EmptyString]
  | String c r =>
      if Ascii.eqb c sep then EmptyString :: split sep r
      else
        match split sep r with
        | part :: parts => String c part :: parts
        | [] => [String c EmptyString]
        end
  end.

Definition underscore : ascii := "_"%char.

Definition no_underscore (s : string) : bool :=
  all_chars (λ c, negb (Ascii.eqb c underscore)) s.

Inductive ParsedPayload : Type :=
| ParsedSubscription (plan userId : string)
| ParsedProduct (productSku userId : string).

(** What [parsePaymentPayload] throws, catches and logs before it answers
    [null]. *)
Inductive PayloadError : Type :=
| InvalidPayloadFormat     (* 'Invalid payload format' *)
| PayloadTypeError.        (* [payload.split] on what is not a string *)

(** [parsePaymentPayload] (payments.js 186-217) *)
Definition parsePaymentPayload (payload : Js.value) : PayloadError + ParsedPayload :=
  match payload with
  | Js.Str s =>
      let parts := split underscore s in
      if (length parts <? 2)%nat then inl InvalidPayloadFormat
      else
        let type := default EmptyString (head parts) in
        let userId := List.last parts EmptyString in
        if String.eqb type "premium" then
          inr (ParsedSubscription (nth 1 parts EmptyString) userId)
        else
          inr (ParsedProduct (String.concat "_" (removelast parts)) userId)
  | _ => inl PayloadTypeError
  end.

(** * Theorems *)

(** ** Symbolic execution of the consumer

    The proofs below run a computation of [M] on a symbolic world: the
    primitive effects are unfolded and the run is split on the value that
    blocks its head, from the outside in. *)

#[local] Arguments formatSignalMessage : simpl never.
#[local] Arguments formatNewsMessage : simpl never.
#[local] Arguments handler_text : simpl never.
#[local] Arguments allowed : simpl never.
#[local] Arguments news_allowed : simpl never.
#[local] Arguments publish_type : simpl never.
#[local] Arguments Js.truthy : simpl never.
#[local] Arguments failure_doc : simpl never.
#[local] Arguments sigId_of : simpl never.
#[local] Arguments ref_of : simpl never.
#[local] Arguments chatId_of : simpl never.
#[local] Arguments env_truthy : simpl never.
#[local] Arguments err_text : simpl never.
#[local] Arguments last_published : simpl never.
#[local] Arguments is_pending : simpl never.
#[local] Arguments is_sending : simpl never.
#[local] Arguments news_claimable : simpl never.
#[local] Arguments news_is_sending : simpl never.
#[local] Arguments find_news : simpl never.
#[local] Arguments fetch_candidates : simpl never.
#[local] Arguments Z.mul : simpl never.
#[local] Arguments Z.max : simpl never.

Lemma is_sending_claimed now d : is_sending (set_claimed now d) = true.
Proof. reflexivity. Qed.

Lemma news_is_sending_claimed now n :
  news_is_sending (news_set_claimed now n) = true.
Proof. reflexivity. Qed.

Lemma is_pending_true d : is_pending d = true ↔ status d = pending.
Proof. apply bool_decide_eq_true. Qed.

Lemma is_pending_false d : is_pending d = false ↔ status d ≠ pending.
Proof. apply bool_decide_eq_false. Qed.

(** The claim changes no field the consumer reads afterwards. *)
Lemma entry_price_claimed now d : entry_price (set_claimed now d) = entry_price d.
Proof. reflexivity. Qed.

Lemma entry_claimed now d : entry (set_claimed now d) = entry d.
Proof. reflexivity. Qed.

Lemma publish_type_claimed now d : publish_type (set_claimed now d) = publish_type d.
Proof. reflexivity. Qed.

Lemma format_claimed tls tf2 now d :
  formatSignalMessage tls tf2 (set_claimed now d) = formatSignalMessage tls tf2 d.
Proof. reflexivity. Qed.

Lemma handler_text_claimed tf2 now d :
  handler_text tf2 (set_claimed now d) = handler_text tf2 d.
Proof. reflexivity. Qed.

Create Rewrite HintDb claimed.

#[local] Hint Rewrite entry_price_claimed entry_claimed publish_type_claimed
  format_claimed handler_text_claimed : claimed.

Ltac unfold_run :=
  unfold sendSignalToPremium, sendNewsToPremium, updateSignalDocumentWithRetry,
    retry_loop, logSignalDeliveryFailure, signals_updateOne, news_updateOne,
    setPublishLog, getPublishLog, signals_findOneAndUpdate, news_findOneAndUpdate,
    sendMessage, fetchPendingSignals, findOneAndUpdate,
    log, setTimeout, try_catch, bind, ret, throw in *.

Ltac stuck t :=
  lazymatch t with
  | match ?x with _ => _ end => stuck x
  | (match ?x with _ => _ end) _ => stuck x
  | (match ?x with _ => _ end) _ _ => stuck x
  | _ => t
  end.

Ltac tidy H :=
  rewrite ?lookup_insert_eq, ?is_sending_claimed, ?news_is_sending_claimed in H;
  autorewrite with claimed in H;
  simpl in H.

Ltac step_in H :=
  lazymatch type of H with
  | (_, _) = _ => fail
  | ?lhs = _ => let x := stuck lhs in destruct x eqn:?; simpl in H
  end.

(** Run to the end, splitting on everything that is not known. *)
Ltac exec H :=
  simpl in H; repeat (tidy H; step_in H); tidy H;
  injection H as <- <-.

(** Run as far as the hypotheses in the context decide. *)
Ltac known H :=
  repeat (tidy H;
    lazymatch type of H with
    | (_, _) = _ => fail
    | ?lhs = _ =>
        let x := stuck lhs in
        match goal with
        | E : x = _ |- _ => rewrite E in H
        end
    end);
  tidy H.

(** ** Claim protocol *)

Lemma claim_pending k now c d :
  c !! k = Some d → status d = pending →
  claim k now c = (Some (set_claimed now d), <[k := set_claimed now d]> c).
Proof.
  intros Hk Hs. unfold claim, findOneAndUpdate.
  rewrite Hk. by rewrite (proj2 (is_pending_true d) Hs).
Qed.

Lemma claim_lost k now c :
  (∀ d, c !! k = Some d → status d ≠ pending) →
  claim k now c = (None, c).
Proof.
  intros H. unfold claim, findOneAndUpdate.
  destruct (c !! k) as [d|] eqn:Hk; [|done].
  by rewrite (proj2 (is_pending_false d) (H d eq_refl)).
Qed.

Lemma claim_success_iff k now c :
  is_Some (claim k now c).1 ↔ ∃ d, c !! k = Some d ∧ status d = pending.
Proof.
  unfold claim, findOneAndUpdate.
  destruct (c !! k) as [d|] eqn:Hk; simpl.
  - destruct (is_pending d) eqn:Hp; simpl; split.
    + intros _. exists d. split; [done|]. by apply is_pending_true.
    + eauto.
    + intros [? ?]; done.
    + intros (d' & [= <-] & Hs). apply is_pending_true in Hs. congruence.
  - split; [intros [? ?]; done | intros (? & ? & ?); done].
Qed.

Lemma claim_none_unchanged k now c :
  (claim k now c).1 = None → (claim k now c).2 = c.
Proof.
  unfold claim, findOneAndUpdate.
  destruct (c !! k) as [d|]; [|done]. by destruct (is_pending d).
Qed.

Lemma claim_attempts_lost k nows c :
  (∀ d, c !! k = Some d → status d ≠ pending) →
  claim_attempts k nows c = (replicate (length nows) None, c).
Proof.
  intros H. induction nows as [|now rest IH]; simpl; [done|].
  rewrite claim_lost by done. by rewrite IH.
Qed.

Lemma successes_cons r rs :
  successes (r :: rs)
  = ((match r with Some _ => 1 | None => 0 end) + successes rs)%nat.
Proof.
  unfold successes. destruct r as [d|].
  - by rewrite filter_cons_True by eauto.
  - rewrite filter_cons_False; [done|]. intros [? ?]; done.
Qed.

Lemma successes_replicate_None n : successes (replicate n None) = 0%nat.
Proof.
  induction n as [|n IH]; [done|].
  change (replicate (S n) None) with (@None SignalDoc :: replicate n None).
  by rewrite successes_cons, IH.
Qed.

Lemma claim_attempts_pending k now rest c d :
  c !! k = Some d → status d = pending →
  claim_attempts k (now :: rest) c
  = (Some (set_claimed now d) :: replicate (length rest) None,
     <[k := set_claimed now d]> c).
Proof.
  intros Hk Hs. simpl. rewrite (claim_pending _ _ _ d) by done.
  rewrite claim_attempts_lost; [done|].
  intros d'. rewrite lookup_insert_eq. intros [= <-]. done.
Qed.

(** Whatever the store holds, at most one of any number of claims on an
    item succeeds. *)
Lemma claim_attempts_at_most_one k nows c :
  (successes (claim_attempts k nows c).1 ≤ 1)%nat.
Proof.
  revert c. induction nows as [|now rest IH]; intros c; [cbv; lia|].
  destruct (c !! k) as [d|] eqn:Hk.
  - destruct (decide (status d = pending)) as [Hs|Hs].
    + rewrite (claim_attempts_pending _ _ _ _ d) by done.
      cbn [fst]. rewrite successes_cons, successes_replicate_None. simpl. lia.
    + rewrite claim_attempts_lost; [|intros d'; rewrite Hk; by intros [= <-]].
      cbn [fst]. rewrite successes_replicate_None. simpl. lia.
  - rewrite claim_attempts_lost; [|intros d'; by rewrite Hk].
    cbn [fst]. rewrite successes_replicate_None. simpl. lia.
Qed.

(** No write of the consumer makes a signal pending. *)
Lemma apply_write_not_pending wr c k :
  (∀ d, c !! k = Some d → status d ≠ pending) →
  ∀ d, (apply_write wr c).2 !! k = Some d → status d ≠ pending.
Proof.
  intros H d.
  assert (∀ k0 cond upd,
            (∀ d0, status (upd d0) ≠ pending) →
            (findOneAndUpdate k0 cond upd c).2 !! k = Some d → status d ≠ pending)
    as Hgen.
  { intros k0 cond upd Hupd. unfold findOneAndUpdate.
    destruct (c !! k0) as [d0|] eqn:Hk0; [|apply H].
    destruct (cond d0); [|apply H]. simpl.
    destruct (decide (k0 = k)) as [->|Hne].
    - rewrite lookup_insert_eq. intros [= <-]. apply Hupd.
    - rewrite lookup_insert_ne by done. apply H. }
  destruct wr as [k0 now|k0 now|k0 now mid chat]; simpl; apply Hgen; done.
Qed.

Lemma claims_won_after k ws c :
  (∀ d, c !! k = Some d → status d ≠ pending) → claims_won k ws c = 0%nat.
Proof.
  revert c. induction ws as [|wr ws IH]; intros c H; simpl; [done|].
  destruct (apply_write wr c) as [r c1] eqn:Hw.
  rewrite IH.
  2:{ pose proof (apply_write_not_pending wr c k H) as H1. by rewrite Hw in H1. }
  destruct wr as [k0 now|k0 now|k0 now mid chat]; try done.
  destruct r as [d|]; [|done]. case_bool_decide; [|done]. subst k0.
  simpl in Hw. unfold claim, findOneAndUpdate in Hw.
  destruct (c !! k) as [d0|] eqn:Hk; [|done].
  destruct (is_pending d0) eqn:Hp; [|done].
  apply is_pending_true in Hp. by destruct (H d0 eq_refl).
Qed.

(** However claims, deferrals and commits of any number of processes
    interleave, at most one claim on an item ever wins. *)
Lemma claims_won_at_most_one k ws c : (claims_won k ws c ≤ 1)%nat.
Proof.
  revert c. induction ws as [|wr ws IH]; intros c; simpl; [lia|].
  destruct (apply_write wr c) as [r c1] eqn:Hw.
  destruct wr as [k0 now|k0 now|k0 now mid chat]; try apply IH.
  destruct r as [d|]; [|apply IH]. case_bool_decide; [|apply IH]. subst k0.
  rewrite claims_won_after; [lia|].
  simpl in Hw. unfold claim, findOneAndUpdate in Hw.
  destruct (c !! k) as [d0|] eqn:Hk; [|done].
  destruct (is_pending d0); [|done]. injection Hw as <- <-.
  intros d'. rewrite lookup_insert_eq. intros [= <-]. done.
Qed.

Section Skips.

Variable tls : Z → string.
Variable tf2 : Js.value → string.

(** A consumer whose claim returns nothing goes on to the next candidate:
    no result, no log line, no message, no write. *)
Lemma tick_item_lost env k raw w :
  (claim k (now_claim env k) (signals w)).1 = None →
  tick_item tls tf2 env (k, raw) w = (Ok tt, w).
Proof.
  intros H. unfold tick_item, bind, signals_findOneAndUpdate. simpl.
  unfold claim in H.
  destruct (findOneAndUpdate k is_pending (set_claimed (now_claim env k)) (signals w))
    as [[d|] c]; simpl in *; [done|done].
Qed.

Lemma handler_item_lost env results k raw w :
  (claim k (now_claim env k) (signals w)).1 = None →
  handler_item tf2 env results (k, raw) w = (Ok results, w).
Proof.
  intros H. unfold handler_item, bind, signals_findOneAndUpdate. simpl.
  unfold claim in H.
  destruct (findOneAndUpdate k is_pending (set_claimed (now_claim env k)) (signals w))
    as [[d|] c]; simpl in *; [done|done].
Qed.

End Skips.



(** ** Validation failure *)

Section Validation.

Variable tls : Z → string.
Variable tf2 : Js.value → string.

(** C7.  A claimed signal whose [entry_price] and [entry] are both missing
    (or otherwise falsy) is only logged: the iteration of [tick] leaves the
    world as the claim left it, plus one warning line.  The ledger is not
    consulted (the outcome is the same for every ledger), nothing is
    formatted or sent, and the item keeps the status ['sending'] of its
    claim.  The single-tick handler does the same and reports the item as
    skipped for want of an entry. *)
Theorem C7_no_entry_left_sending env w k raw d :
  signals w !! k = Some d → status d = pending →
  Js.truthy (entry_price d) = false → Js.truthy (entry d) = false →
  let claimed := set_claimed (now_claim env k) d in
  let w1 := put_signals (<[k := claimed]> (signals w)) w in
  tick_item tls tf2 env (k, raw) w
    = (Ok tt, add_log (WarnSkippingNoEntry (ref_of k claimed)) w1)
  ∧ (∀ results, handler_item tf2 env results (k, raw) w
                = (Ok (results ++ [Skipped k "no entry"]), w1))
  ∧ signals w1 !! k = Some claimed
  ∧ status claimed = sending
  ∧ outbox w1 = outbox w
  ∧ signal_publish_log w1 = signal_publish_log w
  ∧ telegram_signal_logs w1 = telegram_signal_logs w.
Proof.
  intros Hk Hs He1 He2 claimed w1.
  assert (is_pending d = true) as Hp by by apply is_pending_true.
  repeat split.
  - unfold tick_item, bind, signals_findOneAndUpdate, try_catch, findOneAndUpdate.
    simpl. rewrite Hk, Hp. simpl.
    change (entry_price (set_claimed (now_claim env k) d)) with (entry_price d).
    change (entry (set_claimed (now_claim env k) d)) with (entry d).
    by rewrite He1, He2.
  - intros results.
    unfold handler_item, bind, signals_findOneAndUpdate, try_catch, findOneAndUpdate.
    simpl. rewrite Hk, Hp. simpl.
    change (entry_price (set_claimed (now_claim env k) d)) with (entry_price d).
    change (entry (set_claimed (now_claim env k) d)) with (entry d).
    by rewrite He1, He2.
  - apply lookup_insert_eq.
Qed.

End Validation.

Lemma C7_no_entry_left_sending_witness :
  status <$> signals
    (tick_item ex_toLocaleString ex_toFixed2 ex_env (1, ex_signal_no_entry)
       (ex_world_of {[ 1 := ex_signal_no_entry ]} ∅)).2 !! 1
  = Some sending.
Proof.
  destruct (C7_no_entry_left_sending ex_toLocaleString ex_toFixed2 ex_env
              (ex_world_of {[ 1 := ex_signal_no_entry ]} ∅) 1 ex_signal_no_entry
              ex_signal_no_entry (lookup_singleton_eq _ _) eq_refl eq_refl eq_refl)
    as (Htick & _ & Hk & Hs & _).
  rewrite Htick. cbn [snd]. change (signals (add_log ?l ?w)) with (signals w).
  rewrite Hk. reflexivity.
Defined.

(** ** News *)

Lemma find_elem {D} (cond : D → bool) (c : gmap Z D) k d :
  (k, d) ∈ find cond c ↔ c !! k = Some d ∧ cond d = true.
Proof.
  unfold find. rewrite list_elem_of_filter, elem_of_map_to_list. simpl. tauto.
Qed.

Lemma find_news_elem now c k n :
  find_news now c = Some (k, n) → c !! k = Some n ∧ news_filter now n = true.
Proof.
  unfold find_news. intros H. apply head_Some_elem_of in H.
  rewrite merge_sort_Permutation in H. by apply find_elem in H.
Qed.

Section News.

Variable tls : Z → string.
Variable tf2 : Js.value → string.

(** Whatever happens inside, a running [tick] completes without an
    exception and schedules the next one. *)
Lemma tick_completes env w :
  running env = true →
  ∃ w1, tick tls tf2 env w
        = (Ok tt, add_timer (NextTick (Z.max 10000 (intervalMs env))) w1).
Proof.
  intros Hr. unfold tick. rewrite Hr. simpl.
  unfold bind at 1, try_catch, setTimeout, log.
  destruct (bind (fetchPendingSignals env 10) _ w) as [[[]|e] w1]; eauto.
Qed.

(** C10.  When the send of a claimed news item fails, the item goes back
    from ['sending'] to ['pending'] with [failed_at] set, so that the claim
    filter and, until it expires, the candidate query accept it again; the
    error is logged, nothing is delivered, the ledger is untouched, and the
    tick runs on to its end and reschedules. *)
Theorem C10_news_send_failure_reverts env w k n e :
  news_allowed env (last_published (signal_publish_log w) "news") (now_news env) = true →
  find_news (now_news env) (news_updates w) = Some (k, n) →
  env_truthy (PREMIUM_CHANNEL_ID env) = true →
  telegram_news env k = Throw e →
  let now := now_news env in
  let reverted := news_set_failed now (news_set_claimed now n) in
  let w' := (publishNewsIfReady tls env w).2 in
  (publishNewsIfReady tls env w).1 = Ok tt
  ∧ news_updates w' = <[k := reverted]> (news_updates w)
  ∧ news_status reverted = pending
  ∧ failed_at reverted = Some now
  ∧ news_claimable reverted = true
  ∧ (∀ later, news_filter now n = true → later ≤ now →
       news_filter later reverted = true)
  ∧ (∀ later x, news_expires_at n = Some x → later < x →
       news_filter later reverted = true)
  ∧ console w' = console w ++ [ErrSendNews e; ErrPublishNewsIfReady e]
  ∧ outbox w' = outbox w
  ∧ signal_publish_log w' = signal_publish_log w
  ∧ signals w' = signals w
  ∧ (running env = true →
       ∀ w0, ∃ w1, tick tls tf2 env w0
                   = (Ok tt, add_timer (NextTick (Z.max 10000 (intervalMs env))) w1)).
Proof.
  intros Hallowed Hfind Hchan Hsend now reverted w'.
  destruct (find_news_elem _ _ _ _ Hfind) as [Hk Hf].
  assert (news_claimable n = true) as Hc.
  { unfold news_filter in Hf. by apply andb_prop in Hf as [? _]. }
  assert (publishNewsIfReady tls env w
          = (Ok tt,
             add_log (ErrPublishNewsIfReady e)
               (put_news (<[k := reverted]> (<[k := news_set_claimed now n]> (news_updates w)))
                  (add_log (ErrSendNews e)
                     (put_news (<[k := news_set_claimed now n]> (news_updates w)) w)))))
    as Hrun.
  { unfold publishNewsIfReady. unfold_run. simpl.
    rewrite Hallowed. simpl. rewrite Hfind. simpl. rewrite Hk, Hc. simpl.
    rewrite Hchan. simpl. rewrite Hsend. simpl.
    rewrite lookup_insert_eq. rewrite news_is_sending_claimed. reflexivity. }
  subst w'. rewrite Hrun. simpl. repeat split.
  - by rewrite insert_insert_eq.
  - intros later Hf' Hle. unfold news_filter in *. simpl.
    apply andb_prop in Hf' as [_ Hx].
    destruct (news_expires_at n) as [x|]; [|done].
    apply Z.ltb_lt in Hx. apply Z.ltb_lt. lia.
  - intros later x Hx Hlt. unfold news_filter. simpl. rewrite Hx.
    by apply Z.ltb_lt.
  - by rewrite <- app_assoc.
  - intros Hr w0. by apply tick_completes.
Qed.

End News.

Lemma C10_news_send_failure_reverts_witness :
  news_status <$>
    news_updates
      (publishNewsIfReady ex_toLocaleString ex_env_news_rejected
         (ex_world_of ∅ {[ 7 := ex_news 5 ]})).2 !! 7
  = Some pending.
Proof.
  destruct (C10_news_send_failure_reverts ex_toLocaleString ex_toFixed2
              ex_env_news_rejected (ex_world_of ∅ {[ 7 := ex_news 5 ]}) 7 (ex_news 5)
              "429 Too Many Requests")
    as (_ & Hnews & _); [vm_compute; reflexivity ..|].
  rewrite Hnews. rewrite lookup_insert_eq. reflexivity.
Defined.

(** ** Cadence ledger *)

Lemma publish_type_cases d :
  publish_type d = "premium" ∨ publish_type d = "free".
Proof. unfold publish_type. destruct (Js.truthy (is_premium d)); auto. Qed.

Lemma allowed_spec env type last now :
  type = "premium" ∨ type = "free" →
  allowed type last now = true
  ↔ last = None ∨ ∃ t, last = Some t ∧ window env type ≤ now - t.
Proof.
  intros Ht. unfold allowed, window.
  destruct last as [t|].
  - destruct Ht as [-> | ->]; simpl; rewrite Z.leb_le; split.
    + intros H. right. exists t. split; [done|lia].
    + intros [H|(t' & [= <-] & H)]; [done|lia].
    + intros H. right. exists t. split; [done|lia].
    + intros [H|(t' & [= <-] & H)]; [done|lia].
  - split; auto.
Qed.

Lemma news_allowed_spec env last now :
  news_allowed env last now = true
  ↔ last = None ∨ ∃ t, last = Some t ∧ window env "news" ≤ now - t.
Proof.
  unfold news_allowed, window. simpl.
  destruct last as [t|].
  - rewrite Z.leb_le; split.
    + intros H. right. exists t. split; [done|lia].
    + intros [H|(t' & [= <-] & H)]; [done|lia].
  - split; auto.
Qed.

Lemma allowed_too_soon env type t now :
  type = "premium" ∨ type = "free" →
  now < t + window env type → allowed type (Some t) now = false.
Proof.
  intros Ht Hlt. destruct (allowed type (Some t) now) eqn:H; [|done].
  apply (allowed_spec env) in H as [H|(t' & [= <-] & H)]; [done|lia|done].
Qed.

Lemma news_allowed_too_soon env t now :
  now < t + window env "news" → news_allowed env (Some t) now = false.
Proof.
  intros Hlt. destruct (news_allowed env (Some t) now) eqn:H; [|done].
  apply news_allowed_spec in H as [H|(t' & [= <-] & H)]; [done|lia].
Qed.

Lemma last_published_insert ledger type when :
  last_published (<[type := Some when]> ledger) type = Some when.
Proof. unfold last_published. by rewrite lookup_insert_eq. Qed.

Section Cadence.

Variable tls : Z → string.
Variable tf2 : Js.value → string.

(** Inside the window nothing is sent for the category. *)
Lemma tick_item_too_soon env w k raw d t :
  signals w !! k = Some d →
  last_published (signal_publish_log w) (publish_type d) = Some t →
  now_claim env k < t + window env (publish_type d) →
  outbox (tick_item tls tf2 env (k, raw) w).2 = outbox w.
Proof.
  intros Hk Hl Hlt.
  pose proof (allowed_too_soon env _ _ _ (publish_type_cases d) Hlt) as Hno.
  destruct (tick_item tls tf2 env (k, raw) w) as [r w'] eqn:H.
  unfold tick_item in H. unfold_run. simpl in H. rewrite Hk in H.
  change (publish_type (set_claimed ?n d)) with (publish_type d) in H.
  destruct (is_pending d); simpl in H.
  - destruct (negb (Js.truthy (entry_price d)) && negb (Js.truthy (entry d)));
      simpl in H.
    + by injection H as <- <-.
    + change (publish_type (set_claimed ?n d)) with (publish_type d) in H.
      rewrite Hl, Hno in H. simpl in H.
      exec H; done.
  - by injection H as <- <-.
Qed.

Lemma handler_item_too_soon env results w k raw d t :
  signals w !! k = Some d →
  last_published (signal_publish_log w) (publish_type d) = Some t →
  now_fetch env < t + window env (publish_type d) →
  outbox (handler_item tf2 env results (k, raw) w).2 = outbox w.
Proof.
  intros Hk Hl Hlt.
  pose proof (allowed_too_soon env _ _ _ (publish_type_cases d) Hlt) as Hno.
  destruct (handler_item tf2 env results (k, raw) w) as [r w'] eqn:H.
  unfold handler_item in H. unfold_run. simpl in H. rewrite Hk in H.
  destruct (is_pending d); simpl in H.
  - change (entry_price (set_claimed ?n d)) with (entry_price d) in H.
    change (entry (set_claimed ?n d)) with (entry d) in H.
    destruct (negb (Js.truthy (entry_price d)) && negb (Js.truthy (entry d)));
      simpl in H.
    + by injection H as <- <-.
    + change (publish_type (set_claimed ?n d)) with (publish_type d) in H.
      rewrite Hl, Hno in H. simpl in H.
      exec H; done.
  - by injection H as <- <-.
Qed.

Lemma publishNews_too_soon env w t :
  last_published (signal_publish_log w) "news" = Some t →
  now_news env < t + window env "news" →
  publishNewsIfReady tls env w = (Ok tt, w).
Proof.
  intros Hl Hlt. unfold publishNewsIfReady. unfold_run. simpl.
  by rewrite Hl, (news_allowed_too_soon env) by done.
Qed.

(** One iteration delivers at most one message; when it delivers one and
    neither the status commit nor the ledger update fails, the ledger holds
    the time of the send. *)
Lemma tick_item_outcome env w k raw :
  let w' := (tick_item tls tf2 env (k, raw) w).2 in
  (∀ k', is_premium <$> signals w' !! k' = is_premium <$> signals w !! k')
  ∧ (outbox w' = outbox w
     ∨ ∃ m d, outbox w' = outbox w ++ [m]
         ∧ signals w !! k = Some d
         ∧ ((∃ i, (i < 3)%nat ∧ updateOne_fault env k i = None) →
            publish_log_fault env k = None →
            last_published (signal_publish_log w') (publish_type d)
            = Some (now_sent env k))).
Proof.
  intros w'. subst w'.
  destruct (tick_item tls tf2 env (k, raw) w) as [r w'] eqn:H.
  unfold tick_item in H. unfold_run.
  exec H; simpl; (split; [intros k'|]).
  all: try (destruct (decide (k = k')) as [<-|Hne];
            [ rewrite ?lookup_insert_eq;
              match goal with E : signals _ !! _ = Some _ |- _ => by rewrite E end
            | by rewrite ?lookup_insert_ne by done ]).
  all: try done.
  all: try (by left).
  all: right; eexists _, _; (split; [reflexivity|]); (split; [reflexivity|]).
  all: intros (i & Hi & Hf) Hp.
  all: try congruence.
  all: try (change (publish_type (set_claimed ?n ?d)) with (publish_type d);
            by rewrite last_published_insert).
  all: destruct i as [|[|[|i]]]; try lia; congruence.
Qed.

Lemma publishNews_outcome env w :
  let w' := (publishNewsIfReady tls env w).2 in
  outbox w' = outbox w
  ∨ ∃ m k, outbox w' = outbox w ++ [m]
      ∧ (news_published_fault env k = None → news_log_fault env k = None →
         last_published (signal_publish_log w') "news" = Some (now_news env)).
Proof.
  intros w'. subst w'.
  destruct (publishNewsIfReady tls env w) as [r w'] eqn:H.
  unfold publishNewsIfReady in H. unfold_run.
  simpl in H.
  destruct (negb (news_allowed env (last_published (signal_publish_log w) "news")
                    (now_news env))); simpl in H; [injection H as <- <-; by left|].
  destruct (find_news (now_news env) (news_updates w)) as [[k n]|]; simpl in H;
    [|injection H as <- <-; by left].
  exec H; simpl; try (by left).
  all: right; eexists _, k; (split; [reflexivity|]).
  all: intros Hp Hl; try congruence.
  all: by rewrite last_published_insert.
Qed.

End Cadence.

Lemma sent_by_app {A} (m : M A) w l :
  outbox (m w).2 = outbox w ++ l → sent_by m w = l.
Proof. intros H. unfold sent_by. rewrite H. apply drop_app_length. Qed.

Lemma sent_by_none {A} (m : M A) w :
  outbox (m w).2 = outbox w → sent_by m w = [].
Proof. intros H. apply sent_by_app. by rewrite app_nil_r. Qed.

Lemma bind_snd {A B} (m : M A) (k : A → M B) w a w1 :
  m w = (Ok a, w1) → (bind m k w).2 = (k a w1).2.
Proof. intros H. unfold bind. by rewrite H. Qed.

Section TwoAttempts.

Variable tls : Z → string.
Variable tf2 : Js.value → string.

Lemma tick_item_ok env cand w : (tick_item tls tf2 env cand w).1 = Ok tt.
Proof.
  destruct cand as [k raw].
  destruct (tick_item tls tf2 env (k, raw) w) as [r w'] eqn:H.
  unfold tick_item in H. unfold_run.
  simpl in H. destruct (signals w !! k) as [d|]; simpl in H.
  - destruct (is_pending d); simpl in H.
    + match type of H with
      | (let (r0, w1) := ?body in _) = _ => destruct body as [[[]|e] w1]
      end; by injection H as <- <-.
    + by injection H as <- <-.
  - by injection H as <- <-.
Qed.

Lemma publishNews_ok env w : (publishNewsIfReady tls env w).1 = Ok tt.
Proof.
  unfold publishNewsIfReady. unfold try_catch at 1.
  match goal with
  | |- (match ?body with _ => _ end).1 = _ => destruct body as [[[]|e] w1]
  end; done.
Qed.

Lemma two_signals_one_send env1 env2 w k1 k2 raw1 raw2 d1 d2 :
  signals w !! k1 = Some d1 → signals w !! k2 = Some d2 →
  publish_type d1 = publish_type d2 →
  now_claim env1 k1 ≤ now_sent env1 k1 →
  now_claim env2 k2 < now_claim env1 k1 + window env2 (publish_type d2) →
  (∃ i, (i < 3)%nat ∧ updateOne_fault env1 k1 i = None) →
  publish_log_fault env1 k1 = None →
  (length (sent_by (tick_item tls tf2 env1 (k1, raw1) ;;
                    tick_item tls tf2 env2 (k2, raw2)) w) ≤ 1)%nat.
Proof.
  intros Hk1 Hk2 Hty Hclock Hnear Hcommit Hledger.
  destruct (tick_item tls tf2 env1 (k1, raw1) w) as [r1 w1] eqn:H1.
  pose proof (tick_item_ok env1 (k1, raw1) w) as Hok. rewrite H1 in Hok.
  simpl in Hok. subst r1.
  pose proof (tick_item_outcome tls tf2 env1 w k1 raw1) as [Hprem Hout].
  rewrite H1 in Hprem, Hout. simpl in Hprem, Hout.
  pose proof (tick_item_outcome tls tf2 env2 w1 k2 raw2) as [_ Hout2].
  simpl in Hout2.
  assert (∃ d2', signals w1 !! k2 = Some d2' ∧ publish_type d2' = publish_type d2)
    as (d2' & Hk2' & Hty2).
  { specialize (Hprem k2). rewrite Hk2 in Hprem.
    destruct (signals w1 !! k2) as [d2'|]; [|done].
    exists d2'. split; [done|]. injection Hprem as Hp. unfold publish_type.
    by rewrite Hp. }
  rewrite (sent_by_app _ _
             (drop (length (outbox w)) (outbox (tick_item tls tf2 env2 (k2, raw2) w1).2))).
  2:{ rewrite (bind_snd _ _ _ _ _ H1).
      destruct Hout as [Ho|(m & d & Ho & _)];
        destruct Hout2 as [Ho2|(m2 & d' & Ho2 & _)];
        rewrite Ho2, Ho; rewrite ?drop_app_length, <- ?app_assoc;
        rewrite ?drop_app_length, ?drop_all, ?app_nil_r; done. }
  destruct Hout as [Ho|(m & d & Ho & Hd & Hl)].
  - destruct Hout2 as [Ho2|(m2 & d' & Ho2 & _)]; rewrite Ho2, Ho.
    + rewrite drop_all. simpl. lia.
    + rewrite drop_app_length. simpl. lia.
  - rewrite Hk1 in Hd. injection Hd as <-.
    specialize (Hl Hcommit Hledger).
    rewrite (tick_item_too_soon tls tf2 env2 w1 k2 raw2 d2' (now_sent env1 k1)).
    + rewrite Ho, drop_app_length. simpl. lia.
    + done.
    + by rewrite Hty2, <- Hty.
    + rewrite Hty2. lia.
Qed.

Lemma two_news_one_send env1 env2 w :
  (∀ k, news_published_fault env1 k = None ∧ news_log_fault env1 k = None) →
  now_news env2 < now_news env1 + window env2 "news" →
  (length (sent_by (publishNewsIfReady tls env1 ;; publishNewsIfReady tls env2) w)
   ≤ 1)%nat.
Proof.
  intros Hfaults Hnear.
  destruct (publishNewsIfReady tls env1 w) as [r1 w1] eqn:H1.
  pose proof (publishNews_ok env1 w) as Hok. rewrite H1 in Hok.
  simpl in Hok. subst r1.
  pose proof (publishNews_outcome tls env1 w) as Hout.
  rewrite H1 in Hout. simpl in Hout.
  pose proof (publishNews_outcome tls env2 w1) as Hout2. simpl in Hout2.
  rewrite (sent_by_app _ _
             (drop (length (outbox w)) (outbox (publishNewsIfReady tls env2 w1).2))).
  2:{ rewrite (bind_snd _ _ _ _ _ H1).
      destruct Hout as [Ho|(m & k & Ho & _)];
        destruct Hout2 as [Ho2|(m2 & k' & Ho2 & _)];
        rewrite Ho2, Ho; rewrite ?drop_app_length, <- ?app_assoc;
        rewrite ?drop_app_length, ?drop_all, ?app_nil_r; done. }
  destruct Hout as [Ho|(m & k & Ho & Hl)].
  - destruct Hout2 as [Ho2|(m2 & k' & Ho2 & _)]; rewrite Ho2, Ho.
    + rewrite drop_all. simpl. lia.
    + rewrite drop_app_length. simpl. lia.
  - destruct (Hfaults k) as [Hp Hg]. specialize (Hl Hp Hg).
    rewrite (publishNews_too_soon tls env2 w1 (now_news env1)); [|done|lia].
    simpl. rewrite Ho, drop_app_length. simpl. lia.
Qed.

End TwoAttempts.




(** ** Delivery reconciler *)

(** The retry loop always comes to a result: started with a positive
    [maxRetries] it returns [true] or throws, and never falls out of the
    [while] for lack of fuel. *)
Lemma retry_loop_returns fuel fault k upd maxRetries attempt backoff w :
  (fuel + attempt = maxRetries)%nat → (0 < fuel)%nat →
  (∃ w', retry_loop fuel fault k upd maxRetries attempt backoff w = (Ok (Some true), w'))
  ∨ (∃ e w', retry_loop fuel fault k upd maxRetries attempt backoff w = (Throw e, w')).
Proof.
  revert attempt backoff w.
  induction fuel as [|fuel IH]; intros attempt backoff w Hsum Hpos; [lia|].
  cbn [retry_loop].
  assert ((attempt <? maxRetries)%nat = true) as -> by (apply Nat.ltb_lt; lia).
  unfold try_catch, signals_updateOne.
  destruct (fault attempt) as [e|].
  - unfold throw, bind, log. simpl.
    destruct (maxRetries <=? S attempt)%nat eqn:Hlast.
    + right. eauto.
    + apply Nat.leb_gt in Hlast. unfold setTimeout. apply IH; lia.
  - left. unfold bind, ret, signals_findOneAndUpdate.
    destruct (findOneAndUpdate k (λ _, true) upd (signals w)) as [[d|] c]; eauto.
Qed.

Lemma updateSignalDocumentWithRetry_returns fault k upd n w :
  (∃ w', updateSignalDocumentWithRetry fault k upd (S n) w = (Ok (Some true), w'))
  ∨ (∃ e w', updateSignalDocumentWithRetry fault k upd (S n) w = (Throw e, w')).
Proof. unfold updateSignalDocumentWithRetry. apply retry_loop_returns; lia. Qed.

Section Reconciler.

Variable tls : Z → string.
Variable tf2 : Js.value → string.

(** C4 (as amended).  When the send of a claimed signal succeeds and the
    status commit throws on each of its three attempts (with sleeps of one
    and two seconds between them), the consumer calls the failure logger
    with the item id and the transport message id.  If that call succeeds
    the record is appended to the failure log; if the call itself fails
    (the insert throws, or the [db] module has no such function) the error
    goes to the console and no record is written.  In both cases the item
    keeps the status ['sending'] of its claim, the ledger is not updated
    and the message stays delivered once. *)
Theorem C4_commit_exhausted env w k raw d mid body e0 e1 e2 :
  signals w !! k = Some d → status d = pending →
  Js.truthy (entry_price d) || Js.truthy (entry d) = true →
  allowed (publish_type d)
    (last_published (signal_publish_log w) (publish_type d)) (now_claim env k) = true →
  env_truthy (chatId_of env d) = true →
  formatSignalMessage tls tf2 d = Ok body →
  telegram_signal env k = Ok mid →
  updateOne_fault env k 0 = Some e0 →
  updateOne_fault env k 1 = Some e1 →
  updateOne_fault env k 2 = Some e2 →
  let claimed := set_claimed (now_claim env k) d in
  let chat := default EmptyString (chatId_of env d) in
  let record :=
    failure_doc (sigId_of k d) mid chat (err_text e2) k claimed (now_log env k) in
  let w' := (tick_item tls tf2 env (k, raw) w).2 in
  sent_by (tick_item tls tf2 env (k, raw)) w = [mkSent chat body mid]
  ∧ timers w' = timers w ++ [Sleep 1000; Sleep 2000]
  ∧ firstn 4 (drop (length (console w)) (console w'))
    = [ErrUpdateAttempt 1 e0; ErrUpdateAttempt 2 e1; ErrUpdateAttempt 3 e2;
       ErrUpdateAfterRetries (sigId_of k d) e2]
  ∧ signals w' !! k = Some claimed
  ∧ status claimed = sending
  ∧ signal_publish_log w' = signal_publish_log w
  ∧ sigId_of k d ∈ failedUpdateCache w'
  ∧ (USE_MONGO_DB env = true → insert_log_fault env k = None →
       telegram_signal_logs w' = telegram_signal_logs w ++ [record])
  ∧ (Js.truthy (sigId_of k d) = true →
       signal_id record = Some (Js.toString (sigId_of k d)))
  ∧ (mid ≠ 0 → telegram_message_id record = Some mid)
  ∧ (USE_MONGO_DB env = false ∨ insert_log_fault env k ≠ None →
       telegram_signal_logs w' = telegram_signal_logs w
       ∧ ∃ msg, ErrLogDeliveryFailure msg ∈ console w').
Proof.
  intros Hk Hs Hentry Hallowed Hchat Hfmt Hsend Hf0 Hf1 Hf2 claimed chat record w'.
  assert (is_pending d = true) as Hp by by apply is_pending_true.
  assert (negb (Js.truthy (entry_price d)) && negb (Js.truthy (entry d)) = false)
    as Hentry'.
  { destruct (Js.truthy (entry_price d)), (Js.truthy (entry d)); done. }
  assert (negb (allowed (publish_type d)
                  (last_published (signal_publish_log w) (publish_type d))
                  (now_claim env k)) = false) as Hallowed'
    by by rewrite Hallowed.
  assert (negb (env_truthy (chatId_of env (set_claimed (now_claim env k) d))) = false)
    as Hchat'.
  { change (chatId_of env (set_claimed (now_claim env k) d)) with (chatId_of env d).
    by rewrite Hchat. }
  subst w'. unfold sent_by.
  destruct (tick_item tls tf2 env (k, raw) w) as [r w'] eqn:H.
  unfold tick_item in H. unfold_run.
  simpl in H. known H.
  change (chatId_of env (set_claimed (now_claim env k) d)) with (chatId_of env d) in H.
  change (sigId_of k (set_claimed (now_claim env k) d)) with (sigId_of k d) in H.
  fold claimed chat in H.
  assert (∀ l : list Js.value, sigId_of k d ∈
            (if bool_decide (sigId_of k d ∈ l) then l else l ++ [sigId_of k d]))
    as Hcache.
  { intros l. case_bool_decide; [done|]. apply elem_of_app. right. constructor. }
  assert (Js.truthy (sigId_of k d) = true →
          signal_id record = Some (Js.toString (sigId_of k d))) as Hrec1.
  { intros Ht. subst record. unfold failure_doc. simpl. by rewrite Ht. }
  assert (mid ≠ 0 → telegram_message_id record = Some mid) as Hrec2.
  { intros Hm. subst record. unfold failure_doc. simpl.
    by rewrite (proj2 (Z.eqb_neq mid 0) Hm). }
  exec H; simpl; rewrite ?drop_app_length.
  all: repeat apply conj; try done.
  all: try (rewrite <- app_assoc; reflexivity).
  all: try apply lookup_insert_eq.
  all: try (rewrite <- !app_assoc; rewrite drop_app_length; reflexivity).
  - intros _. split; [done|]. exists s. set_solver.
  - intros [?|?]; done.
  - intros _. split; [done|].
    exists "db.logSignalDeliveryFailure is not a function". set_solver.
Qed.

End Reconciler.

(** Commit exhausted, Mongo-backed [db], insert succeeds: the record holds
    the stringified [_id] and the message id. *)
Lemma C4_commit_exhausted_witness :
  let w' := (tick_item ex_toLocaleString ex_toFixed2 (ex_env_commit_down true None)
               (1, ex_signal) (ex_world_of {[ 1 := ex_signal ]} ∅)).2 in
  map (λ r, (signal_id r, telegram_message_id r)) (telegram_signal_logs w')
  = [(Some "1", Some 501)].
Proof.
  destruct (C4_commit_exhausted ex_toLocaleString ex_toFixed2
              (ex_env_commit_down true None) (ex_world_of {[ 1 := ex_signal ]} ∅)
              1 ex_signal ex_signal 501
              (match formatSignalMessage ex_toLocaleString ex_toFixed2 ex_signal with
               | Ok body => body
               | Throw _ => EmptyString
               end)
              "mongo unreachable" "mongo unreachable" "mongo unreachable")
    as (_ & _ & _ & _ & _ & _ & _ & Hlog & _); [vm_compute; reflexivity ..|].
  cbv zeta. rewrite Hlog by reflexivity. vm_compute. reflexivity.
Defined.

(** The claim as stated fails when the failure log cannot be written
    either: the send went out, the three commits threw, the insert threw,
    and [telegram_signal_logs] stays empty; only the console knows. *)
Lemma C4_counterexample :
  let env := ex_env_commit_down true (Some "mongo unreachable") in
  let w' := (tick_item ex_toLocaleString ex_toFixed2 env (1, ex_signal)
               (ex_world_of {[ 1 := ex_signal ]} ∅)).2 in
  map message_id (outbox w') = [501]
  ∧ timers w' = [Sleep 1000; Sleep 2000]
  ∧ telegram_signal_logs w' = []
  ∧ status <$> signals w' !! 1 = Some sending
  ∧ console w'
    = [ErrUpdateAttempt 1 "mongo unreachable"; ErrUpdateAttempt 2 "mongo unreachable";
       ErrUpdateAttempt 3 "mongo unreachable";
       ErrUpdateAfterRetries (Js.Str "1") "mongo unreachable";
       ErrLogDeliveryFailure "mongo unreachable"; LogSentSignal (ByOid 1)].
Proof. vm_compute. repeat split. Qed.

(** ** Lifecycle *)

Lemma chain_app sg nw l1 l2 :
  chain sg nw l1 →
  chain (chain_end sg nw l1).1 (chain_end sg nw l1).2 l2 →
  chain sg nw (l1 ++ l2).
Proof.
  revert sg nw. induction l1 as [|s l1 IH]; intros sg nw H1 H2; simpl in *; [done|].
  destruct H1 as [Hs H1]. split; [done|]. by apply IH.
Qed.

Lemma chain_end_app sg nw l1 l2 :
  chain_end sg nw (l1 ++ l2)
  = chain_end (chain_end sg nw l1).1 (chain_end sg nw l1).2 l2.
Proof.
  revert sg nw. induction l1 as [|s l1 IH]; intros; simpl; [done|]. apply IH.
Qed.

Lemma writes_eq {A} (m : M A) w new :
  journal (m w).2 = journal w ++ new → writes m w = new.
Proof. intros H. unfold writes. rewrite H. apply drop_app_length. Qed.

Lemma lawful_intro {A} (m : M A) w new :
  journal (m w).2 = journal w ++ new →
  chain (signals w) (news_updates w) new →
  chain_end (signals w) (news_updates w) new
  = (signals (m w).2, news_updates (m w).2) →
  lawful m w.
Proof.
  intros H1 H2 H3. unfold lawful. by rewrite (writes_eq _ _ _ H1).
Qed.

Lemma lawful_run {A} (m : M A) w :
  (∀ r w', m w = (r, w') →
     ∃ new, journal w' = journal w ++ new
            ∧ chain (signals w) (news_updates w) new
            ∧ chain_end (signals w) (news_updates w) new
              = (signals w', news_updates w')) →
  lawful m w.
Proof.
  intros H. destruct (m w) as [r w'] eqn:Hm.
  destruct (H r w' eq_refl) as (new & H1 & H2 & H3).
  apply (lawful_intro _ _ new); rewrite ?Hm; done.
Qed.

Lemma lawful_quiet {A} (m : M A) w :
  journal (m w).2 = journal w → signals (m w).2 = signals w →
  news_updates (m w).2 = news_updates w → lawful m w.
Proof.
  intros H1 H2 H3. apply (lawful_intro _ _ []); simpl.
  - by rewrite app_nil_r.
  - done.
  - by rewrite H2, H3.
Qed.

Lemma lawful_bind {A B} (m : M A) (k : A → M B) w :
  lawful m w →
  (∀ a w1, m w = (Ok a, w1) → lawful (k a) w1) →
  lawful (bind m k) w.
Proof.
  intros (Hj & Hc & He) Hk.
  destruct (m w) as [[a|e] w1] eqn:Hm; simpl in *.
  - destruct (Hk a w1 eq_refl) as (Hj2 & Hc2 & He2).
    apply (lawful_intro _ _ (writes m w ++ writes (k a) w1)).
    + unfold bind. rewrite Hm. simpl. rewrite Hj2, Hj. by rewrite app_assoc.
    + apply chain_app; [done|]. by rewrite He.
    + rewrite chain_end_app, He. unfold bind. by rewrite Hm.
  - apply (lawful_intro _ _ (writes m w)); unfold bind; rewrite ?Hm; done.
Qed.

Lemma lawful_try_catch {A} (m : M A) (h : string → M A) w :
  lawful m w →
  (∀ e w1, m w = (Throw e, w1) → lawful (h e) w1) →
  lawful (try_catch m h) w.
Proof.
  intros (Hj & Hc & He) Hk.
  destruct (m w) as [[a|e] w1] eqn:Hm; simpl in *.
  - apply (lawful_intro _ _ (writes m w)); unfold try_catch; rewrite ?Hm; done.
  - destruct (Hk e w1 eq_refl) as (Hj2 & Hc2 & He2).
    apply (lawful_intro _ _ (writes m w ++ writes (h e) w1)).
    + unfold try_catch. rewrite Hm. simpl. rewrite Hj2, Hj. by rewrite app_assoc.
    + apply chain_app; [done|]. by rewrite He.
    + rewrite chain_end_app, He. unfold try_catch. by rewrite Hm.
Qed.

Lemma lawful_for_each {A} (l : list A) (body : A → M unit) w :
  (∀ x w1, lawful (body x) w1) → lawful (for_each l body) w.
Proof.
  intros Hb. revert w. induction l as [|x l IH]; intros w; simpl.
  - by apply lawful_quiet.
  - apply lawful_bind; [apply Hb|]. intros _ w1 _. apply IH.
Qed.

Lemma signal_move_insert s' (sg : gmap Z SignalDoc) k d' :
  signal_move s' (sg !! k) (Some d') →
  ∀ k0, signal_move s' (sg !! k0) (<[k := d']> sg !! k0).
Proof.
  intros H k0. destruct (decide (k = k0)) as [->|Hne].
  - by rewrite lookup_insert_eq.
  - rewrite lookup_insert_ne by done. constructor.
Qed.

Lemma news_move_insert (nw : gmap Z NewsDoc) k n' :
  news_move (nw !! k) (Some n') →
  ∀ k0, news_move (nw !! k0) (<[k := n']> nw !! k0).
Proof.
  intros H k0. destruct (decide (k = k0)) as [->|Hne].
  - by rewrite lookup_insert_eq.
  - rewrite lookup_insert_ne by done. constructor.
Qed.

(** The end of a run: name the states added to the journal and check each
    move. *)
Ltac leaf :=
  simpl; rewrite <- ?app_assoc; simpl;
  first [ exists []; split; [by rewrite app_nil_r|]
        | eexists; split; [reflexivity|] ];
  simpl; repeat split;
  try (intros ?; apply sm_same);
  try (intros ?; apply nm_same);
  try apply signal_move_insert;
  try apply news_move_insert;
  rewrite ?lookup_insert_eq;
  try match goal with E : signals _ !! _ = Some _ |- _ => rewrite E end;
  try match goal with E : news_updates _ !! _ = Some _ |- _ => rewrite E end;
  try (apply sm_claim; by apply is_pending_true);
  try (apply sm_deferred; [reflexivity|]; by apply negb_true_iff);
  try (eapply sm_active; [reflexivity|]; simpl; apply elem_of_app; right; constructor);
  try (by apply nm_claim);
  try (apply nm_published; reflexivity);
  try (apply nm_failed; reflexivity).

Section Lifecycle.

Variable tls : Z → string.
Variable tf2 : Js.value → string.

Lemma lawful_tick_item env cand w : lawful (tick_item tls tf2 env cand) w.
Proof.
  destruct cand as [k raw]. apply lawful_run. intros r w' H.
  unfold tick_item in H. unfold_run. exec H; leaf.
Qed.

Lemma lawful_handler_item env results cand w :
  lawful (handler_item tf2 env results cand) w.
Proof.
  destruct cand as [k raw]. apply lawful_run. intros r w' H.
  unfold handler_item in H. unfold_run. exec H; leaf.
Qed.

Lemma lawful_publishNews env w : lawful (publishNewsIfReady tls env) w.
Proof.
  apply lawful_run. intros r w' H.
  unfold publishNewsIfReady in H. unfold_run. simpl in H.
  destruct (negb (news_allowed env (last_published (signal_publish_log w) "news")
                    (now_news env))); simpl in H; [injection H as <- <-; leaf|].
  destruct (find_news (now_news env) (news_updates w)) as [[k n]|]; simpl in H;
    [|injection H as <- <-; leaf].
  exec H; leaf.
Qed.

Lemma lawful_handler_loop env results cands w :
  lawful (handler_loop tf2 env results cands) w.
Proof.
  revert results w. induction cands as [|cand rest IH]; intros results w; simpl.
  - by apply lawful_quiet.
  - apply lawful_bind; [apply lawful_handler_item|]. intros results' w1 _. apply IH.
Qed.

Lemma lawful_tick env w : lawful (tick tls tf2 env) w.
Proof.
  unfold tick. destruct (negb (running env)); [by apply lawful_quiet|].
  apply lawful_bind.
  - apply lawful_try_catch.
    + apply lawful_bind; [by apply lawful_quiet|]. intros sigs w1 _.
      apply lawful_bind; [apply lawful_for_each; apply lawful_tick_item|].
      intros _ w2 _. apply lawful_publishNews.
    + intros e w1 _. by apply lawful_quiet.
  - intros _ w1 _. by apply lawful_quiet.
Qed.

Lemma lawful_handler env w : lawful (handler tf2 env) w.
Proof.
  unfold handler. apply lawful_bind; [by apply lawful_quiet|].
  intros cands w1 _. apply lawful_handler_loop.
Qed.

Lemma lawful_run_ops ops w : lawful (run_ops tls tf2 ops) w.
Proof.
  unfold run_ops. apply lawful_for_each. intros [env|env] w1; simpl.
  - apply lawful_tick.
  - apply lawful_bind; [apply lawful_handler|]. intros _ w2 _. by apply lawful_quiet.
Qed.

End Lifecycle.

(** An active signal and a published news item have no move but staying
    as they are. *)
Lemma chain_keeps_active sg nw l k d :
  chain sg nw l → sg !! k = Some d → status d = active →
  (chain_end sg nw l).1 !! k = Some d.
Proof.
  revert sg nw. induction l as [|s l IH]; intros sg nw Hc Hk Hs; simpl in *; [done|].
  destruct Hc as [[Hsig _] Hc]. apply (IH _ _ Hc); [|done].
  specialize (Hsig k). rewrite Hk in Hsig.
  inversion Hsig as [a Ha|d0 now Hp|d0 now mid chat body Hp|d0 now Hp];
    subst; try done; rewrite Hs in Hp; discriminate.
Qed.

Lemma chain_keeps_published sg nw l k n :
  chain sg nw l → nw !! k = Some n → news_status n = published →
  (chain_end sg nw l).2 !! k = Some n.
Proof.
  revert sg nw. induction l as [|s l IH]; intros sg nw Hc Hk Hs; simpl in *; [done|].
  destruct Hc as [[_ Hnews] Hc]. apply (IH _ _ Hc); [|done].
  specialize (Hnews k). rewrite Hk in Hnews.
  inversion Hnews as [a Ha|n0 now Hp|n0 now Hp|n0 now Hp]; subst; try done.
  - unfold news_claimable in Hp. rewrite Hs in Hp. done.
  - rewrite Hs in Hp. discriminate.
  - rewrite Hs in Hp. discriminate.
Qed.




(** ** Candidate fetch *)

Lemma date_le_total a b : date_le a b = true ∨ date_le b a = true.
Proof.
  destruct a as [x|], b as [y|]; simpl; auto.
  rewrite !Z.leb_le. lia.
Qed.

Lemma date_le_trans a b c :
  date_le a b = true → date_le b c = true → date_le a c = true.
Proof.
  destruct a as [x|], b as [y|], c as [z|]; simpl; auto; try done.
  rewrite !Z.leb_le. lia.
Qed.

Lemma generated_le_total : Total generated_le.
Proof. intros a b. apply date_le_total. Qed.

Lemma generated_le_trans : Transitive generated_le.
Proof. intros a b c. apply date_le_trans. Qed.

Lemma created_ge_total : Total created_ge.
Proof. intros a b. apply date_le_total. Qed.

Lemma created_ge_trans : Transitive created_ge.
Proof. intros a b c Hab Hbc. unfold created_ge in *. by eapply date_le_trans. Qed.

Lemma merge_sort_generated l : StronglySorted generated_le (merge_sort generated_le l).
Proof.
  apply StronglySorted_merge_sort; [apply generated_le_trans|apply generated_le_total].
Qed.

Lemma merge_sort_created l : StronglySorted created_ge (merge_sort created_ge l).
Proof.
  apply StronglySorted_merge_sort; [apply created_ge_trans|apply created_ge_total].
Qed.

Lemma fetch_filter_spec now d :
  fetch_filter now d = true
  ↔ status d = pending ∧ is_premium d ≠ Js.Bool false
    ∧ ∃ x, expires_at d = Some x ∧ now < x.
Proof.
  unfold fetch_filter. rewrite !andb_true_iff, is_pending_true, bool_decide_eq_true.
  destruct (expires_at d) as [x|].
  - rewrite Z.ltb_lt. split.
    + intros [[? ?] ?]. eauto.
    + intros (? & ? & x' & Hx & ?). injection Hx as <-. done.
  - split.
    + intros [_ ?]. done.
    + intros (_ & _ & x & ? & _). done.
Qed.

Lemma fetch_candidates_split now limit c :
  merge_sort generated_le (find (fetch_filter now) c)
  = fetch_candidates now limit c
    ++ drop limit (merge_sort generated_le (find (fetch_filter now) c)).
Proof. unfold fetch_candidates. by rewrite take_drop. Qed.

Lemma fetch_candidates_length now limit c :
  length (fetch_candidates now limit c)
  = (limit `min` length (find (fetch_filter now) c))%nat.
Proof.
  unfold fetch_candidates. rewrite length_take.
  by rewrite (Permutation_length (merge_sort_Permutation _ _)).
Qed.

Lemma fetch_candidates_elem now limit c k d :
  (k, d) ∈ fetch_candidates now limit c →
  c !! k = Some d ∧ fetch_filter now d = true.
Proof.
  intros H. apply find_elem.
  rewrite <- (merge_sort_Permutation generated_le).
  rewrite (fetch_candidates_split now limit c). apply elem_of_app. by left.
Qed.

Lemma fetch_candidates_sorted now limit c :
  StronglySorted generated_le (fetch_candidates now limit c).
Proof.
  eapply StronglySorted_app_1_l. rewrite <- fetch_candidates_split.
  apply merge_sort_generated.
Qed.

(** The batch holds the oldest candidates: whatever eligible document was
    left out was generated no earlier than any member of the batch. *)
Lemma fetch_candidates_oldest now limit c k d k' d' :
  (k, d) ∈ fetch_candidates now limit c →
  c !! k' = Some d' → fetch_filter now d' = true →
  (k', d') ∉ fetch_candidates now limit c →
  generated_le (k, d) (k', d').
Proof.
  intros Hin Hk' Hf' Hout.
  assert ((k', d') ∈ merge_sort generated_le (find (fetch_filter now) c)) as Hs.
  { rewrite merge_sort_Permutation. by apply find_elem. }
  rewrite (fetch_candidates_split now limit c) in Hs.
  apply elem_of_app in Hs as [Hs|Hs]; [done|].
  eapply StronglySorted_app_1_elem_of; [|exact Hin|exact Hs].
  rewrite <- fetch_candidates_split.
  apply merge_sort_generated.
Qed.

Lemma find_news_newest now c k n k' n' :
  find_news now c = Some (k, n) →
  c !! k' = Some n' → news_filter now n' = true →
  date_le (created_at n') (created_at n) = true.
Proof.
  unfold find_news. intros Hh Hk' Hf'.
  assert ((k', n') ∈ merge_sort created_ge (find (news_filter now) c)) as Hin.
  { rewrite merge_sort_Permutation. by apply find_elem. }
  pose proof (merge_sort_created (find (news_filter now) c)) as Hs.
  destruct (merge_sort created_ge (find (news_filter now) c)) as [|x l]; [done|].
  injection Hh as ->. apply StronglySorted_cons in Hs as [Hall _].
  apply elem_of_cons in Hin as [[= -> ->]|Hin].
  - destruct (date_le_total (created_at n) (created_at n)); done.
  - rewrite Forall_forall in Hall. by apply (Hall (k', n')).
Qed.

(** *** What a run leaves alone *)

Section Frame.

Variable R : World → World → Prop.
Hypothesis R_refl : ∀ w, R w w.
Hypothesis R_trans : ∀ w1 w2 w3, R w1 w2 → R w2 w3 → R w1 w3.

Lemma keeps_bind {A B} (m : M A) (k : A → M B) :
  keeps R m → (∀ a, keeps R (k a)) → keeps R (bind m k).
Proof.
  intros Hm Hk w. unfold bind. specialize (Hm w).
  destruct (m w) as [[a|e] w1]; simpl in *; [|done].
  eapply R_trans; [exact Hm|]. apply Hk.
Qed.

Lemma keeps_try_catch {A} (m : M A) (h : string → M A) :
  keeps R m → (∀ e, keeps R (h e)) → keeps R (try_catch m h).
Proof.
  intros Hm Hh w. unfold try_catch. specialize (Hm w).
  destruct (m w) as [[a|e] w1]; simpl in *; [done|].
  eapply R_trans; [exact Hm|]. apply Hh.
Qed.

Lemma keeps_for_each {A} (l : list A) (body : A → M unit) :
  (∀ x, x ∈ l → keeps R (body x)) → keeps R (for_each l body).
Proof.
  induction l as [|x l IH]; intros Hb; simpl.
  - intros w. apply R_refl.
  - apply keeps_bind.
    + apply Hb. by left.
    + intros _. apply IH. intros y Hy. apply Hb. by right.
Qed.

End Frame.

Section Batch.

Variable tls : Z → string.
Variable tf2 : Js.value → string.

Lemma tick_item_other env k raw k' :
  k ≠ k' → keeps (same_signal k') (tick_item tls tf2 env (k, raw)).
Proof.
  intros Hne w. unfold same_signal.
  destruct (tick_item tls tf2 env (k, raw) w) as [r w'] eqn:H.
  unfold tick_item in H. unfold_run.
  exec H; simpl; rewrite ?lookup_insert_ne by done; done.
Qed.

Lemma handler_item_other env results k raw k' :
  k ≠ k' → keeps (same_signal k') (handler_item tf2 env results (k, raw)).
Proof.
  intros Hne w. unfold same_signal.
  destruct (handler_item tf2 env results (k, raw) w) as [r w'] eqn:H.
  unfold handler_item in H. unfold_run.
  exec H; simpl; rewrite ?lookup_insert_ne by done; done.
Qed.

Lemma tick_item_news env cand k' :
  keeps (same_news k') (tick_item tls tf2 env cand).
Proof.
  destruct cand as [k raw]. intros w. unfold same_news.
  destruct (tick_item tls tf2 env (k, raw) w) as [r w'] eqn:H.
  unfold tick_item in H. unfold_run.
  exec H; done.
Qed.

Lemma publishNews_signals env k' :
  keeps (same_signal k') (publishNewsIfReady tls env).
Proof.
  intros w. unfold same_signal.
  destruct (publishNewsIfReady tls env w) as [r w'] eqn:H.
  unfold publishNewsIfReady in H. unfold_run. simpl in H.
  destruct (negb (news_allowed env (last_published (signal_publish_log w) "news")
                    (now_news env))); simpl in H; [by injection H as <- <-|].
  destruct (find_news (now_news env) (news_updates w)) as [[k n]|]; simpl in H;
    [|by injection H as <- <-].
  exec H; done.
Qed.

(** The news step of a tick writes to no item but the one [findOne] chose. *)
Lemma publishNews_other env w k' :
  fst <$> find_news (now_news env) (news_updates w) ≠ Some k' →
  same_news k' w (publishNewsIfReady tls env w).2.
Proof.
  intros Hne. unfold same_news.
  destruct (publishNewsIfReady tls env w) as [r w'] eqn:H.
  unfold publishNewsIfReady in H. unfold_run. simpl in H.
  destruct (negb (news_allowed env (last_published (signal_publish_log w) "news")
                    (now_news env))); simpl in H; [by injection H as <- <-|].
  destruct (find_news (now_news env) (news_updates w)) as [[k n]|]; simpl in H;
    [|by injection H as <- <-].
  assert (k ≠ k') as Hk by (intros ->; by apply Hne).
  exec H; simpl; rewrite ?lookup_insert_ne by done; done.
Qed.

Lemma same_signal_refl k w : same_signal k w w.
Proof. done. Qed.

Lemma same_signal_trans k w1 w2 w3 :
  same_signal k w1 w2 → same_signal k w2 w3 → same_signal k w1 w3.
Proof. unfold same_signal. congruence. Qed.

Lemma same_news_refl k w : same_news k w w.
Proof. done. Qed.

Lemma same_news_trans k w1 w2 w3 :
  same_news k w1 w2 → same_news k w2 w3 → same_news k w1 w3.
Proof. unfold same_news. congruence. Qed.

Lemma tick_batch_only env w k :
  k ∉ (fetch_candidates (now_fetch env) 10 (signals w)).*1 →
  signals (tick tls tf2 env w).2 !! k = signals w !! k.
Proof.
  intros Hout. unfold tick. destruct (negb (running env)); [done|].
  unfold bind at 1, try_catch, bind at 1, fetchPendingSignals. simpl.
  assert (keeps (same_signal k)
            (for_each (fetch_candidates (now_fetch env) 10 (signals w))
               (tick_item tls tf2 env) ;; publishNewsIfReady tls env)) as Hkeep.
  { apply keeps_bind; [apply same_signal_trans| |intros _; apply publishNews_signals].
    apply keeps_for_each; [apply same_signal_refl|apply same_signal_trans|].
    intros [k0 raw] Hin. apply tick_item_other. intros ->. apply Hout.
    apply list_elem_of_fmap. by exists (k, raw). }
  specialize (Hkeep w). unfold same_signal in Hkeep.
  destruct ((for_each _ _ ;; _) w) as [[[]|e] w1]; simpl in *; done.
Qed.

Lemma handler_loop_batch_only env results cands k :
  k ∉ cands.*1 → keeps (same_signal k) (handler_loop tf2 env results cands).
Proof.
  revert results. induction cands as [|[k0 raw] rest IH]; intros results Hout; simpl.
  - intros w. done.
  - apply keeps_bind; [apply same_signal_trans| |].
    + apply handler_item_other. intros ->. apply Hout. simpl. by left.
    + intros results'. apply IH. intros Hin. apply Hout. simpl. by right.
Qed.

Lemma handler_batch_only env w k :
  k ∉ (fetch_candidates (now_fetch env) 20 (signals w)).*1 →
  signals (handler tf2 env w).2 !! k = signals w !! k.
Proof.
  intros Hout. unfold handler, bind at 1, fetchPendingSignals. simpl.
  by apply (handler_loop_batch_only env []).
Qed.

Lemma tick_one_news env w :
  ∃ w1, ∀ k,
    fst <$> find_news (now_news env) (news_updates w1) ≠ Some k →
    news_updates (tick tls tf2 env w).2 !! k = news_updates w !! k.
Proof.
  unfold tick. destruct (negb (running env)); [by exists w|].
  unfold bind at 1, try_catch, bind at 1, fetchPendingSignals. simpl.
  unfold bind at 1.
  destruct (for_each (fetch_candidates (now_fetch env) 10 (signals w))
              (tick_item tls tf2 env) w) as [[[]|e] w1] eqn:Hloop.
  - exists w1. intros k Hk.
    pose proof (publishNews_other env w1 k Hk) as Hn. unfold same_news in Hn.
    assert (news_updates w1 !! k = news_updates w !! k) as Hw1.
    { pose proof (keeps_for_each (same_news k) (same_news_refl k) (same_news_trans k)
                    (fetch_candidates (now_fetch env) 10 (signals w))
                    (tick_item tls tf2 env)
                    (λ x _, tick_item_news env x k) w) as Hk1.
      by rewrite Hloop in Hk1. }
    destruct (publishNewsIfReady tls env w1) as [[[]|e] w2]; simpl in *; congruence.
  - exists w. intros k _. simpl.
    pose proof (keeps_for_each (same_news k) (same_news_refl k) (same_news_trans k)
                  (fetch_candidates (now_fetch env) 10 (signals w))
                  (tick_item tls tf2 env)
                  (λ x _, tick_item_news env x k) w) as Hk1.
    by rewrite Hloop in Hk1.
Qed.

End Batch.



(** ** One tier per fetched signal *)

(** What the fetch filter guarantees about the tier: [is_premium] is not
    [false]. *)
Lemma fetch_excludes_free now limit c k d :
  (k, d) ∈ fetch_candidates now limit c → is_premium d ≠ Js.Bool false.
Proof.
  intros Hin. apply fetch_candidates_elem in Hin as [_ Hf].
  by apply fetch_filter_spec in Hf as (_ & ? & _).
Qed.

(** C9 (the code at the failing input).  A pending signal written without
    [is_premium] passes the fetch filter, which only excludes [false], and
    is then classified by truthiness: the tick treats it as a free signal,
    sends it to the free channel and records the publish under the ledger
    entry ['free'], leaving ['premium'] untouched. *)
Theorem C9_missing_tier_takes_free_branch :
  let w := ex_world_of {[ 1 := ex_signal_no_tier ]} ∅ in
  let w' := (tick ex_toLocaleString ex_toFixed2 ex_env w).2 in
  (fetch_candidates (now_fetch ex_env) 10 (signals w)).*1 = [1]
  ∧ is_premium ex_signal_no_tier ≠ Js.Bool false
  ∧ publish_type ex_signal_no_tier = "free"
  ∧ map chat_id (outbox w') = ["-2002"]
  ∧ FREE_CHANNEL_ID ex_env = Some "-2002"
  ∧ last_published (signal_publish_log w') "free" = Some 1101
  ∧ last_published (signal_publish_log w') "premium" = None
  ∧ status <$> signals w' !! 1 = Some active.
Proof. vm_compute. repeat split; discriminate. Qed.

(** ** The single-tick handler *)


Section LedgerFailure.

Variable tls : Z → string.
Variable tf2 : Js.value → string.

(** In [sendSignalToPremium] the ledger is written only after the status
    commit succeeded, and its failure is logged and swallowed: the call
    returns normally and the committed status stays. *)
Lemma tick_swallows_ledger_error env w k sig body mid e :
  signals w !! k = Some sig →
  env_truthy (chatId_of env sig) = true →
  formatSignalMessage tls tf2 sig = Ok body →
  telegram_signal env k = Ok mid →
  updateOne_fault env k 0 = None →
  publish_log_fault env k = Some e →
  let chat := default EmptyString (chatId_of env sig) in
  let run := sendSignalToPremium tls tf2 env k sig w in
  run.1 = Ok tt
  ∧ signals run.2 !! k = Some (set_active (now_sent env k) mid chat sig)
  ∧ outbox run.2 = outbox w ++ [mkSent chat body mid]
  ∧ signal_publish_log run.2 = signal_publish_log w
  ∧ console run.2 = console w ++ [ErrPublishLog (err_text e)].
Proof.
  intros Hk Hchat Hfmt Hsend Hf0 Hp chat run. subst run.
  assert (negb (env_truthy (chatId_of env sig)) = false) as Hchat'
    by by rewrite Hchat.
  destruct (sendSignalToPremium tls tf2 env k sig w) as [r w'] eqn:H.
  unfold_run. simpl in H. known H.
  injection H as <- <-. simpl. rewrite lookup_insert_eq. done.
Qed.

(** The ledger is never ahead of the status: when [sendSignalToPremium]
    changed the ledger, the item is active. *)
Lemma ledger_after_commit env w k sig :
  signals w !! k = Some sig →
  let w' := (sendSignalToPremium tls tf2 env k sig w).2 in
  signal_publish_log w' ≠ signal_publish_log w →
  status <$> signals w' !! k = Some active.
Proof.
  intros Hk w'. subst w'.
  destruct (sendSignalToPremium tls tf2 env k sig w) as [r w'] eqn:H.
  unfold_run. exec H; simpl; rewrite ?lookup_insert_eq; try done.
  all: rewrite Hk in *; done.
Qed.

End LedgerFailure.

(** ** Escaping *)

Lemma guarded_escape_from b s : guarded_from b (escape s) = true.
Proof.
  revert b. induction s as [|c s IH]; intros b; [done|].
  cbn [escape]. destruct (special c) eqn:Hc; cbn [guarded_from].
  - change (special backslash) with false.
    change (Ascii.eqb backslash backslash) with true.
    rewrite Hc, IH. by rewrite orb_true_r.
  - by rewrite Hc, IH.
Qed.

(** Whatever the field holds, every special character of its escaped
    form stands behind a backslash. *)
Lemma escapeMarkdown_guarded v : guarded (escapeMarkdown v).
Proof. apply guarded_escape_from. Qed.


(** * Further properties of the program *)

(** ** The cache of failed commits is never read *)

Lemma blind_ret {A} (a : A) : cache_blind (ret a).
Proof. intros w c. by exists c. Qed.

Lemma blind_throw {A} e : cache_blind (@throw A e).
Proof. intros w c. by exists c. Qed.

Lemma blind_bind {A B} (m : M A) (k : A → M B) :
  cache_blind m → (∀ a, cache_blind (k a)) → cache_blind (bind m k).
Proof.
  intros Hm Hk w c. unfold bind.
  destruct (Hm w c) as [c1 ->].
  destruct (m w) as [[a|e] w1]; simpl.
  - apply Hk.
  - by exists c1.
Qed.

Lemma blind_try_catch {A} (m : M A) (h : string → M A) :
  cache_blind m → (∀ e, cache_blind (h e)) → cache_blind (try_catch m h).
Proof.
  intros Hm Hh w c. unfold try_catch.
  destruct (Hm w c) as [c1 ->].
  destruct (m w) as [[a|e] w1]; simpl.
  - by exists c1.
  - apply Hh.
Qed.

Lemma blind_for_each {A} (l : list A) (body : A → M unit) :
  (∀ x, cache_blind (body x)) → cache_blind (for_each l body).
Proof.
  intros Hb. induction l as [|x l IH]; simpl.
  - apply blind_ret.
  - apply blind_bind; [apply Hb|]. intros _. apply IH.
Qed.

Lemma blind_log l : cache_blind (log l).
Proof. intros w c. by exists c. Qed.

Lemma blind_setTimeout t : cache_blind (setTimeout t).
Proof. intros w c. by exists c. Qed.

Lemma blind_add_cache v : cache_blind (λ w, (Ok tt, add_cache v w)).
Proof.
  intros w c.
  by exists (if bool_decide (v ∈ c) then c else c ++ [v]).
Qed.

Lemma blind_sendMessage outcome chat body : cache_blind (sendMessage outcome chat body).
Proof. intros w c. exists c. unfold sendMessage. by destruct outcome. Qed.

Lemma blind_signals_findOneAndUpdate k cond upd :
  cache_blind (signals_findOneAndUpdate k cond upd).
Proof.
  intros w c. exists c. unfold signals_findOneAndUpdate. simpl.
  by destruct (findOneAndUpdate k cond upd (signals w)) as [[d|] c1].
Qed.

Lemma blind_news_findOneAndUpdate k cond upd :
  cache_blind (news_findOneAndUpdate k cond upd).
Proof.
  intros w c. exists c. unfold news_findOneAndUpdate. simpl.
  by destruct (findOneAndUpdate k cond upd (news_updates w)) as [[d|] c1].
Qed.

Lemma blind_getPublishLog type : cache_blind (getPublishLog type).
Proof. intros w c. by exists c. Qed.

Lemma blind_setPublishLog fault type when :
  cache_blind (setPublishLog fault type when).
Proof. intros w c. exists c. unfold setPublishLog. by destruct fault. Qed.

Lemma blind_fetchPendingSignals env limit :
  cache_blind (fetchPendingSignals env limit).
Proof. intros w c. by exists c. Qed.

Lemma blind_find_news now :
  cache_blind (λ w, (Ok (find_news now (news_updates w)), w)).
Proof. intros w c. by exists c. Qed.

(** Split a computation along its binds, handlers and branches down to the
    primitive effects. *)
Ltac blind :=
  repeat first
    [ apply blind_ret | apply blind_throw | apply blind_log
    | apply blind_setTimeout | apply blind_add_cache | apply blind_sendMessage
    | apply blind_signals_findOneAndUpdate | apply blind_news_findOneAndUpdate
    | apply blind_getPublishLog | apply blind_setPublishLog
    | apply blind_fetchPendingSignals | apply blind_find_news
    | apply blind_bind; [|intros ?]
    | apply blind_try_catch; [|intros ?]
    | match goal with
      | |- cache_blind (if ?b then _ else _) => destruct b
      | |- cache_blind (match ?x with _ => _ end) => destruct x
      end ].

Lemma blind_signals_updateOne fault k cond upd :
  cache_blind (signals_updateOne fault k cond upd).
Proof. unfold signals_updateOne. blind. Qed.

Lemma blind_news_updateOne fault k cond upd :
  cache_blind (news_updateOne fault k cond upd).
Proof. unfold news_updateOne. blind. Qed.

Lemma blind_retry_loop fuel fault k upd maxRetries attempt backoff :
  cache_blind (retry_loop fuel fault k upd maxRetries attempt backoff).
Proof.
  revert attempt backoff.
  induction fuel as [|fuel IH]; intros attempt backoff; cbn [retry_loop].
  - apply blind_ret.
  - destruct (attempt <? maxRetries)%nat; [|apply blind_ret].
    apply blind_try_catch.
    + apply blind_bind; [apply blind_signals_updateOne|intros _; apply blind_ret].
    + intros err. apply blind_bind; [apply blind_log|intros _].
      destruct (maxRetries <=? S attempt)%nat; [apply blind_throw|].
      apply blind_bind; [apply blind_setTimeout|intros _]. apply IH.
Qed.

Lemma blind_logSignalDeliveryFailure env k sig sigId mid chat e :
  cache_blind (logSignalDeliveryFailure env k sig sigId mid chat e).
Proof.
  unfold logSignalDeliveryFailure.
  destruct (USE_MONGO_DB env); [|apply blind_throw].
  intros w c. exists c. by destruct (insert_log_fault env k).
Qed.

Section CacheBlind.

Variable tls : Z → string.
Variable tf2 : Js.value → string.

Lemma blind_sendSignalToPremium env k sig :
  cache_blind (sendSignalToPremium tls tf2 env k sig).
Proof.
  unfold sendSignalToPremium, updateSignalDocumentWithRetry.
  destruct (negb (env_truthy (chatId_of env sig))); [apply blind_throw|].
  destruct (formatSignalMessage tls tf2 sig); [|apply blind_throw].
  apply blind_bind; [apply blind_sendMessage|intros mid].
  apply blind_try_catch.
  - apply blind_bind; [apply blind_retry_loop|intros _]. blind.
  - intros err. apply blind_bind; [apply blind_add_cache|intros _].
    apply blind_bind; [apply blind_log|intros _].
    apply blind_try_catch; [apply blind_logSignalDeliveryFailure|intros ?; apply blind_log].
Qed.

Lemma blind_tick_item env cand : cache_blind (tick_item tls tf2 env cand).
Proof.
  unfold tick_item.
  apply blind_bind; [apply blind_signals_findOneAndUpdate|intros [sig|]]; [|apply blind_ret].
  apply blind_try_catch; [|intros ?; apply blind_log].
  destruct (negb (Js.truthy (entry_price sig)) && negb (Js.truthy (entry sig)));
    [apply blind_log|].
  apply blind_bind; [apply blind_getPublishLog|intros last].
  destruct (negb (allowed (publish_type sig) last (now_claim env cand.1))).
  - apply blind_bind; [apply blind_log|intros _].
    apply blind_try_catch; [apply blind_signals_updateOne|intros ?; apply blind_log].
  - apply blind_bind; [apply blind_sendSignalToPremium|intros _; apply blind_log].
Qed.

Lemma blind_sendNewsToPremium env k n : cache_blind (sendNewsToPremium tls env k n).
Proof. unfold sendNewsToPremium. blind. Qed.

Lemma blind_publishNewsIfReady env : cache_blind (publishNewsIfReady tls env).
Proof.
  unfold publishNewsIfReady.
  apply blind_try_catch; [|intros ?; apply blind_log].
  apply blind_bind; [apply blind_getPublishLog|intros last].
  destruct (negb (news_allowed env last (now_news env))); [apply blind_ret|].
  apply blind_bind; [apply blind_find_news|intros [[k n]|]]; [|apply blind_ret].
  apply blind_bind; [apply blind_news_findOneAndUpdate|intros [claimed|]];
    [|apply blind_ret].
  apply blind_try_catch.
  - apply blind_bind; [apply blind_sendNewsToPremium|intros _].
    apply blind_bind; [apply blind_news_updateOne|intros _].
    apply blind_bind; [apply blind_setPublishLog|intros _]. apply blind_log.
  - intros err. apply blind_bind; [apply blind_news_updateOne|intros _].
    apply blind_throw.
Qed.

Lemma blind_tick env : cache_blind (tick tls tf2 env).
Proof.
  unfold tick. destruct (negb (running env)); [apply blind_ret|].
  apply blind_bind; [|intros _; apply blind_setTimeout].
  apply blind_try_catch; [|intros ?; apply blind_log].
  apply blind_bind; [apply blind_fetchPendingSignals|intros sigs].
  apply blind_bind; [|intros _; apply blind_publishNewsIfReady].
  apply blind_for_each. apply blind_tick_item.
Qed.

Lemma blind_handler_item env results cand :
  cache_blind (handler_item tf2 env results cand).
Proof.
  unfold handler_item.
  apply blind_bind; [apply blind_signals_findOneAndUpdate|intros [sig|]]; [|apply blind_ret].
  apply blind_try_catch.
  2:{ intros err. apply blind_bind; [apply blind_log|intros _; apply blind_ret]. }
  destruct (negb (Js.truthy (entry_price sig)) && negb (Js.truthy (entry sig)));
    [apply blind_ret|].
  apply blind_bind; [apply blind_getPublishLog|intros last].
  destruct (negb (allowed (publish_type sig) last (now_fetch env))).
  - apply blind_bind; [apply blind_signals_updateOne|intros _; apply blind_ret].
  - destruct (negb (env_truthy (chatId_of env sig))); [apply blind_ret|].
    destruct (handler_text tf2 sig); [|apply blind_throw].
    apply blind_bind; [apply blind_sendMessage|intros mid].
    apply blind_bind; [apply blind_signals_updateOne|intros _].
    apply blind_bind; [apply blind_setPublishLog|intros _]. apply blind_ret.
Qed.

Lemma blind_handler_loop env results cands :
  cache_blind (handler_loop tf2 env results cands).
Proof.
  revert results. induction cands as [|cand rest IH]; intros results; simpl.
  - apply blind_ret.
  - apply blind_bind; [apply blind_handler_item|intros results']. apply IH.
Qed.

Lemma blind_handler env : cache_blind (handler tf2 env).
Proof.
  unfold handler. apply blind_bind; [apply blind_fetchPendingSignals|intros ?].
  apply blind_handler_loop.
Qed.

End CacheBlind.

(** X1.  [failedUpdateCache] is written when a commit has exhausted its
    retries and is read by nothing: a tick of the consumer, or a run of the
    single-tick handler, started with any other content of the cache
    returns the same result and leaves the same store, outbox, console and
    timers; only the cache may differ.  Membership of an id in the cache
    keeps no signal from being sent. *)
Theorem failedUpdateCache_is_never_read (tls : Z → string) (tf2 : Js.value → string) :
  (∀ env w c, ∃ c',
     tick tls tf2 env (with_cache c w)
     = ((tick tls tf2 env w).1, with_cache c' (tick tls tf2 env w).2))
  ∧ (∀ env w c, ∃ c',
       handler tf2 env (with_cache c w)
       = ((handler tf2 env w).1, with_cache c' (handler tf2 env w).2)).
Proof.
  split; intros env w c.
  - apply (blind_tick tls tf2 env).
  - apply (blind_handler tf2 env).
Qed.

(** ** Every candidate of the batch is claimed *)

Lemma fetch_candidates_NoDup now limit c : NoDup (fetch_candidates now limit c).*1.
Proof.
  unfold fetch_candidates, find.
  eapply sublist_NoDup; [|apply fmap_sublist, sublist_take].
  rewrite merge_sort_Permutation.
  eapply sublist_NoDup; [|apply fmap_sublist, sublist_filter].
  apply NoDup_fst_map_to_list.
Qed.

Section Settled.

Variable tls : Z → string.
Variable tf2 : Js.value → string.

(** The iteration of a pending candidate leaves it in one of the three
    statuses that follow the claim. *)
Lemma tick_item_settles env w k raw d :
  signals w !! k = Some d → status d = pending →
  ∃ d', signals (tick_item tls tf2 env (k, raw) w).2 !! k = Some d' ∧ settled d'.
Proof.
  intros Hk Hs. apply is_pending_true in Hs.
  destruct (tick_item tls tf2 env (k, raw) w) as [r w'] eqn:H.
  unfold tick_item in H. unfold_run. simpl in H. rewrite Hk, Hs in H.
  unfold settled.
  exec H; simpl; rewrite ?lookup_insert_eq; eexists; (split; [reflexivity|]);
    simpl; auto.
Qed.

Lemma for_each_tick_item_settles env cands w :
  NoDup cands.*1 →
  (∀ k raw, (k, raw) ∈ cands → ∃ d, signals w !! k = Some d ∧ status d = pending) →
  ∀ k raw, (k, raw) ∈ cands →
    ∃ d', signals (for_each cands (tick_item tls tf2 env) w).2 !! k = Some d'
          ∧ settled d'.
Proof.
  revert w. induction cands as [|[k0 raw0] rest IH]; intros w Hnd Hall k raw Hin.
  - by apply elem_of_nil in Hin.
  - apply NoDup_cons in Hnd as [Hk0 Hnd]. simpl in Hk0.
    cbn [for_each]. unfold bind at 1.
    pose proof (tick_item_ok tls tf2 env (k0, raw0) w) as Hok.
    destruct (tick_item tls tf2 env (k0, raw0) w) as [r w1] eqn:Hrun.
    simpl in Hok. subst r.
    apply elem_of_cons in Hin as [[= -> ->]|Hin].
    + destruct (Hall k0 raw0) as (d & Hd & Hs); [by left|].
      destruct (tick_item_settles env w k0 raw0 d Hd Hs) as (d' & Hd' & Hset).
      rewrite Hrun in Hd'. simpl in Hd'.
      exists d'. split; [|done]. rewrite <- Hd'.
      apply (keeps_for_each (same_signal k0) (same_signal_refl k0)
               (same_signal_trans k0)).
      intros [k1 raw1] Hin1. apply tick_item_other. intros ->. apply Hk0.
      apply list_elem_of_fmap. by exists (k0, raw1).
    + eapply (IH w1 Hnd); [|exact Hin].
      intros k1 raw1 Hin1. destruct (Hall k1 raw1) as (d & Hd & Hs); [by right|].
      exists d. split; [|done]. rewrite <- Hd.
      pose proof (tick_item_other tls tf2 env k0 raw0 k1) as Hkeep.
      assert (k0 ≠ k1) as Hne.
      { intros ->. apply Hk0. apply list_elem_of_fmap. by exists (k1, raw1). }
      specialize (Hkeep Hne w). unfold same_signal in Hkeep.
      by rewrite Hrun in Hkeep.
Qed.

Lemma tick_settles_batch env w k raw :
  running env = true →
  (k, raw) ∈ fetch_candidates (now_fetch env) 10 (signals w) →
  ∃ d', signals (tick tls tf2 env w).2 !! k = Some d' ∧ settled d'.
Proof.
  intros Hr Hin. unfold tick. rewrite Hr. simpl.
  unfold bind at 1, try_catch, bind at 1, fetchPendingSignals. simpl.
  unfold bind at 1.
  destruct (for_each_tick_item_settles env
              (fetch_candidates (now_fetch env) 10 (signals w)) w
              (fetch_candidates_NoDup _ _ _)) with (k := k) (raw := raw)
    as (d' & Hd' & Hset); [|done|].
  { intros k1 raw1 Hin1. apply fetch_candidates_elem in Hin1 as [H1 Hf].
    apply fetch_filter_spec in Hf as (Hs & _). eauto. }
  destruct (for_each _ _ w) as [[[]|e] w1]; simpl in *.
  - pose proof (publishNews_signals tls env k w1) as Hn. unfold same_signal in Hn.
    destruct (publishNewsIfReady tls env w1) as [[[]|e] w2]; simpl in *;
      exists d'; (split; [congruence|done]).
  - by exists d'.
Qed.

(** *** The result list of the single-tick handler *)

(** A pending candidate contributes exactly one entry, about itself, and
    ends up settled. *)
Lemma handler_item_reports env results w k raw d :
  signals w !! k = Some d → status d = pending →
  ∃ o d', (handler_item tf2 env results (k, raw) w).1 = Ok (results ++ [o])
          ∧ outcome_id o = k
          ∧ signals (handler_item tf2 env results (k, raw) w).2 !! k = Some d'
          ∧ settled d'.
Proof.
  intros Hk Hs. apply is_pending_true in Hs.
  destruct (handler_item tf2 env results (k, raw) w) as [r w'] eqn:H.
  unfold handler_item in H. unfold_run. simpl in H. rewrite Hk, Hs in H.
  unfold settled.
  exec H; simpl; rewrite ?lookup_insert_eq; eexists _, _;
    (split; [reflexivity|]); (split; [reflexivity|]); (split; [reflexivity|]);
    simpl; auto.
Qed.

Lemma handler_loop_reports env cands results w :
  NoDup cands.*1 →
  (∀ k raw, (k, raw) ∈ cands → ∃ d, signals w !! k = Some d ∧ status d = pending) →
  ∃ new, (handler_loop tf2 env results cands w).1 = Ok (results ++ new)
         ∧ outcome_id <$> new = cands.*1
         ∧ ∀ k raw, (k, raw) ∈ cands →
             ∃ d', signals (handler_loop tf2 env results cands w).2 !! k = Some d'
                   ∧ settled d'.
Proof.
  revert results w.
  induction cands as [|[k0 raw0] rest IH]; intros results w Hnd Hall.
  - exists []. simpl. rewrite app_nil_r. split; [done|]. split; [done|].
    intros k raw Hin. by apply elem_of_nil in Hin.
  - apply NoDup_cons in Hnd as [Hk0 Hnd]. simpl in Hk0.
    destruct (Hall k0 raw0) as (d & Hd & Hs); [by left|].
    destruct (handler_item_reports env results w k0 raw0 d Hd Hs)
      as (o & d0 & Hres & Hid & Hd0 & Hset).
    cbn [handler_loop]. unfold bind at 1. unfold bind at 1.
    destruct (handler_item tf2 env results (k0, raw0) w) as [r w1] eqn:Hrun.
    simpl in Hres, Hd0. subst r.
    assert (∀ k1 raw1, (k1, raw1) ∈ rest → k0 ≠ k1) as Hne.
    { intros k1 raw1 Hin1 ->. apply Hk0. apply list_elem_of_fmap.
      by exists (k1, raw1). }
    destruct (IH (results ++ [o]) w1 Hnd) as (new & Hnew & Hids & Hsettled).
    { intros k1 raw1 Hin1. destruct (Hall k1 raw1) as (d1 & Hd1 & Hs1); [by right|].
      exists d1. split; [|done]. rewrite <- Hd1.
      pose proof (handler_item_other tf2 env results k0 raw0 k1
                    (Hne k1 raw1 Hin1) w) as Hkeep.
      unfold same_signal in Hkeep. by rewrite Hrun in Hkeep. }
    exists (o :: new). split; [|split].
    + rewrite Hnew. by rewrite <- app_assoc.
    + rewrite !fmap_cons, Hid, Hids. done.
    + intros k raw Hin. apply elem_of_cons in Hin as [[= -> ->]|Hin].
      * exists d0. split; [|done]. rewrite <- Hd0.
        apply (handler_loop_batch_only tf2 env (results ++ [o]) rest k0 Hk0 w1).
      * by apply (Hsettled k raw).
Qed.

End Settled.

(** ** Scheduling *)

Lemma only_sleeps_refl w : only_sleeps w w.
Proof. exists []. by rewrite app_nil_r. Qed.

Lemma only_sleeps_trans w1 w2 w3 :
  only_sleeps w1 w2 → only_sleeps w2 w3 → only_sleeps w1 w3.
Proof.
  intros (l1 & H1 & F1) (l2 & H2 & F2). exists (l1 ++ l2).
  rewrite H2, H1, <- app_assoc. split; [done|].
  rewrite forallb_app. by rewrite F1, F2.
Qed.

Ltac sleeps :=
  unfold only_sleeps; simpl; rewrite <- ?app_assoc; simpl;
  first [ by exists []; rewrite app_nil_r
        | by eexists; split; [reflexivity|] ].

Section Scheduling.

Variable tls : Z → string.
Variable tf2 : Js.value → string.

Lemma tick_item_only_sleeps env cand :
  keeps only_sleeps (tick_item tls tf2 env cand).
Proof.
  destruct cand as [k raw]. intros w.
  destruct (tick_item tls tf2 env (k, raw) w) as [r w'] eqn:H.
  unfold tick_item in H. unfold_run.
  exec H; sleeps.
Qed.

Lemma publishNews_only_sleeps env :
  keeps only_sleeps (publishNewsIfReady tls env).
Proof.
  intros w.
  destruct (publishNewsIfReady tls env w) as [r w'] eqn:H.
  unfold publishNewsIfReady in H. unfold_run. simpl in H.
  destruct (negb (news_allowed env (last_published (signal_publish_log w) "news")
                    (now_news env))); simpl in H; [injection H as <- <-; sleeps|].
  destruct (find_news (now_news env) (news_updates w)) as [[k n]|]; simpl in H;
    [|injection H as <- <-; sleeps].
  exec H; sleeps.
Qed.


End Scheduling.




Lemma handler_reports_each_candidate_aux (tf2 : Js.value → string) env w :
  ∃ results, (handler tf2 env w).1 = Ok results ∧ (length results ≤ 20)%nat.
Proof.
  unfold handler, bind at 1, fetchPendingSignals. simpl.
  destruct (handler_loop_reports tf2 env
              (fetch_candidates (now_fetch env) 20 (signals w)) [] w
              (fetch_candidates_NoDup _ _ _)) as (new & Hres & Hids & Hset).
  { intros k1 raw1 Hin1. apply fetch_candidates_elem in Hin1 as [H1 Hf].
    apply fetch_filter_spec in Hf as (Hs & _). eauto. }
  exists new. simpl in Hres. split; [done|].
  rewrite <- (length_fmap outcome_id), Hids, length_fmap, fetch_candidates_length.
  lia.
Qed.

(** ** The HTTP entry of the handler *)

Lemma admin_token_ok cfg req :
  env_truthy (ADMIN_TOKEN cfg) = true
  ∧ Some (request_token req) = ADMIN_TOKEN cfg
  ↔ ∃ t, ADMIN_TOKEN cfg = Some t ∧ t ≠ EmptyString ∧ request_token req = t.
Proof.
  unfold env_truthy. destruct (ADMIN_TOKEN cfg) as [t|].
  - rewrite negb_true_iff, String.eqb_neq. split.
    + intros [Ht [= Heq]]. by exists t.
    + intros (t' & [= <-] & Hne & Heq). by rewrite Heq.
  - split; [intros [? ?]; done|intros (? & ? & _); done].
Qed.

Lemma turned_away_None cfg req :
  turned_away cfg req = None
  ↔ (∃ t, ADMIN_TOKEN cfg = Some t ∧ t ≠ EmptyString ∧ request_token req = t)
    ∧ req_method req = "POST"
    ∧ env_truthy (MONGODB_URI cfg) = true.
Proof.
  rewrite <- admin_token_ok. unfold turned_away.
  destruct (env_truthy (ADMIN_TOKEN cfg)); simpl; [|split; [done|intros [[? ?] ?]; done]].
  destruct (bool_decide_reflect (Some (request_token req) = ADMIN_TOKEN cfg));
    simpl; [|split; [done|intros [[? ?] ?]; done]].
  destruct (String.eqb_spec (req_method req) "POST"); simpl;
    [|split; [done|intros (? & ? & ?); done]].
  destruct (env_truthy (MONGODB_URI cfg)); simpl; [done|].
  split; [done|intros (? & ? & ?); done].
Qed.

Lemma turned_away_Some cfg req r :
  turned_away cfg req = Some r →
  (∀ n rs, r ≠ Processed n rs)
  ∧ (r = MethodNotAllowed → Some (request_token req) = ADMIN_TOKEN cfg).
Proof.
  unfold turned_away.
  destruct (env_truthy (ADMIN_TOKEN cfg)); simpl; [|intros [= <-]; done].
  destruct (bool_decide_reflect (Some (request_token req) = ADMIN_TOKEN cfg));
    simpl; [|intros [= <-]; done].
  destruct (String.eqb (req_method req) "POST"); simpl; [|intros [= <-]; done].
  destruct (env_truthy (MONGODB_URI cfg)); simpl; [done|intros [= <-]; done].
Qed.

Lemma header_mismatch cfg req h :
  header_x_admin_token req = Some h → h ≠ EmptyString →
  Some h ≠ ADMIN_TOKEN cfg → turned_away cfg req = Some Unauthorized.
Proof.
  intros Hh Hne Hbad. unfold turned_away.
  assert (request_token req = h) as ->.
  { unfold request_token. rewrite Hh. simpl.
    apply String.eqb_neq in Hne. by rewrite Hne. }
  rewrite (bool_decide_eq_false_2 _ Hbad). simpl. by rewrite orb_true_r.
Qed.


(** ** The retry loop in general *)

(** The world after the attempts [attempt], [attempt + 1], ... have thrown
    the errors [errs] and the loop has slept after each of them. *)
Lemma retry_loop_after_failures fuel fault k upd maxRetries attempt backoff errs w :
  (attempt + length errs < maxRetries)%nat → (length errs < fuel)%nat →
  (∀ j e, errs !! j = Some e → fault (attempt + j)%nat = Some e) →
  fault (attempt + length errs)%nat = None →
  ∃ w',
    retry_loop fuel fault k upd maxRetries attempt backoff w = (Ok (Some true), w')
    ∧ signals w' = (findOneAndUpdate k (λ _, true) upd (signals w)).2
    ∧ console w'
      = console w ++ imap (λ j e, ErrUpdateAttempt (S (attempt + j)) e) errs
    ∧ timers w'
      = timers w ++ ((λ j, Sleep (backoff * 2 ^ Z.of_nat j)) <$> seq 0 (length errs))
    ∧ outbox w' = outbox w
    ∧ signal_publish_log w' = signal_publish_log w.
Proof.
  revert fuel attempt backoff w.
  induction errs as [|e errs IH]; intros fuel attempt backoff w Hlt Hfuel Hf Hok.
  - destruct fuel as [|fuel]; [simpl in Hfuel; lia|]. cbn [retry_loop].
    assert ((attempt <? maxRetries)%nat = true) as -> by (apply Nat.ltb_lt; lia).
    simpl in Hok. rewrite Nat.add_0_r in Hok.
    unfold try_catch, signals_updateOne. rewrite Hok.
    unfold bind, ret, signals_findOneAndUpdate.
    destruct (findOneAndUpdate k (λ _, true) upd (signals w)) as [[d|] c] eqn:Hu;
      simpl; eexists; (split; [reflexivity|]); simpl; rewrite ?app_nil_r;
      repeat split; try done.
    unfold findOneAndUpdate in Hu. destruct (signals w !! k); congruence.
  - destruct fuel as [|fuel]; [simpl in Hfuel; lia|]. cbn [retry_loop].
    simpl in Hlt, Hfuel.
    assert ((attempt <? maxRetries)%nat = true) as -> by (apply Nat.ltb_lt; lia).
    pose proof (Hf 0%nat e eq_refl) as H0. rewrite Nat.add_0_r in H0.
    unfold try_catch, signals_updateOne. rewrite H0.
    unfold throw, bind, log, setTimeout. simpl.
    assert ((maxRetries <=? S attempt)%nat = false) as -> by (apply Nat.leb_gt; lia).
    destruct (IH fuel (S attempt) (backoff * 2)
                (add_timer (Sleep backoff) (add_log (ErrUpdateAttempt (S attempt) e) w)))
      as (w' & Hrun & Hs & Hc & Ht & Ho & Hl).
    + lia.
    + lia.
    + intros j e' Hj. rewrite <- (Hf (S j) e' Hj). f_equal. lia.
    + rewrite <- Hok. f_equal. simpl. lia.
    + exists w'. split; [exact Hrun|]. simpl in *.
      split; [done|]. split; [|split; [|done]].
      * rewrite Hc, <- app_assoc. f_equal. simpl. rewrite Nat.add_0_r. f_equal.
        apply imap_ext. intros j e' _. simpl. do 2 f_equal. lia.
      * rewrite Ht, <- app_assoc. f_equal. simpl.
        rewrite Z.mul_1_r. f_equal.
        rewrite <- fmap_S_seq, <- list_fmap_compose. apply list_fmap_ext.
        intros _ j _. simpl. f_equal.
        rewrite Nat2Z.inj_succ, Z.pow_succ_r by lia. lia.
Qed.

Lemma retry_loop_exhausted fuel fault k upd maxRetries attempt backoff errs last w :
  (attempt + length errs + 1 = maxRetries)%nat → (length errs < fuel)%nat →
  (∀ j e, (errs ++ [last]) !! j = Some e → fault (attempt + j)%nat = Some e) →
  ∃ w',
    retry_loop fuel fault k upd maxRetries attempt backoff w = (Throw last, w')
    ∧ signals w' = signals w
    ∧ journal w' = journal w
    ∧ console w'
      = console w
        ++ imap (λ j e, ErrUpdateAttempt (S (attempt + j)) e) (errs ++ [last])
    ∧ timers w'
      = timers w ++ ((λ j, Sleep (backoff * 2 ^ Z.of_nat j)) <$> seq 0 (length errs))
    ∧ outbox w' = outbox w
    ∧ signal_publish_log w' = signal_publish_log w.
Proof.
  revert fuel attempt backoff w.
  induction errs as [|e errs IH]; intros fuel attempt backoff w Hlt Hfuel Hf.
  - destruct fuel as [|fuel]; [simpl in Hfuel; lia|]. cbn [retry_loop].
    simpl in Hlt.
    assert ((attempt <? maxRetries)%nat = true) as -> by (apply Nat.ltb_lt; lia).
    pose proof (Hf 0%nat last eq_refl) as H0. rewrite Nat.add_0_r in H0.
    unfold try_catch, signals_updateOne. rewrite H0.
    unfold throw, bind, log. simpl.
    assert ((maxRetries <=? S attempt)%nat = true) as -> by (apply Nat.leb_le; lia).
    eexists. split; [reflexivity|]. simpl. rewrite Nat.add_0_r, app_nil_r.
    repeat split; done.
  - destruct fuel as [|fuel]; [simpl in Hfuel; lia|]. cbn [retry_loop].
    simpl in Hlt, Hfuel.
    assert ((attempt <? maxRetries)%nat = true) as -> by (apply Nat.ltb_lt; lia).
    pose proof (Hf 0%nat e eq_refl) as H0. rewrite Nat.add_0_r in H0.
    unfold try_catch, signals_updateOne. rewrite H0.
    unfold throw, bind, log, setTimeout. simpl.
    assert ((maxRetries <=? S attempt)%nat = false) as -> by (apply Nat.leb_gt; lia).
    destruct (IH fuel (S attempt) (backoff * 2)
                (add_timer (Sleep backoff) (add_log (ErrUpdateAttempt (S attempt) e) w)))
      as (w' & Hrun & Hs & Hj & Hc & Ht & Ho & Hl).
    + lia.
    + lia.
    + intros j e' Hj. rewrite <- (Hf (S j) e' Hj). f_equal. lia.
    + exists w'. split; [exact Hrun|]. simpl in *.
      split; [done|]. split; [done|]. split; [|split; [|done]].
      * rewrite Hc, <- app_assoc. f_equal. simpl. rewrite Nat.add_0_r. f_equal.
        apply imap_ext. intros j e' _. simpl. do 2 f_equal. lia.
      * rewrite Ht, <- app_assoc. f_equal. simpl.
        rewrite Z.mul_1_r. f_equal.
        rewrite <- fmap_S_seq, <- list_fmap_compose. apply list_fmap_ext.
        intros _ j _. simpl. f_equal.
        rewrite Nat2Z.inj_succ, Z.pow_succ_r by lia. lia.
Qed.

(** X6.  [updateSignalDocumentWithRetry] with [maxRetries] attempts: when
    the first attempts throw the errors [errs] (fewer than [maxRetries])
    and the next one goes through, the call returns [true]; the update is
    applied once; every failed attempt is logged with its number, starting
    at 1; after the j-th failure (counting from 0) the loop sleeps
    1000 * 2^j milliseconds; nothing is sent and the ledger is untouched. *)
Theorem retry_succeeds_after_failures fault k upd maxRetries errs w :
  (length errs < maxRetries)%nat →
  (∀ j e, errs !! j = Some e → fault j = Some e) →
  fault (length errs) = None →
  ∃ w',
    updateSignalDocumentWithRetry fault k upd maxRetries w = (Ok (Some true), w')
    ∧ signals w' = (findOneAndUpdate k (λ _, true) upd (signals w)).2
    ∧ console w' = console w ++ imap (λ j e, ErrUpdateAttempt (S j) e) errs
    ∧ timers w'
      = timers w ++ ((λ j, Sleep (1000 * 2 ^ Z.of_nat j)) <$> seq 0 (length errs))
    ∧ outbox w' = outbox w
    ∧ signal_publish_log w' = signal_publish_log w.
Proof.
  intros Hlt Hf Hok. unfold updateSignalDocumentWithRetry.
  apply (retry_loop_after_failures maxRetries fault k upd maxRetries 0 1000 errs w);
    simpl; auto.
Qed.

Lemma retry_succeeds_after_failures_witness :
  ∃ w',
    updateSignalDocumentWithRetry ex_fault_twice 1
      (set_active 1101 501 "-1001") 3 (ex_world_of ex_one ∅)
    = (Ok (Some true), w')
    ∧ signals w'
      = (findOneAndUpdate 1 (λ _, true) (set_active 1101 501 "-1001")
           (signals (ex_world_of ex_one ∅))).2
    ∧ console w'
      = console (ex_world_of ex_one ∅)
        ++ imap (λ j e, ErrUpdateAttempt (S j) e) ["timeout"; "not primary"]
    ∧ timers w'
      = timers (ex_world_of ex_one ∅)
        ++ ((λ j, Sleep (1000 * 2 ^ Z.of_nat j)) <$> seq 0 2)
    ∧ outbox w' = outbox (ex_world_of ex_one ∅)
    ∧ signal_publish_log w' = signal_publish_log (ex_world_of ex_one ∅).
Proof.
  apply (retry_succeeds_after_failures ex_fault_twice 1
           (set_active 1101 501 "-1001") 3 ["timeout"; "not primary"]
           (ex_world_of ex_one ∅)).
  - simpl. lia.
  - intros [|[|j]] e; simpl; intros [= <-]; reflexivity.
  - reflexivity.
Defined.

(** X7.  When all [maxRetries] attempts throw, the call throws the error
    of the last attempt: the store and the journal are as before, every
    attempt is logged, and the loop has slept [maxRetries - 1] times
    (1000, 2000, 4000, ... milliseconds), not after the last failure. *)
Theorem retry_exhausted_rethrows_last fault k upd errs last w :
  (∀ j e, (errs ++ [last]) !! j = Some e → fault j = Some e) →
  ∃ w',
    updateSignalDocumentWithRetry fault k upd (S (length errs)) w = (Throw last, w')
    ∧ signals w' = signals w
    ∧ journal w' = journal w
    ∧ console w'
      = console w ++ imap (λ j e, ErrUpdateAttempt (S j) e) (errs ++ [last])
    ∧ timers w'
      = timers w ++ ((λ j, Sleep (1000 * 2 ^ Z.of_nat j)) <$> seq 0 (length errs))
    ∧ outbox w' = outbox w
    ∧ signal_publish_log w' = signal_publish_log w.
Proof.
  intros Hf. unfold updateSignalDocumentWithRetry.
  apply (retry_loop_exhausted (S (length errs)) fault k upd (S (length errs)) 0 1000
           errs last w); simpl; auto; lia.
Qed.

Lemma retry_exhausted_rethrows_last_witness :
  ∃ w',
    updateSignalDocumentWithRetry (λ _, Some "mongo unreachable") 1
      (set_active 1101 501 "-1001") 4 (ex_world_of ex_one ∅)
    = (Throw "mongo unreachable", w')
    ∧ signals w' = signals (ex_world_of ex_one ∅)
    ∧ journal w' = journal (ex_world_of ex_one ∅)
    ∧ console w'
      = console (ex_world_of ex_one ∅)
        ++ imap (λ j e, ErrUpdateAttempt (S j) e)
             (replicate 3 "mongo unreachable" ++ ["mongo unreachable"])
    ∧ timers w'
      = timers (ex_world_of ex_one ∅)
        ++ ((λ j, Sleep (1000 * 2 ^ Z.of_nat j)) <$> seq 0 3)
    ∧ outbox w' = outbox (ex_world_of ex_one ∅)
    ∧ signal_publish_log w' = signal_publish_log (ex_world_of ex_one ∅).
Proof.
  apply (retry_exhausted_rethrows_last (λ _, Some "mongo unreachable") 1
           (set_active 1101 501 "-1001") (replicate 3 "mongo unreachable")
           "mongo unreachable" (ex_world_of ex_one ∅)).
  intros [|[|[|[|j]]]] e; simpl; intros [= <-]; reflexivity.
Defined.

(** ** A send that fails *)

Section SendFails.

Variable tls : Z → string.
Variable tf2 : Js.value → string.

(** X8.  When the send of a claimed signal does not go through (no
    channel is configured for its tier, the formatter throws, or the
    transport throws), the iteration ends with one error line on the
    console and nothing else: no message, no ledger entry, no failure
    record, and the status is not reverted.  The signal keeps the status
    ['sending'] of its claim, and no later claim can win it. *)
Theorem signal_left_sending_when_send_fails env w k raw d e :
  signals w !! k = Some d →
  status d = pending →
  Js.truthy (entry_price d) || Js.truthy (entry d) = true →
  allowed (publish_type d)
    (last_published (signal_publish_log w) (publish_type d)) (now_claim env k) = true →
  delivery_error tls tf2 env k d = Some e →
  tick_item tls tf2 env (k, raw) w
  = (Ok tt,
     add_log (ErrSendingSignal (ref_of k d) e)
       (put_signals (<[k := set_claimed (now_claim env k) d]> (signals w)) w))
  ∧ ∀ now',
      claim k now' (<[k := set_claimed (now_claim env k) d]> (signals w))
      = (None, <[k := set_claimed (now_claim env k) d]> (signals w)).
Proof.
  intros Hk Hs Hentry Hallowed Herr. split.
  - apply is_pending_true in Hs.
    assert (negb (Js.truthy (entry_price d)) && negb (Js.truthy (entry d)) = false)
      as Hentry'.
    { destruct (Js.truthy (entry_price d)), (Js.truthy (entry d)); done. }
    unfold delivery_error in Herr.
    destruct (tick_item tls tf2 env (k, raw) w) as [r w'] eqn:H.
    unfold tick_item in H. unfold_run. simpl in H. rewrite Hk, Hs in H.
    simpl in H. autorewrite with claimed in H. rewrite Hentry' in H.
    change (publish_type (set_claimed ?n d)) with (publish_type d) in H.
    change (signal_publish_log (put_signals ?c w)) with (signal_publish_log w) in H.
    rewrite Hallowed in H. simpl in H.
    change (chatId_of env (set_claimed ?n d)) with (chatId_of env d) in H.
    change (ref_of k (set_claimed ?n d)) with (ref_of k d) in H.
    destruct (negb (env_truthy (chatId_of env d))); simpl in H.
    { injection Herr as <-. by injection H as <- <-. }
    autorewrite with claimed in H.
    destruct (formatSignalMessage tls tf2 d) as [body|e1]; simpl in H.
    2:{ injection Herr as <-. by injection H as <- <-. }
    destruct (telegram_signal env k) as [mid|e1]; [done|].
    injection Herr as <-. simpl in H. by injection H as <- <-.
  - intros now'. apply claim_lost. intros d0. rewrite lookup_insert_eq.
    intros [= <-]. simpl. unfold sending, pending. congruence.
Qed.

End SendFails.

Lemma signal_left_sending_when_send_fails_witness :
  tick_item ex_toLocaleString ex_toFixed2 ex_env_signal_rejected (1, ex_signal)
    (ex_world_of ex_one ∅)
  = (Ok tt,
     add_log (ErrSendingSignal (ref_of 1 ex_signal) "403 Forbidden")
       (put_signals
          (<[1 := set_claimed (now_claim ex_env_signal_rejected 1) ex_signal]>
             (signals (ex_world_of ex_one ∅)))
          (ex_world_of ex_one ∅)))
  ∧ ∀ now',
      claim 1 now'
        (<[1 := set_claimed (now_claim ex_env_signal_rejected 1) ex_signal]>
           (signals (ex_world_of ex_one ∅)))
      = (None,
         <[1 := set_claimed (now_claim ex_env_signal_rejected 1) ex_signal]>
           (signals (ex_world_of ex_one ∅))).
Proof.
  apply (signal_left_sending_when_send_fails ex_toLocaleString ex_toFixed2
           ex_env_signal_rejected (ex_world_of ex_one ∅) 1 ex_signal ex_signal
           "403 Forbidden"); vm_compute; reflexivity.
Defined.

(** ** The first signal of a tier is sent, the next one deferred *)

Lemma entry_present d :
  Js.truthy (entry_price d) || Js.truthy (entry d) = true →
  negb (Js.truthy (entry_price d)) && negb (Js.truthy (entry d)) = false.
Proof. destruct (Js.truthy (entry_price d)), (Js.truthy (entry d)); done. Qed.

Lemma last_published_insert_ne ledger type type' when :
  type ≠ type' →
  last_published (<[type := Some when]> ledger) type' = last_published ledger type'.
Proof. intros H. unfold last_published. by rewrite lookup_insert_ne. Qed.

Section FirstSentNextDeferred.

Variable tls : Z → string.
Variable tf2 : Js.value → string.

(** The iteration of a candidate whose send and commit go through. *)
Lemma tick_item_sends env w k raw d chat body mid :
  signals w !! k = Some d → status d = pending →
  Js.truthy (entry_price d) || Js.truthy (entry d) = true →
  allowed (publish_type d)
    (last_published (signal_publish_log w) (publish_type d)) (now_claim env k) = true →
  chatId_of env d = Some chat → chat ≠ EmptyString →
  formatSignalMessage tls tf2 d = Ok body →
  telegram_signal env k = Ok mid →
  updateOne_fault env k 0 = None →
  publish_log_fault env k = None →
  ∃ w',
    tick_item tls tf2 env (k, raw) w = (Ok tt, w')
    ∧ signals w'
      = <[k := set_active (now_sent env k) mid chat (set_claimed (now_claim env k) d)]>
          (<[k := set_claimed (now_claim env k) d]> (signals w))
    ∧ signal_publish_log w'
      = <[publish_type d := Some (now_sent env k)]> (signal_publish_log w)
    ∧ outbox w' = outbox w ++ [mkSent chat body mid]
    ∧ telegram_signal_logs w' = telegram_signal_logs w.
Proof.
  intros Hk Hs Hentry Hallowed Hchat Hne Hbody Hsend Hcommit Hledger.
  apply is_pending_true in Hs. apply entry_present in Hentry.
  assert (negb (env_truthy (chatId_of env d)) = false) as Hconf.
  { rewrite Hchat. unfold env_truthy. apply String.eqb_neq in Hne.
    by rewrite Hne. }
  destruct (tick_item tls tf2 env (k, raw) w) as [r w'] eqn:H.
  unfold tick_item in H. unfold_run. simpl in H. rewrite Hk, Hs in H.
  simpl in H. autorewrite with claimed in H. rewrite Hentry in H.
  change (publish_type (set_claimed ?n d)) with (publish_type d) in H.
  change (signal_publish_log (put_signals ?c w)) with (signal_publish_log w) in H.
  rewrite Hallowed in H. simpl in H.
  change (chatId_of env (set_claimed ?n d)) with (chatId_of env d) in H.
  change (ref_of k (set_claimed ?n d)) with (ref_of k d) in H.
  rewrite Hconf in H. autorewrite with claimed in H. rewrite Hbody, Hsend in H.
  simpl in H. rewrite Hcommit in H. simpl in H.
  rewrite lookup_insert_eq in H. simpl in H.
  change (publish_type (set_claimed ?n d)) with (publish_type d) in H.
  rewrite Hledger in H. simpl in H. rewrite Hchat in H. simpl in H.
  injection H as <- <-. eexists. split; [reflexivity|]. simpl. done.
Qed.

(** The iteration of a candidate that comes inside the window. *)
Lemma tick_item_defers env w k raw d :
  signals w !! k = Some d → status d = pending →
  Js.truthy (entry_price d) || Js.truthy (entry d) = true →
  allowed (publish_type d)
    (last_published (signal_publish_log w) (publish_type d)) (now_claim env k) = false →
  defer_fault env k = None →
  ∃ w',
    tick_item tls tf2 env (k, raw) w = (Ok tt, w')
    ∧ signals w'
      = <[k := set_deferred (now_claim env k) (set_claimed (now_claim env k) d)]>
          (<[k := set_claimed (now_claim env k) d]> (signals w))
    ∧ signal_publish_log w' = signal_publish_log w
    ∧ outbox w' = outbox w
    ∧ telegram_signal_logs w' = telegram_signal_logs w.
Proof.
  intros Hk Hs Hentry Hallowed Hdefer.
  apply is_pending_true in Hs. apply entry_present in Hentry.
  destruct (tick_item tls tf2 env (k, raw) w) as [r w'] eqn:H.
  unfold tick_item in H. unfold_run. simpl in H. rewrite Hk, Hs in H.
  simpl in H. autorewrite with claimed in H. rewrite Hentry in H.
  change (publish_type (set_claimed ?n d)) with (publish_type d) in H.
  change (signal_publish_log (put_signals ?c w)) with (signal_publish_log w) in H.
  rewrite Hallowed in H. simpl in H. rewrite Hdefer in H. simpl in H.
  rewrite lookup_insert_eq, is_sending_claimed in H. simpl in H.
  injection H as <- <-. eexists. split; [reflexivity|]. simpl. done.
Qed.

Lemma publishNews_frame env w :
  ∃ news,
    outbox (publishNewsIfReady tls env w).2 = outbox w ++ news
    ∧ (length news ≤ 1)%nat
    ∧ last_published (signal_publish_log (publishNewsIfReady tls env w).2) "premium"
      = last_published (signal_publish_log w) "premium"
    ∧ signals (publishNewsIfReady tls env w).2 = signals w.
Proof.
  destruct (publishNewsIfReady tls env w) as [r w'] eqn:H.
  unfold publishNewsIfReady in H. unfold_run. simpl in H.
  destruct (negb (news_allowed env (last_published (signal_publish_log w) "news")
                    (now_news env))); simpl in H.
  { injection H as <- <-. exists []. rewrite app_nil_r. simpl.
    repeat split; lia. }
  destruct (find_news (now_news env) (news_updates w)) as [[k n]|]; simpl in H.
  2:{ injection H as <- <-. exists []. rewrite app_nil_r. simpl.
      repeat split; lia. }
  exec H; simpl; rewrite ?last_published_insert_ne by done;
    first [ exists []; rewrite app_nil_r; simpl; repeat split; (done || lia)
          | eexists [_]; simpl; repeat split; (done || lia) ].
Qed.

Lemma for_each_tick_item_ok env cands w :
  (for_each cands (tick_item tls tf2 env) w).1 = Ok tt.
Proof.
  revert w. induction cands as [|cand rest IH]; intros w; [done|].
  cbn [for_each]. unfold bind.
  pose proof (tick_item_ok tls tf2 env cand w) as Hok.
  destruct (tick_item tls tf2 env cand w) as [r w1]. simpl in Hok. subst r.
  apply IH.
Qed.

(** A running tick: the loop over the batch, the news step, the timer. *)
Lemma tick_run env w :
  running env = true →
  tick tls tf2 env w
  = (Ok tt,
     add_timer (NextTick (Z.max 10000 (intervalMs env)))
       (publishNewsIfReady tls env
          (for_each (fetch_candidates (now_fetch env) 10 (signals w))
             (tick_item tls tf2 env) w).2).2).
Proof.
  intros Hr. unfold tick. rewrite Hr. simpl.
  unfold bind at 1, try_catch, bind at 1, fetchPendingSignals, setTimeout. simpl.
  unfold bind at 1.
  pose proof (for_each_tick_item_ok env
                (fetch_candidates (now_fetch env) 10 (signals w)) w) as Hloop.
  destruct (for_each _ _ w) as [r wl]. simpl in Hloop. subst r. simpl.
  pose proof (publishNews_ok tls env wl) as Hnews.
  destruct (publishNewsIfReady tls env wl) as [r wn]. simpl in Hnews. subst r.
  done.
Qed.


End FirstSentNextDeferred.


(** ** The escape function *)

Lemma escape_app a b : escape (a +:+ b) = escape a +:+ escape b.
Proof.
  induction a as [|c a IH]; simpl; [done|].
  destruct (special c); simpl; by rewrite IH.
Qed.

Lemma escape_length s :
  String.length (escape s) = (String.length s + specials s)%nat.
Proof.
  induction s as [|c s IH]; simpl; [done|].
  destruct (special c); simpl; rewrite IH; lia.
Qed.

Lemma escape_plain s : specials s = 0%nat → escape s = s.
Proof.
  induction s as [|c s IH]; simpl; [done|].
  destruct (special c); simpl; [lia|]. intros H. by rewrite IH.
Qed.

Lemma escape_head_not_special s c r : escape s = String c r → special c = false.
Proof.
  destruct s as [|x s]; simpl; [done|].
  destruct (special x) eqn:Hx; intros [= <- _]; [done|exact Hx].
Qed.

Lemma escape_inj a b : escape a = escape b → a = b.
Proof.
  revert b. induction a as [|x a IH]; intros [|y b]; simpl.
  - done.
  - destruct (special y); done.
  - destruct (special x); done.
  - destruct (special x) eqn:Hx, (special y) eqn:Hy.
    + intros [= -> H]. f_equal. by apply IH.
    + intros [= <- H]. symmetry in H. apply escape_head_not_special in H.
      congruence.
    + intros [= -> H]. apply escape_head_not_special in H. congruence.
    + intros [= -> H]. f_equal. by apply IH.
Qed.

(** X10.  [escapeMarkdown] loses nothing: two different texts have
    different escaped forms. *)
Theorem escapeMarkdown_injective a b :
  escapeMarkdown (Js.Str a) = escapeMarkdown (Js.Str b) → a = b.
Proof. unfold escapeMarkdown. simpl. apply escape_inj. Qed.

Lemma escapeMarkdown_injective_witness : "BTC_USDT" = "BTC_USDT".
Proof. apply (escapeMarkdown_injective "BTC_USDT" "BTC_USDT"). reflexivity. Defined.

(** X11.  Escaping works piece by piece, adds exactly one backslash for
    every character of the escape class and nothing else, so that a text
    without such characters is returned as it is. *)
Theorem escape_piecewise :
  (∀ a b, escape (a +:+ b) = escape a +:+ escape b)
  ∧ (∀ s, String.length (escape s) = (String.length s + specials s)%nat)
  ∧ (∀ s, escape s = s ↔ specials s = 0%nat).
Proof.
  split; [apply escape_app|]. split; [apply escape_length|].
  intros s. split; [|apply escape_plain].
  intros H. pose proof (escape_length s) as Hl. rewrite H in Hl. lia.
Qed.

(** ** Bold markers in the messages *)

Lemma bare_app c p a b :
  bare c p (a +:+ b) = (bare c p a + bare c (ends_backslash p a) b)%nat.
Proof.
  revert p. induction a as [|x a IH]; intros p; simpl; [done|].
  rewrite IH. lia.
Qed.

Lemma special_star_free x : special x = false → Ascii.eqb x star = false.
Proof.
  intros H. destruct (Ascii.eqb_spec x star) as [->|]; [|done].
  vm_compute in H. done.
Qed.

Lemma special_not_backslash x : special x = true → Ascii.eqb x backslash = false.
Proof.
  intros H. destruct (Ascii.eqb_spec x backslash) as [->|]; [|done].
  vm_compute in H. done.
Qed.

Lemma bare_star_escape p s : bare star p (escape s) = 0%nat.
Proof.
  revert p. induction s as [|x s IH]; intros p; simpl; [done|].
  destruct (special x) eqn:Hx; simpl.
  - rewrite andb_false_r. simpl. apply IH.
  - rewrite (special_star_free x Hx). simpl. apply IH.
Qed.

Lemma bare_star_escapeMarkdown p v : bare star p (escapeMarkdown v) = 0%nat.
Proof. apply bare_star_escape. Qed.

(** Lines are joined by a newline, so every line is read from a fresh
    state. *)
Lemma bare_star_join l ls :
  bare star false (join_lines (l :: ls))
  = (bare star false l + bare star false (join_lines ls))%nat.
Proof.
  unfold join_lines. destruct ls as [|l' ls]; simpl; [lia|].
  rewrite bare_app. simpl. done.
Qed.

Lemma even_stars_join ls :
  Forall (λ l, Nat.even (bare star false l) = true) ls →
  Nat.even (bare star false (join_lines ls)) = true.
Proof.
  induction 1 as [|l ls Hl _ IH]; [done|].
  rewrite bare_star_join, Nat.even_add, Hl, IH. done.
Qed.

#[local] Arguments escapeMarkdown : simpl never.

Ltac stars :=
  simpl; rewrite ?bare_app, ?bare_star_escapeMarkdown; simpl;
  rewrite ?bare_app, ?bare_star_escapeMarkdown; simpl; try done.

Section Markers.

Variable tls : Z → string.
Variable tf2 : Js.value → string.

(** X12.  The header line of a news message opens a bold span with an
    asterisk that nothing closes: whatever the item holds, the message
    contains an odd number of asterisks that are not escaped. *)
Theorem news_message_bold_unbalanced item :
  Nat.odd (bare star false (formatNewsMessage tls item)) = true.
Proof.
  unfold formatNewsMessage. rewrite <- app_comm_cons, app_nil_l.
  rewrite bare_star_join, Nat.odd_add.
  assert (Nat.odd (bare star false
            ("📰 *" +:+ escapeMarkdown (Js.or (title item) (Js.Str "News Update"))))
          = true) as ->.
  { stars. }
  rewrite <- Nat.negb_even, even_stars_join; [done|].
  repeat apply Forall_app_2.
  - destruct (when_truthy (summary item)); simpl; repeat constructor. stars.
  - destruct (when_truthy (Js.or (source item) (provider item))); simpl;
      repeat constructor. stars.
  - destruct (when_truthy (url item)); simpl; repeat constructor. stars.
  - destruct (created_at item); simpl; repeat constructor. stars.
Qed.

(** X13.  In a signal message every bold span is closed: the number of
    asterisks that are not escaped is even, whatever the payload and the
    warnings hold. *)
Theorem signal_message_bold_balanced sig body :
  formatSignalMessage tls tf2 sig = Ok body →
  Nat.even (bare star false body) = true.
Proof.
  unfold formatSignalMessage.
  destruct (toUpperCase (Js.or (market_type sig) (Js.Str EmptyString)))
    as [market|e]; [|done].
  intros [= <-]. apply even_stars_join.
  do 6 (apply Forall_cons_2; [stars|]).
  rewrite !Forall_app. repeat split.
  - destruct (defined (confidence_level sig)); simpl; repeat constructor. stars.
  - destruct (defined (risk_reward_ratio sig)); simpl; repeat constructor. stars.
  - destruct (when_truthy (reasoning sig)); simpl; repeat constructor. stars.
  - destruct (generated_at sig); simpl; repeat constructor. stars.
  - destruct (expires_at sig); simpl; repeat constructor. stars.
  - destruct (warnings_of sig) as [ws|]; simpl; repeat constructor.
    apply Forall_forall. intros l Hl. apply list_elem_of_fmap in Hl as (v & -> & _).
    stars.
  - repeat constructor.
Qed.

End Markers.

Lemma signal_message_bold_balanced_witness :
  Nat.even (bare star false
    (match formatSignalMessage ex_toLocaleString ex_toFixed2 ex_signal with
     | Ok body => body
     | Throw _ => EmptyString
     end)) = true.
Proof.
  apply (signal_message_bold_balanced ex_toLocaleString ex_toFixed2 ex_signal).
  vm_compute. reflexivity.
Defined.

(** ** What a signal message always holds *)

Lemma prefix_app n a b : String.prefix n a = true → String.prefix n (a +:+ b) = true.
Proof.
  revert a. induction n as [|c n IH]; intros a.
  { intros _. by destruct (a +:+ b). }
  destruct a as [|x a]; [intros H; discriminate H|].
  change (String x a +:+ b) with (String x (a +:+ b)). cbn [String.prefix].
  destruct (Ascii.ascii_dec c x); [apply IH|intros H; discriminate H].
Qed.

Lemma occurs_prefix n s : String.prefix n s = true → occurs n s = true.
Proof. intros H. destruct s; cbn [occurs]; rewrite H; reflexivity. Qed.

Lemma occurs_app_l n a b : occurs n a = true → occurs n (a +:+ b) = true.
Proof.
  induction a as [|x a IH]; simpl.
  - rewrite orb_false_r. intros H. apply occurs_prefix.
    by apply (prefix_app n EmptyString b).
  - intros [H|H]%orb_true_iff; apply orb_true_iff.
    + left. by apply (prefix_app n (String x a) b).
    + right. by apply IH.
Qed.

Lemma occurs_app_r n a b : occurs n b = true → occurs n (a +:+ b) = true.
Proof.
  intros H. induction a as [|x a IH]; simpl; [done|].
  rewrite IH. apply orb_true_r.
Qed.

Lemma occurs_join n l ls :
  l ∈ ls → String.prefix n l = true → occurs n (join_lines ls) = true.
Proof.
  intros Hin Hp. unfold join_lines.
  induction ls as [|l0 ls IH]; [by apply elem_of_nil in Hin|].
  apply elem_of_cons in Hin as [->|Hin].
  - destruct ls; simpl; [by apply occurs_prefix|].
    apply occurs_app_l. by apply occurs_prefix.
  - destruct ls as [|l1 ls]; [by apply elem_of_nil in Hin|].
    change (String.concat nl (l0 :: l1 :: ls))
      with (l0 +:+ nl +:+ String.concat nl (l1 :: ls)).
    apply occurs_app_r, occurs_app_r. by apply IH.
Qed.

Section Complete.

Variable tls : Z → string.
Variable tf2 : Js.value → string.

(** X14.  [formatSignalMessage] throws exactly when [market_type] is a
    truthy value that is not a string (a number, [true]): the call of
    [toUpperCase] fails.  Otherwise it returns a text that holds the
    header, the pair, direction, entry, stop-loss and take-profit
    lines and the disclaimer, whatever else the payload holds or
    lacks. *)
Theorem formatSignalMessage_complete sig :
  match formatSignalMessage tls tf2 sig with
  | Throw e =>
      e = "toUpperCase is not a function"
      ∧ Js.truthy (market_type sig) = true
      ∧ ∀ s, market_type sig ≠ Js.Str s
  | Ok body =>
      (Js.truthy (market_type sig) = false ∨ ∃ s, market_type sig = Js.Str s)
      ∧ occurs "🔔 *NEW " body = true
      ∧ occurs "*Pair:* " body = true
      ∧ occurs "*Direction:* " body = true
      ∧ occurs "*Entry:* " body = true
      ∧ occurs "*Stop Loss:* " body = true
      ∧ occurs "*Take Profit:* " body = true
      ∧ occurs "_Not financial advice. Trade at your own risk._" body = true
  end.
Proof.
  unfold formatSignalMessage.
  destruct (toUpperCase (Js.or (market_type sig) (Js.Str EmptyString)))
    as [market|e] eqn:Hup.
  - split.
    { unfold Js.or in Hup. destruct (Js.truthy (market_type sig)) eqn:Ht; [|by left].
      right. destruct (market_type sig); try done. by eexists. }
    repeat split.
    1: eapply occurs_join; [apply list_elem_of_here|apply prefix_app; reflexivity].
    1: eapply occurs_join; [do 1 apply list_elem_of_further; apply list_elem_of_here|apply prefix_app; reflexivity].
    1: eapply occurs_join; [do 2 apply list_elem_of_further; apply list_elem_of_here|apply prefix_app; reflexivity].
    1: eapply occurs_join; [do 3 apply list_elem_of_further; apply list_elem_of_here|apply prefix_app; reflexivity].
    1: eapply occurs_join; [do 4 apply list_elem_of_further; apply list_elem_of_here|apply prefix_app; reflexivity].
    1: eapply occurs_join; [do 5 apply list_elem_of_further; apply list_elem_of_here|apply prefix_app; reflexivity].
    apply (occurs_join _ "_Not financial advice. Trade at your own risk._");
      [|reflexivity].
    rewrite !app_assoc. apply elem_of_app. right. set_solver.
  - unfold Js.or in Hup. destruct (Js.truthy (market_type sig)) eqn:Ht; [|done].
    destruct (market_type sig); try done; injection Hup as <-; done.
Qed.

End Complete.

(** ** Numbers read from text *)

Ltac digit :=
  repeat match goal with
         | |- context [digit_value ?c] =>
             let v := eval vm_compute in (digit_value c) in
             change (digit_value c) with v
         end.

Lemma digits_value_acc d acc :
  digits_value (Z.pos acc) (NilEmpty.string_of_uint d) = Z.pos (Pos.of_uint_acc d acc).
Proof.
  revert acc. induction d; intros acc; simpl; [done|..];
    digit; rewrite <- IHd; f_equal; lia.
Qed.

Lemma digits_value_uint d :
  digits_value 0 (NilEmpty.string_of_uint d) = Z.of_N (Pos.of_uint d).
Proof.
  induction d; simpl; [done|exact IHd|..]; digit; apply (digits_value_acc d).
Qed.

Lemma digits_uint d :
  digits (NilEmpty.string_of_uint d) = NilEmpty.string_of_uint d.
Proof. induction d; simpl; [done|..]; by rewrite IHd. Qed.

Lemma digits_app_stop a r :
  digits a = a →
  match r with String c _ => is_digit c = false | EmptyString => True end →
  digits (a +:+ r) = a.
Proof.
  induction a as [|x a IH]; simpl.
  - intros _ Hr. destruct r as [|c r]; simpl; [done|]. by rewrite Hr.
  - destruct (is_digit x); [|done]. intros [= Ha] Hr. f_equal. by apply IH.
Qed.

Lemma string_of_pos_nonempty p :
  ∃ c r, NilEmpty.string_of_uint (Pos.to_uint p) = String c r ∧ is_digit c = true.
Proof.
  pose proof (DecimalPos.Unsigned.to_uint_nonnil p) as Hn.
  destruct (Pos.to_uint p); [done|..]; simpl; by eexists _, _.
Qed.

Lemma digit_not_space c : is_digit c = true → is_space c = false.
Proof.
  unfold is_digit, is_space. intros [H1 H2]%andb_true_iff.
  apply Nat.leb_le in H1, H2.
  destruct (Nat.leb_spec (nat_of_ascii c) 13); [lia|].
  destruct (Nat.eqb_spec (nat_of_ascii c) 32); [lia|].
  by rewrite andb_false_r.
Qed.

Lemma digit_not_sign c :
  is_digit c = true →
  Ascii.eqb c minus_sign = false ∧ Ascii.eqb c plus_sign = false.
Proof.
  intros Hc. split; apply Ascii.eqb_neq; intros ->; vm_compute in Hc; done.
Qed.

(** A text that starts with a run of digits [String c s], followed by
    something that is no digit. *)
Lemma parseInt_digits c s r :
  is_digit c = true → digits (String c s) = String c s →
  match r with String x _ => is_digit x = false | EmptyString => True end →
  parseInt (String c s +:+ r) = Some (digits_value 0 (String c s))
  ∧ parseInt (String minus_sign (String c s +:+ r))
    = Some (- digits_value 0 (String c s)).
Proof.
  intros Hc Hd Hr. destruct (digit_not_sign c Hc) as [Hm Hp].
  pose proof (digits_app_stop (String c s) r Hd Hr) as Happ.
  change (String c s +:+ r) with (String c (s +:+ r)) in *.
  unfold parseInt. split.
  - cbn [trim_start]. rewrite (digit_not_space c Hc), Hm, Hp, Happ. done.
  - cbn [trim_start]. change (is_space minus_sign) with false. cbv iota.
    change (Ascii.eqb minus_sign minus_sign) with true. cbv iota.
    rewrite Happ. done.
Qed.

Lemma parseInt_pos p r :
  match r with String c _ => is_digit c = false | EmptyString => True end →
  parseInt (NilEmpty.string_of_uint (Pos.to_uint p) +:+ r) = Some (Z.pos p)
  ∧ parseInt (String minus_sign (NilEmpty.string_of_uint (Pos.to_uint p) +:+ r))
    = Some (Z.neg p).
Proof.
  intros Hr. destruct (string_of_pos_nonempty p) as (c & s & Hs & Hc).
  pose proof (digits_uint (Pos.to_uint p)) as Hd.
  pose proof (digits_value_uint (Pos.to_uint p)) as Hv.
  rewrite DecimalPos.Unsigned.of_to in Hv. rewrite Hs in *.
  destruct (parseInt_digits c s r Hc Hd Hr) as [H1 H2].
  rewrite H1, H2, Hv. done.
Qed.

Lemma parseInt_reads_String_aux n rest :
  match rest with String c _ => is_digit c = false | EmptyString => True end →
  parseInt (Js.toString (Js.Num n) +:+ rest) = Some n.
Proof.
  intros Hr. unfold Js.toString, NilZero.string_of_int.
  destruct n as [|p|p]; simpl.
  - unfold parseInt. simpl. destruct rest as [|c r]; simpl; [done|].
    by rewrite Hr.
  - unfold NilZero.string_of_uint.
    pose proof (DecimalPos.Unsigned.to_uint_nonnil p) as Hn.
    destruct (Pos.to_uint p) eqn:Hu; [done|..]; rewrite <- Hu;
      by apply parseInt_pos.
  - unfold NilZero.string_of_uint.
    pose proof (DecimalPos.Unsigned.to_uint_nonnil p) as Hn.
    destruct (Pos.to_uint p) eqn:Hu; [done|..]; rewrite <- Hu;
      by apply parseInt_pos.
Qed.

(** X15.  [parseInt] reads back what [String] prints: for every integer
    [n] of at most 2^53 in absolute value, [parseInt(String(n) + rest, 10)]
    is [n] whenever [rest] does not start with a digit; text after the
    number is ignored. *)
Theorem parseInt_reads_String n rest :
  - 2 ^ 53 ≤ n ≤ 2 ^ 53 →
  match rest with String c _ => is_digit c = false | EmptyString => True end →
  parseInt (Js.toString (Js.Num n) +:+ rest) = Some n.
Proof. intros _. apply parseInt_reads_String_aux. Qed.

Lemma parseInt_reads_String_witness :
  parseInt (Js.toString (Js.Num 5000) +:+ "ms") = Some 5000.
Proof. apply (parseInt_reads_String 5000 "ms"); [lia|reflexivity]. Defined.

Lemma toString_Num_truthy n : env_truthy (Some (Js.toString (Js.Num n))) = true.
Proof.
  unfold env_truthy, Js.toString, NilZero.string_of_int, NilZero.string_of_uint.
  destruct n as [|p|p]; simpl; [done| |done].
  pose proof (DecimalPos.Unsigned.to_uint_nonnil p) as Hn.
  by destruct (Pos.to_uint p).
Qed.

Lemma env_truthy_app a b :
  env_truthy (Some a) = true → env_truthy (Some (a +:+ b)) = true.
Proof. unfold env_truthy. by destruct a. Qed.

Lemma env_default_truthy s fallback :
  env_truthy (Some s) = true → env_default (Some s) fallback = s.
Proof.
  unfold env_truthy, env_default, env_or. intros H.
  apply negb_true_iff in H. by rewrite H.
Qed.

Lemma env_default_falsy raw fallback :
  env_truthy raw = false → fallback ≠ EmptyString → env_default raw fallback = fallback.
Proof.
  unfold env_truthy, env_default, env_or. destruct raw as [s|]; [|done].
  intros H _. apply negb_false_iff in H. by rewrite H.
Qed.


(** ** Referral codes *)

Lemma substring_app_l a b : substring 0 (String.length a) (a +:+ b) = a.
Proof.
  induction a as [|c a IH]; simpl; [by destruct b|]. by rewrite IH.
Qed.

Lemma substring_all b : substring 0 (String.length b) b = b.
Proof. induction b as [|c b IH]; simpl; [done|]. by rewrite IH. Qed.

Lemma substring_app_r a b :
  substring (String.length a) (String.length b) (a +:+ b) = b.
Proof.
  induction a as [|c a IH]; simpl; [apply substring_all|exact IH].
Qed.

Lemma length_app a b :
  String.length (a +:+ b) = (String.length a + String.length b)%nat.
Proof. induction a as [|c a IH]; simpl; [done|]. by rewrite IH. Qed.

Lemma all_chars_app p a b : all_chars p (a +:+ b) = all_chars p a && all_chars p b.
Proof.
  induction a as [|c a IH]; simpl; [done|]. rewrite IH. by rewrite andb_assoc.
Qed.

(** The two hexadecimal digits of a byte, in upper case. *)
Lemma hex_char_upper n :
  (n < 16)%nat → is_hex_upper (upper_ascii (hex_char n)) = true.
Proof.
  intros Hn. do 16 (destruct n as [|n]; [reflexivity|]). lia.
Qed.

Lemma hex_char_letter n :
  (n < 16)%nat → is_digit (upper_ascii (hex_char n)) = negb (10 <=? n)%nat.
Proof.
  intros Hn. do 16 (destruct n as [|n]; [reflexivity|]). lia.
Qed.

Lemma byte_bound b : (Byte.to_nat b < 256)%nat.
Proof. pose proof (Byte.to_nat_bounded b). lia. Qed.

Lemma randomSuffix_chars b1 b2 b3 :
  randomSuffix b1 b2 b3
  = String (upper_ascii (hex_char (Byte.to_nat b1 / 16)))
      (String (upper_ascii (hex_char (Byte.to_nat b1 mod 16)))
         (String (upper_ascii (hex_char (Byte.to_nat b2 / 16)))
            (String (upper_ascii (hex_char (Byte.to_nat b2 mod 16)))
               (String (upper_ascii (hex_char (Byte.to_nat b3 / 16)))
                  (String (upper_ascii (hex_char (Byte.to_nat b3 mod 16)))
                     EmptyString))))).
Proof. reflexivity. Qed.

Lemma randomSuffix_shape b1 b2 b3 :
  String.length (randomSuffix b1 b2 b3) = 6%nat
  ∧ all_chars is_hex_upper (randomSuffix b1 b2 b3) = true
  ∧ ∃ c r, randomSuffix b1 b2 b3 = String c r
           ∧ is_digit c = negb (160 <=? Byte.to_nat b1)%nat.
Proof.
  pose proof (byte_bound b1) as H1. pose proof (byte_bound b2) as H2.
  pose proof (byte_bound b3) as H3.
  rewrite randomSuffix_chars.
  split; [done|]. split.
  - cbn [all_chars].
    rewrite !hex_char_upper; [done|..];
      first [apply Nat.mod_upper_bound; lia | apply Nat.Div0.div_lt_upper_bound; lia].
  - eexists _, _. split; [reflexivity|].
    rewrite hex_char_letter by (apply Nat.Div0.div_lt_upper_bound; lia).
    f_equal.
    destruct (Nat.leb_spec 160 (Byte.to_nat b1)) as [Hge|Hlt].
    + apply Nat.leb_le. apply Nat.div_le_lower_bound; lia.
    + apply Nat.leb_gt. apply Nat.Div0.div_lt_upper_bound. lia.
Qed.

Lemma append_empty s : s +:+ EmptyString = s.
Proof.
  induction s as [|c s IH]; [done|].
  change (String c (s +:+ EmptyString) = String c s). by rewrite IH.
Qed.

Lemma digits_all s : digits s = s → all_chars is_digit s = true.
Proof.
  induction s as [|c s IH]; simpl; [done|].
  destruct (is_digit c); [|done]. intros [= H]. by apply IH.
Qed.

Lemma all_digits s : all_chars is_digit s = true → digits s = s.
Proof.
  induction s as [|c s IH]; simpl; [done|].
  destruct (is_digit c); [|done]. simpl. intros H. by rewrite IH.
Qed.

Lemma digits_app_all a b : digits a = a → digits (a +:+ b) = a +:+ digits b.
Proof.
  induction a as [|c a IH]; simpl; [done|].
  destruct (is_digit c); [|done]. intros [= H]. by rewrite IH.
Qed.

Lemma digits_idem s : digits (digits s) = digits s.
Proof.
  induction s as [|c s IH]; simpl; [done|].
  destruct (is_digit c) eqn:Hc; simpl; [|done]. by rewrite Hc, IH.
Qed.

Lemma digits_value_app acc a b :
  digits_value acc (a +:+ b) = digits_value (digits_value acc a) b.
Proof. revert acc. induction a as [|c a IH]; intros acc; simpl; [done|]. apply IH. Qed.

Lemma digit_value_bounds c : is_digit c = true → 0 ≤ digit_value c ≤ 9.
Proof.
  unfold is_digit, digit_value. intros [H1 H2]%andb_true_iff.
  apply Nat.leb_le in H1, H2. lia.
Qed.

Lemma digits_value_ge acc s :
  all_chars is_digit s = true → 0 ≤ acc → acc ≤ digits_value acc s.
Proof.
  revert acc. induction s as [|c s IH]; intros acc; simpl; [lia|].
  intros [Hc Hs]%andb_true_iff Hacc.
  pose proof (digit_value_bounds c Hc). specialize (IH (acc * 10 + digit_value c) Hs).
  lia.
Qed.

Lemma digits_value_lt acc s :
  all_chars is_digit s = true → 0 ≤ acc →
  digits_value acc s < (acc + 1) * 10 ^ Z.of_nat (String.length s).
Proof.
  revert acc. induction s as [|c s IH]; intros acc; [simpl; lia|].
  cbn [all_chars digits_value String.length].
  intros [Hc Hs]%andb_true_iff Hacc.
  pose proof (digit_value_bounds c Hc) as Hb.
  specialize (IH (acc * 10 + digit_value c) Hs).
  rewrite Nat2Z.inj_succ, Z.pow_succ_r by lia.
  assert (0 < 10 ^ Z.of_nat (String.length s)) by (apply Z.pow_pos_nonneg; lia).
  nia.
Qed.

Lemma digits_length s : (String.length (digits s) ≤ String.length s)%nat.
Proof.
  induction s as [|c s IH]; simpl; [done|]. destruct (is_digit c); simpl; lia.
Qed.

(** The decimal text of a number that is not negative. *)
Lemma toString_nat n :
  0 ≤ n →
  ∃ c s, Js.toString (Js.Num n) = String c s
         ∧ is_digit c = true ∧ digits (String c s) = String c s
         ∧ digits_value 0 (String c s) = n.
Proof.
  intros Hn. unfold Js.toString, NilZero.string_of_int.
  destruct n as [|p|p]; [| |lia]; simpl.
  - by eexists _, _.
  - destruct (string_of_pos_nonempty p) as (c & s & Hs & Hc).
    pose proof (DecimalPos.Unsigned.to_uint_nonnil p) as Hnil.
    pose proof (digits_uint (Pos.to_uint p)) as Hd.
    pose proof (digits_value_uint (Pos.to_uint p)) as Hv.
    rewrite DecimalPos.Unsigned.of_to in Hv.
    unfold NilZero.string_of_uint.
    destruct (Pos.to_uint p) eqn:Hu; [done|..]; rewrite <- Hu, Hs in *;
      by exists c, s.
Qed.

Lemma toString_negative n :
  n < 0 → ∃ s, Js.toString (Js.Num n) = String minus_sign s.
Proof.
  intros Hn. unfold Js.toString, NilZero.string_of_int.
  destruct n as [|p|p]; [lia|lia|]. simpl. by eexists.
Qed.

Lemma parseInt_all_digits c s :
  is_digit c = true → digits (String c s) = String c s →
  parseInt (String c s) = Some (digits_value 0 (String c s)).
Proof.
  intros Hc Hd.
  destruct (parseInt_digits c s EmptyString Hc Hd I) as [H _].
  by rewrite append_empty in H.
Qed.

Lemma generateReferralCode_rest u b1 b2 b3 :
  after_REF (generateReferralCode u b1 b2 b3)
  = Some (Js.toString (Js.Num u) +:+ randomSuffix b1 b2 b3).
Proof. reflexivity. Qed.

(** X17.  A code made by [generateReferralCode] for a user id that is
    not negative is valid for [isValidReferralCode], and
    [parseReferralCode] gives the user id back, whatever the three random
    bytes are.  For a negative id the code holds a minus sign and is not
    valid. *)
Theorem referral_code_round_trip u b1 b2 b3 :
  - 2 ^ 53 ≤ u ≤ 2 ^ 53 →
  if 0 <=? u then
    isValidReferralCode (generateReferralCode u b1 b2 b3) = true
    ∧ parseReferralCode (generateReferralCode u b1 b2 b3) = Some u
  else
    isValidReferralCode (generateReferralCode u b1 b2 b3) = false
    ∧ parseReferralCode (generateReferralCode u b1 b2 b3) = None.
Proof.
  intros _.
  destruct (randomSuffix_shape b1 b2 b3) as (Hlen & Hhex & _).
  unfold isValidReferralCode, parseReferralCode, match_full_code.
  rewrite generateReferralCode_rest. cbv zeta.
  rewrite length_app, Hlen, Nat.add_sub.
  rewrite substring_app_l.
  pose proof (substring_app_r (Js.toString (Js.Num u)) (randomSuffix b1 b2 b3)) as Hsub.
  rewrite Hlen in Hsub. rewrite Hsub, Hhex, andb_true_r.
  destruct (Z.leb_spec 0 u) as [Hu|Hu].
  - destruct (toString_nat u Hu) as (c & s & Hs & Hc & Hd & Hv).
    rewrite Hs. rewrite (digits_all _ Hd).
    assert ((6 <? String.length (String c s) + 6)%nat = true) as ->
      by (apply Nat.ltb_lt; simpl; lia).
    simpl. split; [done|].
    rewrite parseInt_all_digits by done. by rewrite Hv.
  - destruct (toString_negative u Hu) as (s & Hs). rewrite Hs.
    change (all_chars is_digit (String minus_sign s)) with false.
    rewrite andb_false_r. simpl. split; done.
Qed.

Lemma referral_code_round_trip_witness :
  isValidReferralCode (generateReferralCode 123456789 ex_byte_1A ex_byte_A1 ex_byte_1A)
  = true
  ∧ parseReferralCode (generateReferralCode 123456789 ex_byte_1A ex_byte_A1 ex_byte_1A)
    = Some 123456789.
Proof.
  apply (referral_code_round_trip 123456789 ex_byte_1A ex_byte_A1 ex_byte_1A). lia.
Defined.

(** X18.  [recordReferral] reads the referrer with [/^REF(\d+)/], which
    takes every digit after [REF].  On a code made by
    [generateReferralCode] for the user [u] this is [u] only when the
    random suffix starts with a letter (the first random byte is at least
    0xA0); when it starts with a digit the digits run on into the suffix
    and the referral is attributed to a user id of at least [10 * u].
    User ids are taken below 9 * 10^9, so that the number read stays
    below 2^53. *)
Theorem recordReferral_reads_into_suffix u b1 b2 b3 :
  0 < u < 9 * 10 ^ 9 →
  ∃ v, referrer_of_code (generateReferralCode u b1 b2 b3) = Some v
       ∧ v < 2 ^ 53
       ∧ (v = u ↔ (160 ≤ Byte.to_nat b1)%nat)
       ∧ ((Byte.to_nat b1 < 160)%nat → 10 * u ≤ v).
Proof.
  intros [Hu Hub].
  destruct (toString_nat u (Z.lt_le_incl _ _ Hu)) as (c & s & Hs & Hc & Hd & Hv).
  destruct (randomSuffix_shape b1 b2 b3) as (Hlen & Hhex & c1 & r1 & Hsuf & Hfirst).
  unfold referrer_of_code, match_code_prefix.
  rewrite generateReferralCode_rest, Hs.
  rewrite (digits_app_all _ _ Hd).
  change (String c s +:+ digits (randomSuffix b1 b2 b3))
    with (String c (s +:+ digits (randomSuffix b1 b2 b3))).
  cbn [String.eqb].
  change (String c (s +:+ digits (randomSuffix b1 b2 b3)))
    with (String c s +:+ digits (randomSuffix b1 b2 b3)).
  assert (digits (String c s +:+ digits (randomSuffix b1 b2 b3))
          = String c s +:+ digits (randomSuffix b1 b2 b3)) as Hall.
  { by rewrite digits_app_all, digits_idem. }
  change (String c s +:+ digits (randomSuffix b1 b2 b3))
    with (String c (s +:+ digits (randomSuffix b1 b2 b3))) in *.
  rewrite (parseInt_all_digits _ _ Hc Hall).
  change (String c (s +:+ digits (randomSuffix b1 b2 b3)))
    with (String c s +:+ digits (randomSuffix b1 b2 b3)).
  rewrite digits_value_app, Hv.
  eexists. split; [reflexivity|]. split.
  { assert (all_chars is_digit (digits (randomSuffix b1 b2 b3)) = true) as Hdig
      by apply digits_all, digits_idem.
    pose proof (digits_value_lt u _ Hdig (Z.lt_le_incl _ _ Hu)) as Hlt.
    pose proof (digits_length (randomSuffix b1 b2 b3)) as Hdl.
    rewrite Hlen in Hdl.
    assert (10 ^ Z.of_nat (String.length (digits (randomSuffix b1 b2 b3))) ≤ 10 ^ 6)
      by (apply Z.pow_le_mono_r; lia).
    nia. }
  rewrite Hsuf. simpl. rewrite Hfirst.
  destruct (Nat.leb_spec 160 (Byte.to_nat b1)) as [Hge|Hlt]; simpl.
  - split; [done|lia].
  - assert (is_digit c1 = true) as Hc1.
    { exact Hfirst. }
    pose proof (digit_value_bounds c1 Hc1) as Hb.
    assert (u * 10 + digit_value c1 ≤ digits_value (u * 10 + digit_value c1) (digits r1))
      as Hge.
    { apply digits_value_ge; [|lia]. apply digits_all, digits_idem. }
    split; [split; lia|lia].
Qed.

Lemma recordReferral_reads_into_suffix_witness :
  ∃ v, referrer_of_code (generateReferralCode 123456789 ex_byte_1A ex_byte_A1 ex_byte_1A)
       = Some v
       ∧ v < 2 ^ 53
       ∧ (v = 123456789 ↔ (160 ≤ Byte.to_nat ex_byte_1A)%nat)
       ∧ ((Byte.to_nat ex_byte_1A < 160)%nat → 10 * 123456789 ≤ v).
Proof.
  apply (recordReferral_reads_into_suffix 123456789 ex_byte_1A ex_byte_A1 ex_byte_1A).
  lia.
Defined.

(** ** Referrals in the application database *)

Lemma existsb_referred referred refs :
  existsb (λ r, referred_telegram_id r =? referred) refs = false
  ↔ referred ∉ referred_telegram_id <$> refs.
Proof.
  induction refs as [|r refs IH]; cbn [existsb].
  - split; [intros _ H; by apply elem_of_nil in H|done].
  - rewrite orb_false_iff, IH, fmap_cons, not_elem_of_cons, Z.eqb_neq.
    split; intros [H1 H2]; split; congruence.
Qed.

Lemma update_first_fmap {A B} (g : A → B) p f (l : list A) :
  (∀ x, g (f x) = g x) → g <$> (update_first p f l).2 = g <$> l.
Proof.
  intros Hg. induction l as [|x l IH]; [done|]. cbn [update_first].
  destruct (p x); [cbn [snd]; by rewrite !fmap_cons, Hg|].
  destruct (update_first p f l) as [r l']. cbn [snd] in *.
  by rewrite !fmap_cons, IH.
Qed.

Lemma recordReferral_keeps_unique fault now insertedId referred code db :
  NoDup (referred_telegram_id <$> app_referrals db) →
  NoDup (referred_telegram_id
         <$> app_referrals (recordReferral fault now insertedId referred code db).2).
Proof.
  intros Hnd. unfold recordReferral.
  destruct (fault 0%nat); [done|].
  destruct (referrer_of_code code) as [referrer|]; [|done].
  destruct (fault 1%nat); [done|].
  destruct (getUserByTelegramId referrer db); [|done].
  destruct (fault 2%nat); [done|].
  destruct (existsb _ (app_referrals db)) eqn:Hex; [done|].
  destruct (fault 3%nat); [done|]. simpl.
  rewrite fmap_app. apply NoDup_app. split; [done|]. split.
  - intros x Hx ->%list_elem_of_singleton.
    by apply existsb_referred in Hex.
  - apply NoDup_singleton.
Qed.

Lemma rewardReferral_keeps_referred now referralId db :
  referred_telegram_id <$> app_referrals (rewardReferral now referralId db).2
  = referred_telegram_id <$> app_referrals db.
Proof.
  unfold rewardReferral.
  pose proof (update_first_fmap referred_telegram_id
                (λ r, referral_id r =? referralId) (set_rewarded now)
                (app_referrals db) (λ _, eq_refl)) as H.
  destruct (update_first _ _ (app_referrals db)) as [r refs]. done.
Qed.

(** X19.  No user is recorded as referred twice: when the referral
    collection holds at most one referral for every referred user, it
    still does after any sequence of [recordReferral] and
    [rewardReferral] calls, whatever codes are presented and whichever
    store calls fail. *)
Theorem one_referral_per_referred_user calls db :
  NoDup (referred_telegram_id <$> app_referrals db) →
  NoDup (referred_telegram_id <$> app_referrals (run_referral_calls calls db)).
Proof.
  revert db. induction calls as [|c calls IH]; intros db Hnd; [done|].
  apply IH. destruct c as [fault now insertedId referred code|now referralId]; simpl.
  - by apply recordReferral_keeps_unique.
  - by rewrite rewardReferral_keeps_referred.
Qed.

Lemma one_referral_per_referred_user_witness :
  NoDup (referred_telegram_id
         <$> app_referrals
               (run_referral_calls
                  [CallRecord (λ _, None) 10 1 42 "REF123456789ABCDEF";
                   CallRecord (λ _, None) 20 2 42 "REF123456789ABCDEF";
                   CallReward 30 1]
                  ex_app_db)).
Proof.
  apply (one_referral_per_referred_user
           [CallRecord (λ _, None) 10 1 42 "REF123456789ABCDEF";
            CallRecord (λ _, None) 20 2 42 "REF123456789ABCDEF";
            CallReward 30 1] ex_app_db).
  vm_compute. constructor.
Defined.

Lemma find_app_new {A} (p : A → bool) l x :
  existsb p l = false → p x = true → List.find p (l ++ [x]) = Some x.
Proof.
  intros Hl Hx. induction l as [|y l IH]; simpl in *; [by rewrite Hx|].
  apply orb_false_iff in Hl as [Hy Hl]. rewrite Hy. by apply IH.
Qed.

Lemma count_app {A} (p : A → bool) l k :
  count p (l ++ k) = (count p l + count p k)%nat.
Proof. unfold count. by rewrite List.filter_app, List.length_app. Qed.

(** X20.  A referral that [recordReferral] returns is attributed to the
    user the digits after [REF] name, who must be a known user; it is
    stored unrewarded, [getReferralByUser] finds it for the referred user,
    and the referrer's statistics count one referral and one pending
    reward more.  Nothing compares the referrer with the referred user.
    (The referrer's id is taken below 2^53, where [parseInt] is exact.) *)
Theorem referral_recorded_then_found fault now insertedId referred code db doc db' :
  recordReferral fault now insertedId referred code db = (Some doc, db') →
  referrer_telegram_id doc < 2 ^ 53 →
  referrer_of_code code = Some (referrer_telegram_id doc)
  ∧ is_Some (getUserByTelegramId (referrer_telegram_id doc) db)
  ∧ doc = mkReferral insertedId (referrer_telegram_id doc) referred code false None now
  ∧ getReferralByUser referred db' = Some doc
  ∧ getReferralStats (referrer_telegram_id doc) db'
    = mkReferralStats
        (S (total_referrals (getReferralStats (referrer_telegram_id doc) db)))
        (total_rewards (getReferralStats (referrer_telegram_id doc) db))
        (S (pending_rewards (getReferralStats (referrer_telegram_id doc) db)))
  ∧ app_console db' = app_console db.
Proof.
  unfold recordReferral.
  destruct (fault 0%nat); [done|].
  destruct (referrer_of_code code) as [referrer|] eqn:Hcode; [|done].
  destruct (fault 1%nat); [done|].
  destruct (getUserByTelegramId referrer db) as [u|] eqn:Hu; [|done].
  destruct (fault 2%nat); [done|].
  destruct (existsb _ (app_referrals db)) eqn:Hex; [done|].
  destruct (fault 3%nat); [done|].
  intros [= <- <-] _. simpl. rewrite Hu.
  split; [done|]. split; [by eexists|]. split; [done|]. split; [|split; [|done]].
  - unfold getReferralByUser. simpl. apply find_app_new; [done|].
    simpl. apply Z.eqb_refl.
  - unfold getReferralStats. simpl. rewrite !count_app. unfold count at 2 4 6.
    simpl. rewrite Z.eqb_refl. simpl. f_equal; lia.
Qed.

Lemma referral_recorded_then_found_witness :
  let doc := mkReferral 1 123456789 123456789 "REF123456789ABCDEF" false None 10 in
  let db' := mkAppDb (app_users ex_app_db) (app_subscriptions ex_app_db)
               (app_referrals ex_app_db ++ [doc]) (app_console ex_app_db) in
  referrer_of_code "REF123456789ABCDEF" = Some (referrer_telegram_id doc)
  ∧ is_Some (getUserByTelegramId (referrer_telegram_id doc) ex_app_db)
  ∧ doc = mkReferral 1 (referrer_telegram_id doc) 123456789 "REF123456789ABCDEF"
            false None 10
  ∧ getReferralByUser 123456789 db' = Some doc
  ∧ getReferralStats (referrer_telegram_id doc) db'
    = mkReferralStats
        (S (total_referrals (getReferralStats (referrer_telegram_id doc) ex_app_db)))
        (total_rewards (getReferralStats (referrer_telegram_id doc) ex_app_db))
        (S (pending_rewards (getReferralStats (referrer_telegram_id doc) ex_app_db)))
  ∧ app_console db' = app_console ex_app_db.
Proof.
  intros doc db'.
  apply (referral_recorded_then_found (λ _, None) 10 1 123456789
           "REF123456789ABCDEF" ex_app_db doc db').
  - vm_compute. reflexivity.
  - vm_compute. reflexivity.
Defined.

(** ** Subscriptions *)

#[local] Instance expires_ge_trans : Transitive expires_ge.
Proof. unfold expires_ge. intros a b c. lia. Qed.

#[local] Instance expires_ge_total : Total expires_ge.
Proof. unfold expires_ge. intros a b. lia. Qed.

Lemma elem_of_filter {A} (p : A → bool) l x :
  x ∈ List.filter p l ↔ x ∈ l ∧ p x = true.
Proof. by rewrite !list_elem_of_In, filter_In. Qed.

Lemma getActiveSubscription_spec now telegramId db :
  match getActiveSubscription now telegramId db with
  | Some s =>
      s ∈ app_subscriptions db ∧ active_for telegramId now s = true
      ∧ ∀ s', s' ∈ app_subscriptions db → active_for telegramId now s' = true →
              subscription_expires_at s' ≤ subscription_expires_at s
  | None => ∀ s', s' ∈ app_subscriptions db → active_for telegramId now s' = false
  end.
Proof.
  unfold getActiveSubscription.
  set (l := List.filter (active_for telegramId now) (app_subscriptions db)).
  pose proof (merge_sort_Permutation expires_ge l) as Hperm.
  pose proof (StronglySorted_merge_sort expires_ge l) as Hsort.
  destruct (merge_sort expires_ge l) as [|s m]; simpl.
  - symmetry in Hperm. apply Permutation_nil_r in Hperm.
    intros s' Hin. destruct (active_for telegramId now s') eqn:Hact; [|done].
    assert (s' ∈ l) as Hl by (by apply elem_of_filter).
    rewrite Hperm in Hl. by apply elem_of_nil in Hl.
  - assert (s ∈ l) as Hs by (rewrite <- Hperm; apply list_elem_of_here).
    apply elem_of_filter in Hs as [Hs Hact]. split; [done|]. split; [done|].
    intros s' Hin' Hact'.
    assert (s' ∈ s :: m) as Hm by (rewrite Hperm; by apply elem_of_filter).
    apply StronglySorted_inv in Hsort as [_ Hall].
    apply elem_of_cons in Hm as [->|Hm]; [lia|].
    rewrite Forall_forall in Hall. by apply Hall.
Qed.

(** X21.  [getActiveSubscription] answers with a subscription of that user
    that is active and not yet expired, and none such expires later; it
    answers [null] exactly when the user has no such subscription. *)
Theorem getActiveSubscription_latest now telegramId db :
  match getActiveSubscription now telegramId db with
  | Some s =>
      s ∈ app_subscriptions db
      ∧ user_telegram_id s = telegramId
      ∧ subscription_status s = "active"
      ∧ now < subscription_expires_at s
      ∧ ∀ s', s' ∈ app_subscriptions db → active_for telegramId now s' = true →
              subscription_expires_at s' ≤ subscription_expires_at s
  | None => ∀ s', s' ∈ app_subscriptions db → active_for telegramId now s' = false
  end.
Proof.
  pose proof (getActiveSubscription_spec now telegramId db) as H.
  destruct (getActiveSubscription now telegramId db) as [s|]; [|done].
  destruct H as (Hin & Hact & Hmax). unfold active_for in Hact.
  apply andb_true_iff in Hact as [Hact Hexp].
  apply andb_true_iff in Hact as [Hid Hst].
  apply Z.eqb_eq in Hid. apply String.eqb_eq in Hst. apply Z.ltb_lt in Hexp.
  done.
Qed.

Lemma toString_Num_chars n :
  all_chars is_decimal_char (Js.toString (Js.Num n)) = true.
Proof.
  assert (∀ s, all_chars is_digit s = true → all_chars is_decimal_char s = true)
    as Hweaken.
  { induction s as [|c s IH]; simpl; [done|]. unfold is_decimal_char at 1.
    destruct (is_digit c); [|done]. simpl. exact IH. }
  destruct (Z.lt_ge_cases n 0) as [Hn|Hn].
  - destruct n as [|p|p]; [lia|lia|].
    destruct (toString_nat (Z.pos p)) as (c & s & Hs & _ & Hd & _); [lia|].
    change (Js.toString (Js.Num (Z.neg p)))
      with (String minus_sign (Js.toString (Js.Num (Z.pos p)))).
    rewrite Hs. change (all_chars is_decimal_char (String minus_sign (String c s)))
      with (all_chars is_decimal_char (String c s)).
    apply Hweaken. by apply digits_all.
  - destruct (toString_nat n Hn) as (c & s & Hs & _ & Hd & _).
    rewrite Hs. apply Hweaken. by apply digits_all.
Qed.

Lemma prefix_head_ne c p d s :
  Ascii.eqb c d = false → String.prefix (String c p) (String d s) = false.
Proof.
  intros H. simpl. destruct (ascii_dec c d) as [->|]; [|done].
  by rewrite Ascii.eqb_refl in H.
Qed.

(** A needle whose first character does not occur at all is not found. *)
Lemma occurs_head_absent c p s :
  all_chars (λ d, negb (Ascii.eqb c d)) s = true → occurs (String c p) s = false.
Proof.
  induction s as [|d s IH]; simpl; [done|].
  intros H. apply andb_true_iff in H as [Hd Hs]. apply negb_true_iff in Hd.
  destruct (ascii_dec c d) as [->|]; [by rewrite Ascii.eqb_refl in Hd|].
  by apply IH.
Qed.

Lemma all_chars_impl (p q : ascii → bool) s :
  (∀ c, p c = true → q c = true) → all_chars p s = true → all_chars q s = true.
Proof.
  intros Hpq. induction s as [|c s IH]; simpl; [done|].
  intros H. apply andb_true_iff in H as [Hc Hs]. by rewrite (Hpq c Hc), IH.
Qed.

Lemma decimal_char_cases c :
  is_decimal_char c = true →
  negb (Ascii.eqb "m" c) = true ∧ negb (Ascii.eqb "y" c) = true.
Proof.
  destruct c as [[] [] [] [] [] [] [] []]; vm_compute; try done.
Qed.

Lemma occurs_in_number (a : ascii) p n :
  (∀ c, is_decimal_char c = true → negb (Ascii.eqb a c) = true) →
  occurs (String a p) (Js.toString (Js.Num n)) = false.
Proof.
  intros H. apply occurs_head_absent.
  eapply all_chars_impl; [exact H|]. apply toString_Num_chars.
Qed.

Lemma occurs_cons needle c s :
  occurs needle (String c s) = String.prefix needle (String c s) || occurs needle s.
Proof. reflexivity. Qed.

(** What [includes('monthly')] and [includes('yearly')] answer on the
    payloads of the bot's invoices. *)
Lemma invoice_payload_kinds what userId :
  occurs "monthly" (invoice_payload_of what userId)
  = match what with InvoiceMonthly => true | _ => false end
  ∧ (what ≠ InvoiceMonthly →
     occurs "yearly" (invoice_payload_of what userId)
     = match what with InvoiceYearly => true | _ => false end).
Proof.
  assert (occurs "monthly" (Js.toString (Js.Num userId)) = false) as Hm
    by (apply occurs_in_number; intros c Hc; by apply decimal_char_cases).
  assert (occurs "yearly" (Js.toString (Js.Num userId)) = false) as Hy
    by (apply occurs_in_number; intros c Hc; by apply decimal_char_cases).
  destruct what; unfold invoice_payload_of.
  - split; [|done]. apply occurs_app_l. reflexivity.
  - split.
    + change ("premium_yearly_" +:+ ?s) with
        (String "p" (String "r" (String "e" (String "m" (String "i" (String "u"
         (String "m" (String "_" (String "y" (String "e" (String "a" (String "r"
         (String "l" (String "y" (String "_" s))))))))))))))).
      rewrite !occurs_cons, Hm.
      repeat (rewrite prefix_head_ne by reflexivity). simpl.
      by destruct (Js.toString (Js.Num userId)).
    + intros _. apply occurs_app_l. reflexivity.
  - split.
    + change ("ebook_" +:+ ?s) with
        (String "e" (String "b" (String "o" (String "o" (String "k"
         (String "_" s)))))).
      rewrite !occurs_cons, Hm.
      by repeat (rewrite prefix_head_ne by reflexivity).
    + intros _.
      change ("ebook_" +:+ ?s) with
        (String "e" (String "b" (String "o" (String "o" (String "k"
         (String "_" s)))))).
      rewrite !occurs_cons, Hy.
      by repeat (rewrite prefix_head_ne by reflexivity).
Qed.

Lemma env_default_Some s : env_default (Some s) EmptyString = s.
Proof. unfold env_default. simpl. by destruct s. Qed.

Section PaymentSubscribes.

Variable addMonth : Z → Z.
Variable addYear : Z → Z.


End PaymentSubscribes.


Lemma update_first_elem {A} (g : A → Z) (f : A → A) k l x :
  NoDup (g <$> l) →
  x ∈ (update_first (λ s, g s =? k) f l).2 →
  (x ∈ l ∧ g x ≠ k) ∨ (∃ y, y ∈ l ∧ g y = k ∧ x = f y).
Proof.
  induction l as [|y l IH]; [simpl; intros _ H; by apply elem_of_nil in H|].
  rewrite fmap_cons, NoDup_cons. intros [Hy Hnd]. simpl.
  destruct (g y =? k) eqn:Hk; simpl.
  - apply Z.eqb_eq in Hk. intros [->|Hx]%elem_of_cons.
    + right. exists y. split; [apply list_elem_of_here|done].
    + left. split; [by apply list_elem_of_further|].
      intros Hgx. apply Hy. apply list_elem_of_fmap. exists x. split; [congruence|done].
  - apply Z.eqb_neq in Hk.
    destruct (update_first (λ s, g s =? k) f l) as [r rest] eqn:Hu. simpl in *.
    intros [->|Hx]%elem_of_cons.
    + left. split; [apply list_elem_of_here|done].
    + destruct (IH Hnd Hx) as [[Hin Hne]|(z & Hz & Hgz & ->)].
      * left. split; [by apply list_elem_of_further|done].
      * right. exists z. split; [by apply list_elem_of_further|done].
Qed.

Lemma update_first_keeps {A} (p : A → bool) (f : A → A) l x :
  x ∈ l → p x = false → x ∈ (update_first p f l).2.
Proof.
  induction l as [|y l IH]; simpl; [done|].
  intros [->|Hx]%elem_of_cons Hp.
  - rewrite Hp. destruct (update_first p f l). apply list_elem_of_here.
  - destruct (p y); simpl; [by apply list_elem_of_further|].
    destruct (update_first p f l) as [r rest] eqn:Hu. simpl in *.
    apply list_elem_of_further. by apply IH.
Qed.

(** X23.  Once [cancelSubscription] has run for an id, no user's active
    subscription is the one with that id (ids being unique, as the store
    gives them): [getActiveSubscription] answers with a subscription the
    cancellation left as it was, and with [null] only if the user had no
    other active one. *)
Theorem cancelled_subscription_not_active now subscriptionId db now' telegramId :
  NoDup (subscription_id <$> app_subscriptions db) →
  match getActiveSubscription now' telegramId
          (cancelSubscription now subscriptionId db).2 with
  | Some s => subscription_id s ≠ subscriptionId ∧ s ∈ app_subscriptions db
  | None =>
      ∀ s, s ∈ app_subscriptions db → active_for telegramId now' s = true →
           subscription_id s = subscriptionId
  end.
Proof.
  intros Hnd.
  pose proof (getActiveSubscription_spec now' telegramId
                (cancelSubscription now subscriptionId db).2) as Hspec.
  assert (app_subscriptions (cancelSubscription now subscriptionId db).2
          = (update_first (λ s, subscription_id s =? subscriptionId)
               (set_cancelled now) (app_subscriptions db)).2) as Hsubs.
  { unfold cancelSubscription. by destruct (update_first _ _ _). }
  rewrite Hsubs in Hspec.
  destruct (getActiveSubscription _ _ _) as [s|].
  - destruct Hspec as (Hin & Hact & _).
    apply update_first_elem in Hin as [[Hin Hne]|(y & _ & _ & ->)]; [done| |done].
    unfold active_for, set_cancelled in Hact. simpl in Hact.
    by rewrite andb_false_r in Hact.
  - intros s Hin Hact.
    destruct (Z.eq_dec (subscription_id s) subscriptionId) as [|Hne]; [done|].
    apply Z.eqb_neq in Hne.
    pose proof (update_first_keeps (λ s, subscription_id s =? subscriptionId)
                  (set_cancelled now) _ _ Hin Hne) as Hin'.
    specialize (Hspec _ Hin'). congruence.
Qed.

Lemma cancelled_subscription_not_active_witness :
  match getActiveSubscription 50 42
          (cancelSubscription 40 2
             (mkAppDb ∅ [ex_subscription 1 42 100; ex_subscription 2 42 200] [] [])).2
  with
  | Some s =>
      subscription_id s ≠ 2
      ∧ s ∈ [ex_subscription 1 42 100; ex_subscription 2 42 200]
  | None =>
      ∀ s, s ∈ [ex_subscription 1 42 100; ex_subscription 2 42 200] →
           active_for 42 50 s = true → subscription_id s = 2
  end.
Proof.
  apply (cancelled_subscription_not_active 40 2
           (mkAppDb ∅ [ex_subscription 1 42 100; ex_subscription 2 42 200] [] [])
           50 42).
  simpl. apply NoDup_cons. split; [|apply NoDup_singleton].
  intros H. apply list_elem_of_singleton in H. discriminate H.
Defined.

(** ** Invoices and payment payloads *)

Lemma split_no_sep sep s :
  all_chars (λ c, negb (Ascii.eqb c sep)) s = true → split sep s = [s].
Proof.
  induction s as [|c s IH]; simpl; [done|].
  intros H. apply andb_true_iff in H as [Hc Hs]. apply negb_true_iff in Hc.
  by rewrite Hc, IH.
Qed.

Lemma split_cons_sep sep s : split sep (String sep s) = EmptyString :: split sep s.
Proof. simpl. by rewrite Ascii.eqb_refl. Qed.

Lemma split_not_nil sep s : split sep s ≠ [].
Proof.
  destruct s as [|c s]; simpl; [done|].
  destruct (Ascii.eqb c sep); [done|]. by destruct (split sep s).
Qed.

(** Splitting after a part that holds no separator. *)
Lemma split_part sep a b :
  all_chars (λ c, negb (Ascii.eqb c sep)) a = true →
  split sep (a +:+ String sep b) = a :: split sep b.
Proof.
  induction a as [|c a IH]; intros H.
  - change (EmptyString +:+ String sep b) with (String sep b).
    apply split_cons_sep.
  - simpl in H. apply andb_true_iff in H as [Hc Ha]. apply negb_true_iff in Hc.
    change (String c a +:+ String sep b) with (String c (a +:+ String sep b)).
    simpl. by rewrite Hc, IH.
Qed.

Lemma last_cons_split {A} (x : A) l d : l ≠ [] → List.last (x :: l) d = List.last l d.
Proof. by destruct l. Qed.

Lemma createInvoicePayload_payload o inv :
  createInvoicePayload o = inr inv →
  invoice_payload_field inv = default EmptyString (opt_payload o).
Proof.
  unfold createInvoicePayload.
  repeat (destruct (missing_or_longer _ _); [done|]).
  destruct (negb _); [done|].
  destruct (opt_prices o) as [[|p ps]|]; [done| |done].
  destruct (check_prices _ _); [done|]. by intros [= <-].
Qed.

Lemma plans_Some plan offer :
  plans plan = Some offer → plan = "monthly" ∨ plan = "yearly".
Proof.
  unfold plans.
  destruct (String.eqb plan "monthly") eqn:Hm; [apply String.eqb_eq in Hm; auto|].
  destruct (String.eqb plan "yearly") eqn:Hy; [apply String.eqb_eq in Hy; auto|].
  done.
Qed.

Lemma products_Some sku offer :
  products sku = Some offer →
  sku = "crypto-ebook" ∨ sku = "advanced-course" ∨ sku = "one-on-one".
Proof.
  unfold products.
  destruct (String.eqb sku "crypto-ebook") eqn:H1; [apply String.eqb_eq in H1; auto|].
  destruct (String.eqb sku "advanced-course") eqn:H2;
    [apply String.eqb_eq in H2; auto|].
  destruct (String.eqb sku "one-on-one") eqn:H3; [apply String.eqb_eq in H3; auto|].
  done.
Qed.

(** X24.  What [createSubscriptionInvoice] puts into the payload of an
    invoice, [parsePaymentPayload] reads back: a subscription with the
    plan of the invoice, and as user id what follows the last underscore
    of the user id given, which is all of it when it has none. *)
Theorem subscription_invoice_round_trip provider_token userId plan inv :
  createSubscriptionInvoice provider_token userId plan = inr inv →
  (plan = "monthly" ∨ plan = "yearly")
  ∧ parsePaymentPayload (Js.Str (invoice_payload_field inv))
    = inr (ParsedSubscription plan
             (List.last (split underscore userId) EmptyString))
  ∧ (no_underscore userId = true →
     List.last (split underscore userId) EmptyString = userId).
Proof.
  unfold createSubscriptionInvoice.
  destruct (plans plan) as [offer|] eqn:Hplan;
    [|destruct (inherited_key plan); done].
  intros Hinv. apply createInvoicePayload_payload in Hinv. simpl in Hinv.
  apply plans_Some in Hplan. split; [done|]. split.
  - rewrite Hinv. unfold parsePaymentPayload.
    assert (split underscore ("premium_" +:+ plan +:+ "_" +:+ userId)
            = "premium" :: plan :: split underscore userId) as ->.
    { change ("premium_" +:+ plan +:+ "_" +:+ userId)
        with ("premium" +:+ String underscore (plan +:+ String underscore userId)).
      rewrite split_part by reflexivity.
      rewrite split_part by (destruct Hplan as [->| ->]; reflexivity). done. }
    pose proof (split_not_nil underscore userId) as Hne.
    destruct (split underscore userId) as [|p ps] eqn:Hs; [done|].
    done.
  - intros Hno. by rewrite split_no_sep.
Qed.

Lemma subscription_invoice_round_trip_witness :
  (("yearly" : string) = "monthly" ∨ ("yearly" : string) = "yearly")
  ∧ parsePaymentPayload (Js.Str "premium_yearly_42")
    = inr (ParsedSubscription "yearly" (List.last (split underscore "42") EmptyString))
  ∧ (no_underscore "42" = true → List.last (split underscore "42") EmptyString = "42").
Proof.
  apply (subscription_invoice_round_trip (Some "token") "42" "yearly"
           (mkInvoicePayload "Premium Signals - Yearly"
              "Annual access with 2 months free! Private channel + premium signals"
              "premium_yearly_42" "token" "USD"
              [mkPrice "Yearly Subscription" 25000]
              false false false false false false false None None None None)).
  vm_compute. reflexivity.
Defined.

(** X25.  [createProductInvoice] and [parsePaymentPayload] agree on a
    user id without underscore: the payload of the invoice is read back as
    the purchase of that product by that user. *)
Theorem product_invoice_round_trip provider_token userId productSku inv :
  no_underscore userId = true →
  createProductInvoice provider_token userId productSku = inr inv →
  parsePaymentPayload (Js.Str (invoice_payload_field inv))
  = inr (ParsedProduct productSku userId).
Proof.
  intros Hno. unfold createProductInvoice.
  destruct (products productSku) as [offer|] eqn:Hsku;
    [|destruct (inherited_key productSku); done].
  intros Hinv. apply createInvoicePayload_payload in Hinv. simpl in Hinv.
  apply products_Some in Hsku. rewrite Hinv. unfold parsePaymentPayload.
  assert (split underscore (productSku +:+ "_" +:+ userId) = [productSku; userId])
    as ->.
  { change (productSku +:+ "_" +:+ userId)
      with (productSku +:+ String underscore userId).
    rewrite split_part by (destruct Hsku as [->|[->| ->]]; reflexivity).
    by rewrite split_no_sep. }
  destruct Hsku as [->|[->| ->]]; reflexivity.
Qed.

Lemma product_invoice_round_trip_witness :
  parsePaymentPayload (Js.Str "crypto-ebook_42")
  = inr (ParsedProduct "crypto-ebook" "42").
Proof.
  apply (product_invoice_round_trip (Some "token") "42" "crypto-ebook"
           (mkInvoicePayload "Crypto Trading Masterclass eBook"
              "Complete guide to crypto trading strategies and risk management"
              "crypto-ebook_42" "token" "USD"
              [mkPrice "Crypto Trading Masterclass eBook" 1900]
              false false false false false false false None None None None)).
  - reflexivity.
  - vm_compute. reflexivity.
Defined.

Lemma toString_Num_no_underscore n : no_underscore (Js.toString (Js.Num n)) = true.
Proof.
  unfold no_underscore. eapply all_chars_impl; [|apply toString_Num_chars].
  intros [[] [] [] [] [] [] [] []]; vm_compute; done.
Qed.

(** X26.  The payloads of the invoices the bot itself sends are read by
    [parsePaymentPayload] as what was sold and to whom; the e-book is read
    as the product 'ebook', which is not a product [createProductInvoice]
    knows.  (User ids are integers of at most 2^53 in absolute value.) *)
Theorem bot_payloads_parse what userId :
  - 2 ^ 53 ≤ userId ≤ 2 ^ 53 →
  parsePaymentPayload (Js.Str (invoice_payload_of what userId))
  = inr (match what with
         | InvoiceMonthly => ParsedSubscription "monthly" (Js.toString (Js.Num userId))
         | InvoiceYearly => ParsedSubscription "yearly" (Js.toString (Js.Num userId))
         | InvoiceEbook => ParsedProduct "ebook" (Js.toString (Js.Num userId))
         end)
  ∧ products "ebook" = None.
Proof.
  intros _. split; [|done].
  pose proof (toString_Num_no_underscore userId) as Hno.
  unfold parsePaymentPayload, invoice_payload_of.
  destruct what.
  - change ("premium_monthly_" +:+ ?s)
      with ("premium" +:+ String underscore ("monthly" +:+ String underscore s)).
    rewrite !split_part by reflexivity. by rewrite split_no_sep.
  - change ("premium_yearly_" +:+ ?s)
      with ("premium" +:+ String underscore ("yearly" +:+ String underscore s)).
    rewrite !split_part by reflexivity. by rewrite split_no_sep.
  - change ("ebook_" +:+ ?s) with ("ebook" +:+ String underscore s).
    rewrite !split_part by reflexivity. by rewrite split_no_sep.
Qed.

Lemma bot_payloads_parse_witness :
  parsePaymentPayload (Js.Str (invoice_payload_of InvoiceEbook 42))
  = inr (ParsedProduct "ebook" (Js.toString (Js.Num 42)))
  ∧ products "ebook" = None.
Proof. apply (bot_payloads_parse InvoiceEbook 42). lia. Defined.

Lemma missing_or_longer_false s n :
  missing_or_longer s n = false →
  ∃ t, s = Some t ∧ (1 ≤ String.length t ≤ n)%nat.
Proof.
  unfold missing_or_longer, env_truthy. intros H.
  apply orb_false_iff in H as [Hs Hn]. apply negb_false_iff in Hs.
  destruct s as [t|]; [|done]. exists t. split; [done|]. simpl in Hn.
  apply Nat.ltb_ge in Hn. destruct t; [done|]. simpl in *. lia.
Qed.

Lemma check_prices_None index prices :
  check_prices index prices = None →
  Forall (λ p, price_label p ≠ EmptyString ∧ 0 < price_amount p) prices.
Proof.
  revert index. induction prices as [|p ps IH]; intros index; simpl; [done|].
  destruct (String.eqb (price_label p) EmptyString) eqn:Hl; [done|].
  destruct (price_amount p =? 0) eqn:Hz; [done|]. simpl.
  destruct (price_amount p <=? 0) eqn:Hle; [done|].
  intros H. apply Forall_cons_2; [|by eapply IH].
  apply String.eqb_neq in Hl. apply Z.leb_gt in Hle. done.
Qed.

(** X27.  [createInvoicePayload] never hands out an invoice outside the
    limits it checks: title, description and payload are present and at
    most 32, 255 and 128 characters long, the provider token is not empty,
    there is at least one price, every price has a label and a positive
    amount, and the currency is 'USD' unless one was given. *)
Theorem createInvoicePayload_valid o :
  match createInvoicePayload o with
  | inr inv =>
      opt_title o = Some (invoice_title inv)
      ∧ (1 ≤ String.length (invoice_title inv) ≤ 32)%nat
      ∧ opt_description o = Some (invoice_description inv)
      ∧ (1 ≤ String.length (invoice_description inv) ≤ 255)%nat
      ∧ opt_payload o = Some (invoice_payload_field inv)
      ∧ (1 ≤ String.length (invoice_payload_field inv) ≤ 128)%nat
      ∧ opt_provider_token o = Some (invoice_provider_token inv)
      ∧ invoice_provider_token inv ≠ EmptyString
      ∧ invoice_prices inv ≠ []
      ∧ Forall (λ p, price_label p ≠ EmptyString ∧ 0 < price_amount p)
          (invoice_prices inv)
      ∧ invoice_currency inv = default "USD" (opt_currency o)
  | inl _ => True
  end.
Proof.
  unfold createInvoicePayload.
  destruct (missing_or_longer (opt_title o) 32) eqn:Ht; [done|].
  destruct (missing_or_longer (opt_description o) 255) eqn:Hd; [done|].
  destruct (missing_or_longer (opt_payload o) 128) eqn:Hp; [done|].
  destruct (negb (env_truthy (opt_provider_token o))) eqn:Hk; [done|].
  destruct (opt_prices o) as [[|p ps]|]; [done| |done].
  destruct (check_prices 0 (p :: ps)) eqn:Hc; [done|].
  apply missing_or_longer_false in Ht as (t & -> & Ht).
  apply missing_or_longer_false in Hd as (d & -> & Hd).
  apply missing_or_longer_false in Hp as (pl & -> & Hp).
  apply negb_false_iff in Hk. unfold env_truthy in Hk.
  destruct (opt_provider_token o) as [k|]; [|done].
  simpl. repeat split; try done; try lia.
  - intros ->. done.
  - by eapply check_prices_None.
Qed.
